(** * Order execution engine

    A shallow embedding of [src/index.ts]: the mock DEX router, the in-memory
    order store, the WebSocket connection registry, the BullMQ worker handler
    and the two Fastify routes, followed by the properties the specification
    states about them.

    Conventions of the embedding.
    - A JavaScript [number] is a rational ([Q]); a [Date] is a number of
      milliseconds ([Z]).  The router is given twice: in exact arithmetic
      ([MockDexRouter]) and with every operation rounded to binary64
      ([MockDexRouter64]), for the properties that depend on the rounding.
    - [Math.random()], [randomUUID()] and [new Date()] are inputs: the draws
      are arguments of the functions that use them, the clock is a field of the
      world that only the environment advances.
    - [Order] objects live in a heap and the order store holds references, as
      a JavaScript [Map<string, Order>] does.
    - Code between two [await]s runs without interruption, so the worker
      handler is cut at its two [await]s into three resumptions; everything
      else (requests, socket events, other handlers) interleaves between
      them.
    - Every [orderStore.set] and every [send] on a socket is appended to a
      trace, stamped with the clock and with the handler that did it.  The
      trace is instrumentation: no modelled code reads it.
    - BullMQ, Fastify and the sockets are the environment.  The queue may
      hand the worker any job it holds, any number of times, each time with
      a fresh copy of the payload (the count of attempts is not modelled);
      a socket's [send] returns or throws as the environment has it.
    - [fastify.log] calls are left out. *)

From Stdlib Require Import QArith Lqa Ascii Qround Qpower.
From stdpp Require Import gmap strings list.

Open Scope string_scope.
Open Scope list_scope.

(** ** Data model *)

Inductive OrderStatus : Set :=
  | pending | routing | building | submitted | confirmed | failed.

#[global] Instance OrderStatus_eq_dec : EqDecision OrderStatus.
Proof. solve_decision. Defined.

(** The string a status is in TypeScript. *)
Definition statusName (s : OrderStatus) : string :=
  match s with
  | pending => "pending"
  | routing => "routing"
  | building => "building"
  | submitted => "submitted"
  | confirmed => "confirmed"
  | failed => "failed"
  end.

Inductive Token : Set := SOL | USDC | USDT | ETH.

Definition tokenName (t : Token) : string :=
  match t with SOL => "SOL" | USDC => "USDC" | USDT => "USDT" | ETH => "ETH" end.

(** [interface OrderRequest]: the body the route's JSON schema lets through
    ([additionalProperties: false], all three members required). *)
Module OrderRequest.
Record t : Type := mk {
  tokenIn : Token;
  tokenOut : Token;
  amount : Q
}.
End OrderRequest.

(** [interface Order]; the two optional members are [option]s. *)
Module Order.
Record t : Type := mk {
  id : string;
  tokenIn : string;
  tokenOut : string;
  amount : Q;
  status : OrderStatus;
  txHash : option string;
  error : option string;
  createdAt : Z;
  updatedAt : Z
}.

Definition set_status (s : OrderStatus) (o : t) : t :=
  mk (id o) (tokenIn o) (tokenOut o) (amount o) s (txHash o) (error o)
     (createdAt o) (updatedAt o).
Definition set_txHash (h : string) (o : t) : t :=
  mk (id o) (tokenIn o) (tokenOut o) (amount o) (status o) (Some h) (error o)
     (createdAt o) (updatedAt o).
Definition set_error (e : string) (o : t) : t :=
  mk (id o) (tokenIn o) (tokenOut o) (amount o) (status o) (txHash o) (Some e)
     (createdAt o) (updatedAt o).
Definition set_updatedAt (d : Z) (o : t) : t :=
  mk (id o) (tokenIn o) (tokenOut o) (amount o) (status o) (txHash o) (error o)
     (createdAt o) d.

#[global] Instance inhabited : Inhabited t :=
  populate (mk "" "" "" 0%Q pending None None 0%Z 0%Z).
End Order.

(** What a [throw] carries: an [Error] with its message, or any other value. *)
Inductive Thrown : Type :=
  | ErrorObject (message : string)
  | OtherValue (value : string).

(** [error instanceof Error ? error.message : 'Unknown error'] *)
Definition messageOf (error : Thrown) : string :=
  match error with
  | ErrorObject message => message
  | OtherValue _ => "Unknown error"
  end.

(** ** JavaScript object literals and [JSON.stringify] *)

Inductive JsValue : Type :=
  | JsString (s : string)
  | JsNumber (q : Q)
  | JsUndefined.

(** An object literal: its properties in insertion order. *)
Definition JsObject : Type := list (string * JsValue).

(** Writing a property: an existing key keeps its place and takes the new
    value, a new key goes last. *)
Fixpoint setProperty (k : string) (v : JsValue) (o : JsObject) : JsObject :=
  match o with
  | [] => [(k, v)]
  | (k', v') :: rest =>
      if String.eqb k k' then (k', v) :: rest else (k', v') :: setProperty k v rest
  end.

(** [{ ...target, ...source }] *)
Definition spread (target source : JsObject) : JsObject :=
  fold_left (fun acc kv => setProperty (fst kv) (snd kv) acc) source target.

Definition isDefined (v : JsValue) : bool :=
  match v with JsUndefined => false | _ => true end.

(** [JSON.stringify] of an object: the members that reach the text, in
    order; a property whose value is [undefined] is left out. *)
Definition JSON_stringify (o : JsObject) : JsObject :=
  List.filter (fun kv => isDefined (snd kv)) o.

Definition optionalString (s : option string) : JsValue :=
  match s with Some x => JsString x | None => JsUndefined end.

Definition property (k : string) (o : JsObject) : option JsValue :=
  snd <$> List.find (fun kv => String.eqb k (fst kv)) o.

Definition keys (o : JsObject) : list string := List.map fst o.

(** ** MockDexRouter *)

Module SwapResult.
Record t : Type := mk { txHash : string; executedPrice : Q }.
End SwapResult.

Module MockDexRouter.

(** [r] is the value of [Math.random()]. *)
Definition getRaydiumQuote (tokenIn tokenOut : string) (amount : Q) (r : Q) : Q :=
  let basePrice := 100%Q in
  (basePrice * (1 + (r * 0.06 - 0.03)))%Q.

Definition getMeteoraQuote (tokenIn tokenOut : string) (amount : Q) (r : Q) : Q :=
  let basePrice := 100%Q in
  (basePrice * (1 + (r * 0.06 - 0.03)))%Q.

(** [rDelay] is the draw of the simulated delay, [uuid] the value of
    [randomUUID()], [r] the draw of the executed price. *)
Definition executeSwap (dex : string) (order : Order.t)
    (rDelay : Q) (uuid : string) (r : Q) : SwapResult.t :=
  SwapResult.mk (dex +:+ "_" +:+ uuid) (100 * (1 + (r * 0.06 - 0.03)))%Q.

End MockDexRouter.

(** What [Math.random()] can return. *)
Definition unitDraw (r : Q) : Prop := (0 <= r)%Q /\ (r < 1)%Q.

(** [raydiumPrice <= meteoraPrice ? 'raydium' : 'meteora'] *)
Definition bestDex (raydiumPrice meteoraPrice : Q) : string :=
  if Qle_bool raydiumPrice meteoraPrice then "raydium" else "meteora".

(** ** The process state *)

(** Which handler performed an effect; a worker-handler invocation is named
    by its [order] object. *)
Inductive Actor : Set :=
  | ApiRoute
  | WsRoute
  | WorkerHandler (order : nat).

#[global] Instance Actor_eq_dec : EqDecision Actor.
Proof. solve_decision. Defined.

Inductive Action : Type :=
  | StoreSet (key : string) (record : Order.t)
      (** [orderStore.set(key, order)], with the object's members as they
          are at the call *)
  | Send (socket : nat) (text : JsObject) (raised : option Thrown)
      (** [socket.send(text)], and what the call threw, if it did *).

Record Effect : Type := mkEffect { when : Z; who : Actor; what : Action }.

Record Backoff : Type := mkBackoff { type : string; delay : Z }.
Record JobsOptions : Type := mkJobsOptions { attempts : nat; backoff : Backoff }.

(** A job as the queue keeps it: the payload is serialised when the job is
    added, so it is a copy of the order, not the object. *)
Module Job.
Record t : Type := mk { name : string; order : Order.t; opts : JobsOptions }.
End Job.

Record World : Type := mkWorld {
  clock : Z;                          (** what [new Date()] reads *)
  nextRef : nat;                      (** next free object reference *)
  heap : gmap nat Order.t;            (** the [Order] objects *)
  orderStore : gmap string nat;       (** [Map<string, Order>] *)
  connections : gmap string nat;      (** [Map<string, WebSocket>] *)
  broken : gmap nat Thrown;           (** sockets whose [send] throws, and what *)
  closeListeners : list (nat * string); (** [socket.on('close', ...)] closures *)
  orderQueue : list Job.t;            (** jobs added to the 'orders' queue *)
  trace : list Effect
}.

Definition initial (now : Z) : World :=
  mkWorld now 0 ∅ ∅ ∅ ∅ [] [] [].

(** ** A state monad with exceptions *)

Inductive Completion (A : Type) : Type :=
  | Normal (a : A)
  | Throw (e : Thrown).
Arguments Normal {A} a.
Arguments Throw {A} e.

Definition M (A : Type) : Type := World -> World * Completion A.

Definition ret {A} (a : A) : M A := fun w => (w, Normal a).

Definition bind {A B} (m : M A) (k : A -> M B) : M B :=
  fun w =>
    match m w with
    | (w', Normal a) => k a w'
    | (w', Throw e) => (w', Throw e)
    end.

Definition throw {A} (e : Thrown) : M A := fun w => (w, Throw e).

(** [try { body } catch (error) { handler }] *)
Definition tryCatch {A} (body : M A) (handler : Thrown -> M A) : M A :=
  fun w =>
    match body w with
    | (w', Normal a) => (w', Normal a)
    | (w', Throw e) => handler e w'
    end.

(** [await p] for a promise that has settled with [settled]. *)
Definition awaitSettled {A} (settled : Completion A) : M A := fun w => (w, settled).

Notation "x <- c1 ;; c2" := (bind c1 (fun x => c2))
  (at level 100, c1 at next level, right associativity).
Notation "c1 ;; c2" := (bind c1 (fun _ => c2))
  (at level 100, right associativity).

(** ** Primitive operations *)

Definition emit (a : Actor) (x : Action) (w : World) : World :=
  mkWorld (clock w) (nextRef w) (heap w) (orderStore w) (connections w) (broken w)
    (closeListeners w) (orderQueue w) (trace w ++ [mkEffect (clock w) a x]).

Definition newDate : M Z := fun w => (w, Normal (clock w)).

(** A new object with the members of [o]. *)
Definition alloc (o : Order.t) : M nat := fun w =>
  (mkWorld (clock w) (S (nextRef w)) (<[nextRef w := o]> (heap w)) (orderStore w)
     (connections w) (broken w) (closeListeners w) (orderQueue w) (trace w),
   Normal (nextRef w)).

Definition readOrder (order : nat) : M Order.t := fun w =>
  (w, Normal (heap w !!! order)).

(** [order.member = value] *)
Definition assign (order : nat) (f : Order.t -> Order.t) : M unit := fun w =>
  (mkWorld (clock w) (nextRef w) (<[order := f (heap w !!! order)]> (heap w))
     (orderStore w) (connections w) (broken w) (closeListeners w) (orderQueue w)
     (trace w),
   Normal tt).

Definition orderStore_set (a : Actor) (key : string) (order : nat) : M unit := fun w =>
  (emit a (StoreSet key (heap w !!! order))
     (mkWorld (clock w) (nextRef w) (heap w) (<[key := order]> (orderStore w))
        (connections w) (broken w) (closeListeners w) (orderQueue w) (trace w)),
   Normal tt).

Definition orderStore_get (key : string) : M (option nat) := fun w =>
  (w, Normal (orderStore w !! key)).

Definition connections_set (key : string) (socket : nat) : M unit := fun w =>
  (mkWorld (clock w) (nextRef w) (heap w) (orderStore w)
     (<[key := socket]> (connections w)) (broken w) (closeListeners w)
     (orderQueue w) (trace w),
   Normal tt).

Definition connections_get (key : string) : M (option nat) := fun w =>
  (w, Normal (connections w !! key)).

Definition connections_delete (key : string) : M unit := fun w =>
  (mkWorld (clock w) (nextRef w) (heap w) (orderStore w)
     (delete key (connections w)) (broken w) (closeListeners w)
     (orderQueue w) (trace w),
   Normal tt).

(** [socket.send(text)]: the call is recorded; it throws when the socket is
    in a state in which its [send] throws. *)
Definition socket_send (a : Actor) (socket : nat) (text : JsObject) : M unit := fun w =>
  match broken w !! socket with
  | Some e => (emit a (Send socket text (Some e)) w, Throw e)
  | None => (emit a (Send socket text None) w, Normal tt)
  end.

(** [socket.on('close', () => connections.delete(orderId))] *)
Definition socket_on_close (socket : nat) (orderId : string) : M unit := fun w =>
  (mkWorld (clock w) (nextRef w) (heap w) (orderStore w) (connections w) (broken w)
     (closeListeners w ++ [(socket, orderId)]) (orderQueue w) (trace w),
   Normal tt).

(** [orderQueue.add(name, { order }, opts)]; the broker is taken to accept
    the job. *)
Definition orderQueue_add (name : string) (order : nat) (opts : JobsOptions) : M unit :=
  fun w =>
  (mkWorld (clock w) (nextRef w) (heap w) (orderStore w) (connections w) (broken w)
     (closeListeners w) (orderQueue w ++ [Job.mk name (heap w !!! order) opts])
     (trace w),
   Normal tt).

(** ** The worker handler *)

(** The closure [updateStatus] of the handler, for the handler's [order]. *)
Definition updateStatus (order : nat) (status : OrderStatus)
    (additionalData : JsObject) : M unit :=
  assign order (Order.set_status status) ;;
  now <- newDate ;;
  assign order (Order.set_updatedAt now) ;;
  o <- readOrder order ;;
  orderStore_set (WorkerHandler order) (Order.id o) order ;;
  connection <- connections_get (Order.id o) ;;
  match connection with
  | Some socket =>
      socket_send (WorkerHandler order) socket
        (JSON_stringify
           (spread [("status", JsString (statusName status));
                    ("orderId", JsString (Order.id o))]
                   additionalData))
  | None => ret tt
  end.

(** Where the handler is resumed: when the job is dequeued, when
    [Promise.all] of the two quotes has settled, when [executeSwap] has. *)
Inductive Resume : Type :=
  | Dequeued
  | QuotesSettled (settled : Completion (Q * Q))
  | SwapSettled (bestDex : string) (settled : Completion SwapResult.t).

(** Where the handler stops: at one of its [await]s, or at its [return]. *)
Inductive Next : Type :=
  | AwaitQuotes
  | AwaitSwap (bestDex : string)
  | Returned (success : bool) (order : nat).

(** The statements of the [try] block from one resumption to the next stop. *)
Definition tryBlock (order : nat) (from : Resume) : M Next :=
  match from with
  | Dequeued =>
      updateStatus order routing [] ;;
      ret AwaitQuotes
  | QuotesSettled settled =>
      prices <- awaitSettled settled ;;
      let raydiumPrice := fst prices in
      let meteoraPrice := snd prices in
      let bestDex := bestDex raydiumPrice meteoraPrice in
      updateStatus order building [] ;;
      updateStatus order submitted [] ;;
      ret (AwaitSwap bestDex)
  | SwapSettled _ settled =>
      result <- awaitSettled settled ;;
      assign order (Order.set_txHash (SwapResult.txHash result)) ;;
      updateStatus order confirmed
        [("txHash", JsString (SwapResult.txHash result));
         ("executedPrice", JsNumber (SwapResult.executedPrice result))] ;;
      ret (Returned true order)
  end.

(** The [catch] block. *)
Definition catchBlock (order : nat) (error : Thrown) : M Next :=
  assign order (Order.set_status failed) ;;
  assign order (Order.set_error (messageOf error)) ;;
  now <- newDate ;;
  assign order (Order.set_updatedAt now) ;;
  o <- readOrder order ;;
  orderStore_set (WorkerHandler order) (Order.id o) order ;;
  connection <- connections_get (Order.id o) ;;
  match connection with
  | Some socket =>
      socket_send (WorkerHandler order) socket
        (JSON_stringify
           [("status", JsString "failed");
            ("orderId", JsString (Order.id o));
            ("error", optionalString (Order.error o))])
  | None => ret tt
  end ;;
  throw error.

(** One resumption of the handler.  [Throw] is the handler's promise
    rejected, which is what BullMQ retries on. *)
Definition resume (order : nat) (from : Resume) : M Next :=
  tryCatch (tryBlock order from) (catchBlock order).

(** The handler up to its first [await]: [job.data.order] is a fresh object
    read back from the job's payload. *)
Definition startHandler (job : Job.t) : M (nat * Next) :=
  order <- alloc (Job.order job) ;;
  next <- resume order Dequeued ;;
  ret (order, next).

(** ** The routes *)

Record Reply : Type := mkReply { statusCode : Z; payload : JsObject }.

(** [POST /api/orders/execute], for a body that passed the schema. *)
Definition postOrdersExecute (body : OrderRequest.t) (uuid : string) : M Reply :=
  createdAt <- newDate ;;
  updatedAt <- newDate ;;
  order <- alloc
    (Order.mk uuid
       (tokenName (OrderRequest.tokenIn body))
       (tokenName (OrderRequest.tokenOut body))
       (OrderRequest.amount body)
       pending None None createdAt updatedAt) ;;
  o <- readOrder order ;;
  orderStore_set ApiRoute (Order.id o) order ;;
  orderQueue_add "execute_order" order
    (mkJobsOptions 3 (mkBackoff "exponential" 1000)) ;;
  ret (mkReply 202
         [("orderId", JsString (Order.id o));
          ("status", JsString "pending");
          ("wsEndpoint", JsString ("ws://localhost:3000/ws/" +:+ Order.id o))]).

(** The body schema of the route. *)
Definition schemaAccepts (body : OrderRequest.t) : bool :=
  Qle_bool 0.000001 (OrderRequest.amount body)
  && Qle_bool (OrderRequest.amount body) 1000000.

(** The first message of [GET /ws/:orderId]. *)
Definition snapshot (o : Order.t) : JsObject :=
  JSON_stringify
    [("status", JsString (statusName (Order.status o)));
     ("orderId", JsString (Order.id o));
     ("txHash", optionalString (Order.txHash o));
     ("error", optionalString (Order.error o))].

(** [GET /ws/:orderId] *)
Definition wsConnect (orderId : string) (socket : nat) : M unit :=
  connections_set orderId socket ;;
  order <- orderStore_get orderId ;;
  match order with
  | Some order =>
      o <- readOrder order ;;
      socket_send WsRoute socket (snapshot o)
  | None => ret tt
  end ;;
  socket_on_close socket orderId.

(** The ['close'] event of a socket: its listeners run. *)
Definition socketClosed (socket : nat) : M unit := fun w =>
  (fold_left
     (fun w' l => if Nat.eqb (fst l) socket then fst (connections_delete (snd l) w') else w')
     (closeListeners w) w,
   Normal tt).

(** ** The running system *)

(** What happens outside the worker handlers. *)
Inductive Event : Type :=
  | Submit (body : OrderRequest.t) (uuid : string)
      (** a [POST /api/orders/execute]; [uuid] is what [randomUUID()] returns *)
  | Connect (orderId : string) (socket : nat)
      (** a client opens [/ws/:orderId] *)
  | Closed (socket : nat)
      (** a socket emits ['close'] *)
  | SocketState (socket : nat) (throws : option Thrown)
      (** a socket starts, or stops, throwing on [send] *)
  | Elapse (ms : N)
      (** time passes *).

Definition setBroken (socket : nat) (throws : option Thrown) (w : World) : World :=
  mkWorld (clock w) (nextRef w) (heap w) (orderStore w) (connections w)
    (match throws with
     | Some e => <[socket := e]> (broken w)
     | None => delete socket (broken w)
     end)
    (closeListeners w) (orderQueue w) (trace w).

Definition advance (ms : N) (w : World) : World :=
  mkWorld (clock w + Z.of_N ms) (nextRef w) (heap w) (orderStore w) (connections w)
    (broken w) (closeListeners w) (orderQueue w) (trace w).

(** The effect of an event on the world.  A body the schema rejects is
    answered 400 and never reaches the route; the socket the WebSocket route
    is called with has just been opened, so it is in a state in which [send]
    returns. *)
Definition happen (e : Event) (w : World) : World :=
  match e with
  | Submit body uuid =>
      if schemaAccepts body then fst (postOrdersExecute body uuid w) else w
  | Connect orderId socket => fst (wsConnect orderId socket (setBroken socket None w))
  | Closed socket => fst (socketClosed socket w)
  | SocketState socket throws => setBroken socket throws w
  | Elapse ms => advance ms w
  end.

(** The world, and where each handler invocation stands. *)
Record System : Type := mkSystem {
  world : World;
  handlers : gmap nat (Completion Next)
}.

Inductive Label : Type :=
  | Outside (e : Event)
  | Deliver (n : nat)
      (** the queue hands a job it holds to the worker, for the first time
          or again *)
  | QuotesArrive (order : nat) (rRaydium rMeteora : Q)
      (** both quotes of a handler resolve; the two draws of [Math.random()] *)
  | SwapDone (order : nat) (rDelay : Q) (uuid : string) (r : Q)
      (** [executeSwap] of a handler resolves *).

Definition quotesOf (o : Order.t) (rRaydium rMeteora : Q) : Q * Q :=
  (MockDexRouter.getRaydiumQuote (Order.tokenIn o) (Order.tokenOut o) (Order.amount o) rRaydium,
   MockDexRouter.getMeteoraQuote (Order.tokenIn o) (Order.tokenOut o) (Order.amount o) rMeteora).

Definition step (l : Label) (s : System) : option System :=
  match l with
  | Outside e => Some (mkSystem (happen e (world s)) (handlers s))
  | Deliver n =>
      match orderQueue (world s) !! n with
      | Some job =>
          match startHandler job (world s) with
          | (w, Normal (order, next)) => Some (mkSystem w (<[order := Normal next]> (handlers s)))
          | (w, Throw e) => Some (mkSystem w (<[nextRef (world s) := Throw e]> (handlers s)))
          end
      | None => None
      end
  | QuotesArrive order rRaydium rMeteora =>
      match handlers s !! order with
      | Some (Normal AwaitQuotes) =>
          let settled := Normal (quotesOf (heap (world s) !!! order) rRaydium rMeteora) in
          match resume order (QuotesSettled settled) (world s) with
          | (w, c) => Some (mkSystem w (<[order := c]> (handlers s)))
          end
      | _ => None
      end
  | SwapDone order rDelay uuid r =>
      match handlers s !! order with
      | Some (Normal (AwaitSwap dex)) =>
          let settled :=
            Normal (MockDexRouter.executeSwap dex (heap (world s) !!! order) rDelay uuid r) in
          match resume order (SwapSettled dex settled) (world s) with
          | (w, c) => Some (mkSystem w (<[order := c]> (handlers s)))
          end
      | _ => None
      end
  end.

Fixpoint run (ls : list Label) (s : System) : option System :=
  match ls with
  | [] => Some s
  | l :: rest =>
      match step l s with
      | Some s' => run rest s'
      | None => None
      end
  end.

Definition boot (now : Z) : System := mkSystem (initial now) ∅.

(** The effects of one actor, in order. *)
Definition effectsOf (a : Actor) (t : list Effect) : list Effect :=
  List.filter (fun e => bool_decide (who e = a)) t.

(** * Vocabulary of the properties

    Worlds, records and events in closed form, the predicates the
    properties are stated with, and the sample runs they are tried on. *)

(** ** Transitions of the handler *)

(** The members of the handler's order after a transition to [status]. *)
Definition moved (status : OrderStatus) (now : Z) (o : Order.t) : Order.t :=
  Order.set_updatedAt now (Order.set_status status o).

(** The members of the handler's order after the [catch] block. *)
Definition failedWith (message : string) (now : Z) (o : Order.t) : Order.t :=
  Order.set_updatedAt now (Order.set_error message (Order.set_status failed o)).

(** The world after [order] has been given the members [o] and put in the
    store by [a]. *)
Definition recorded (a : Actor) (order : nat) (o : Order.t) (w : World) : World :=
  mkWorld (clock w) (nextRef w) (<[order := o]> (heap w))
    (<[Order.id o := order]> (orderStore w))
    (connections w) (broken w) (closeListeners w) (orderQueue w)
    (trace w ++ [mkEffect (clock w) a (StoreSet (Order.id o) o)]).

(** The world after [order.txHash = result.txHash]. *)
Definition hashed (order : nat) (h : string) (w : World) : World :=
  fst (assign order (Order.set_txHash h) w).

(** The text [updateStatus] sends. *)
Definition statusEvent (status : OrderStatus) (orderId : string)
    (additionalData : JsObject) : JsObject :=
  JSON_stringify
    (spread [("status", JsString (statusName status)); ("orderId", JsString orderId)]
       additionalData).

(** The texts of the five events, member by member. *)
Definition routingEvent (orderId : string) : JsObject :=
  [("status", JsString "routing"); ("orderId", JsString orderId)].

Definition buildingEvent (orderId : string) : JsObject :=
  [("status", JsString "building"); ("orderId", JsString orderId)].

Definition submittedEvent (orderId : string) : JsObject :=
  [("status", JsString "submitted"); ("orderId", JsString orderId)].

Definition confirmedEvent (orderId : string) (result : SwapResult.t) : JsObject :=
  [("status", JsString "confirmed"); ("orderId", JsString orderId);
   ("txHash", JsString (SwapResult.txHash result));
   ("executedPrice", JsNumber (SwapResult.executedPrice result))].

Definition failedEvent (orderId message : string) : JsObject :=
  [("status", JsString "failed"); ("orderId", JsString orderId);
   ("error", JsString message)].

(** [connections.get(key)] and, if a socket is bound, its [send]. *)
Definition pushed (a : Actor) (key : string) (text : JsObject) : M unit := fun w =>
  match connections w !! key with
  | Some socket => socket_send a socket text w
  | None => (w, Normal tt)
  end.

(** The world after a push that returned. *)
Definition delivered (a : Actor) (key : string) (text : JsObject) (w : World) : World :=
  match connections w !! key with
  | Some socket => emit a (Send socket text None) w
  | None => w
  end.

(** The effects of one transition: the store write and, when a socket is
    bound, the send that returned. *)
Definition transition (a : Actor) (now : Z) (bound : option nat) (o : Order.t)
    (text : JsObject) : list Effect :=
  mkEffect now a (StoreSet (Order.id o) o) ::
  match bound with
  | Some socket => [mkEffect now a (Send socket text None)]
  | None => []
  end.

(** Resumptions whose awaited promise was fulfilled. *)
Definition settledNormally (from : Resume) : Prop :=
  match from with
  | Dequeued => True
  | QuotesSettled (Normal _) => True
  | SwapSettled _ (Normal _) => True
  | _ => False
  end.

(** ** What a resumption changes *)

(** An effect of the handler of [order] whose record, if it is a store
    write, satisfies [P]. *)
Definition ownEffect (P : Order.t -> Prop) (order : nat) (e : Effect) : Prop :=
  who e = WorkerHandler order /\ forall k o, what e = StoreSet k o -> P o.

(** What a resumption leaves alone: every other object, the registry, the
    queue and the clock; it only adds effects of its own to the trace, and
    the records it puts in the store satisfy [P]. *)
Record Advanced (P : Order.t -> Prop) (order : nat) (w w' : World) : Prop := mkAdvanced {
  same_nextRef : nextRef w' = nextRef w;
  same_clock : clock w' = clock w;
  same_connections : connections w' = connections w;
  same_broken : broken w' = broken w;
  same_listeners : closeListeners w' = closeListeners w;
  same_queue : orderQueue w' = orderQueue w;
  same_heap : forall r, r <> order -> heap w' !! r = heap w !! r;
  same_store : forall k r, orderStore w' !! k = Some r -> r = order \/ orderStore w !! k = Some r;
  more_trace : exists rest, trace w' = trace w ++ rest /\ Forall (ownEffect P order) rest
}.

(** Labels that are not resumptions of the handler [me]. *)
Definition foreign (me : nat) (l : Label) : Prop :=
  match l with
  | QuotesArrive order _ _ | SwapDone order _ _ _ => order <> me
  | _ => True
  end.

(** What the rest of the system leaves of a handler: its object, and a trace
    with no effect of its own added. *)
Record Untouched (me : nat) (w w' : World) : Prop := mkUntouched {
  later_nextRef : nextRef w <= nextRef w';
  kept_object : heap w' !! me = heap w !! me;
  kept_trace : exists rest, trace w' = trace w ++ rest /\
                 effectsOf (WorkerHandler me) rest = []
}.

(** ** The routes in closed form *)

(** The order [POST /api/orders/execute] creates. *)
Definition created (body : OrderRequest.t) (uuid : string) (now : Z) : Order.t :=
  Order.mk uuid (tokenName (OrderRequest.tokenIn body))
    (tokenName (OrderRequest.tokenOut body)) (OrderRequest.amount body)
    pending None None now now.

(** The options it adds the job with. *)
Definition retryPolicy : JobsOptions := mkJobsOptions 3 (mkBackoff "exponential" 1000).

(** Its reply. *)
Definition accepted (uuid : string) : Reply :=
  mkReply 202
    [("orderId", JsString uuid); ("status", JsString "pending");
     ("wsEndpoint", JsString ("ws://localhost:3000/ws/" +:+ uuid))].

(** The world once [GET /ws/:orderId] has put the binding in the registry. *)
Definition bound (orderId : string) (socket : nat) (w : World) : World :=
  fst (connections_set orderId socket w).

(** The world once it has registered the ['close'] listener. *)
Definition listening (socket : nat) (orderId : string) (w : World) : World :=
  fst (socket_on_close socket orderId w).

(** Two worlds that differ in the registry at most. *)
Definition sameButRegistry (w w' : World) : Prop :=
  clock w' = clock w /\ nextRef w' = nextRef w /\ heap w' = heap w /\
  orderStore w' = orderStore w /\ broken w' = broken w /\
  closeListeners w' = closeListeners w /\ orderQueue w' = orderQueue w /\
  trace w' = trace w.

(** An effect of one of the two routes. *)
Definition routeEffect (e : Effect) : Prop := who e = ApiRoute \/ who e = WsRoute.

(** ** Records in the store *)

(** Neither optional member is set. *)
Definition clean (o : Order.t) : Prop := Order.txHash o = None /\ Order.error o = None.

(** As the specification has it: [txHash] only on a confirmed order,
    [error] only on a failed one. *)
Definition recordStrict (o : Order.t) : Prop :=
  (is_Some (Order.txHash o) -> Order.status o = confirmed) /\
  (is_Some (Order.error o) -> Order.status o = failed).

(** As the code has it: [error] only on a failed order, [txHash] only on a
    confirmed order or on a failed one, whose [error] is then set. *)
Definition recordOk (o : Order.t) : Prop :=
  (is_Some (Order.error o) -> Order.status o = failed) /\
  (is_Some (Order.txHash o) ->
     Order.status o = confirmed \/ (Order.status o = failed /\ is_Some (Order.error o))).

(** A handler that stands at one of its [await]s. *)
Definition awaiting (c : Completion Next) : Prop :=
  c = Normal AwaitQuotes \/ exists dex, c = Normal (AwaitSwap dex).

(** A store write whose record satisfies [P]; a [send] is no store write. *)
Definition effectOk (P : Order.t -> Prop) (e : Effect) : Prop :=
  match what e with
  | StoreSet _ o => P o
  | Send _ _ _ => True
  end.

(** The invariant of the running system, for records that are to satisfy
    [P] under a condition [G] on the sockets: every record written and every
    record in the store satisfies [P], objects in the store and objects of
    handlers exist, every job carries an order with neither optional member
    set, and so does the object of every handler that stands at an
    [await]. *)
Record Sound (P : Order.t -> Prop) (G : World -> Prop)
    (w : World) (h : gmap nat (Completion Next)) : Prop := mkSound {
  sound_sockets : G w;
  sound_trace : Forall (effectOk P) (trace w);
  sound_store : forall k r, orderStore w !! k = Some r ->
                  r < nextRef w /\ P (heap w !!! r);
  sound_queue : Forall (fun j => clean (Job.order j)) (orderQueue w);
  sound_handlers : forall r c, h !! r = Some c ->
                     r < nextRef w /\ (awaiting c -> clean (heap w !!! r))
}.

Definition SoundSystem (P : Order.t -> Prop) (G : World -> Prop) (s : System) : Prop :=
  Sound P G (world s) (handlers s).

(** Labels whose event, if they are one, is in [quiet]. *)
Definition quietLabel (quiet : Event -> Prop) (l : Label) : Prop :=
  match l with Outside e => quiet e | _ => True end.

(** Events that leave every socket able to [send]. *)
Definition keepsSockets (e : Event) : Prop :=
  match e with
  | SocketState _ (Some _) => False
  | _ => True
  end.

Definition noSendThrows : Label -> Prop := quietLabel keepsSockets.

(** ** UUIDs *)

Definition isHexDigit (c : Ascii.ascii) : bool :=
  let n := Ascii.nat_of_ascii c in
  (Nat.leb 48 n && Nat.leb n 57) || (Nat.leb 97 n && Nat.leb n 102).

(** Take [n] hexadecimal digits off the front of [s]. *)
Fixpoint hexDigits (n : nat) (s : string) : option string :=
  match n with
  | 0 => Some s
  | S n' =>
      match s with
      | String c rest => if isHexDigit c then hexDigits n' rest else None
      | EmptyString => None
      end
  end.

Definition hyphen (s : string) : option string :=
  match s with
  | String "-"%char rest => Some rest
  | _ => None
  end.

(** Groups of hexadecimal digits of the given sizes, with a hyphen between
    two groups. *)
Fixpoint hexGroups (sizes : list nat) (s : string) : bool :=
  match sizes with
  | [] => false
  | n :: more =>
      match hexDigits n s with
      | Some rest =>
          match more with
          | [] => match rest with EmptyString => true | _ => false end
          | _ :: _ =>
              match hyphen rest with
              | Some rest' => hexGroups more rest'
              | None => false
              end
          end
      | None => false
      end
  end.

(** The shape of the strings [randomUUID()] returns: 8-4-4-4-12. *)
Definition isUUID (s : string) : bool := hexGroups [8; 4; 4; 4; 12] s.

(** ** Sample runs *)

Definition sampleBody : OrderRequest.t := OrderRequest.mk SOL USDC 1.5.

Definition sampleId : string := "0b0e6a52-6a3e-4c53-9d53-3d2f0a7c1b11".

Definition sampleUuid : string := "7c9e6679-7425-40de-944b-e07fc1f90ae7".

Definition sampleOrder : Order.t := created sampleBody sampleId 0.

Definition sampleJob : Job.t := Job.mk "execute_order" sampleOrder retryPolicy.

(** Two things thrown: by a venue, by a socket. *)
Definition insufficientLiquidity : Thrown := ErrorObject "Insufficient liquidity".

Definition notOpen : Thrown := ErrorObject "WebSocket is not open".

(** An order is submitted, a client connects on socket [7], the job is
    delivered, the quotes arrive, 2500 ms pass and the swap is done. *)
Definition plainRun : list Label :=
  [Outside (Submit sampleBody sampleId);
   Outside (Connect sampleId 7);
   Deliver 0;
   QuotesArrive 1 0.25 0.75;
   Outside (Elapse 2500);
   SwapDone 1 0.5 sampleUuid 0.5].

Definition afterPlainRun : System := Eval vm_compute in
  default (boot 0) (run plainRun (boot 0)).

(** The same, but the client's socket starts throwing on [send] while the
    swap executes, so the [send] of the confirmed event throws after
    [order.txHash] has been assigned. *)
Definition lateSocketFault : list Label :=
  [Outside (Submit sampleBody sampleId);
   Outside (Connect sampleId 7);
   Deliver 0;
   QuotesArrive 1 0.25 0.75;
   Outside (SocketState 7 (Some notOpen));
   SwapDone 1 0.5 sampleUuid 0.5].

Definition afterLateSocketFault : System := Eval vm_compute in
  default (boot 0) (run lateSocketFault (boot 0)).

(** [plainRun] with 200 ms before the quotes, cut where the handler is
    resumed: after the client has connected, when the quotes arrive, when
    the swap is done, and at the end. *)
Definition submittedSystem : System := Eval vm_compute in
  default (boot 0)
    (run [Outside (Submit sampleBody sampleId); Outside (Connect sampleId 7)] (boot 0)).

Definition routingSystem : System := Eval vm_compute in
  default (boot 0) (run [Deliver 0; Outside (Elapse 200)] submittedSystem).

Definition submittedToVenue : System := Eval vm_compute in
  default (boot 0)
    (run [QuotesArrive 1 0.25 0.75; Outside (Elapse 2500)] routingSystem).

Definition confirmedSystem : System := Eval vm_compute in
  default (boot 0) (step (SwapDone 1 0.5 sampleUuid 0.5) submittedToVenue).

(** A world in which the order of [sampleId], object [0], is bound to a
    socket, and the same with a socket whose [send] throws. *)
Definition openSocketWorld : World :=
  bound sampleId 7 (fst (alloc sampleOrder (initial 0))).

Definition brokenSocketWorld : World := setBroken 7 (Some notOpen) openSocketWorld.

(** * The router in binary64

    The numbers of the source are binary64 doubles: every literal and every
    result of [+], [-] and [*] is rounded to 53 significant bits, to the
    nearest double and to the one with an even significand when two are
    equally near.  [Binary64.round] is that rounding on the rationals, with
    no bound on the exponent: the values of the router are far from the
    overflow and the subnormal range.  [MockDexRouter64] is the router with
    each operation rounded; a draw of [Math.random()] is a double. *)

Module Binary64.

(** The nearest integer, the even one of the two when [x] is half way. *)
Definition nearestEven (x : Q) : Z :=
  let f := Qfloor x in
  match (x - inject_Z f ?= 1 # 2)%Q with
  | Lt => f
  | Gt => (f + 1)%Z
  | Eq => if Z.even f then f else (f + 1)%Z
  end.

(** The exponent [e] of a positive [x]: [2 ^ e <= x < 2 ^ (e + 1)]. *)
Definition exponent (x : Q) : Z :=
  if Qle_bool 1 x then Z.log2 (Qfloor x) else (- Z.log2_up (Qceiling (/ x)))%Z.

(** A positive [x] rounded to 53 significant bits. *)
Definition roundPositive (x : Q) : Q :=
  let e := exponent x in
  (inject_Z (nearestEven (x * 2 ^ (52 - e))) * 2 ^ (e - 52))%Q.

Definition round (x : Q) : Q :=
  match (x ?= 0)%Q with
  | Eq => 0%Q
  | Gt => roundPositive x
  | Lt => (- roundPositive (- x))%Q
  end.

End Binary64.

Module MockDexRouter64.

(** [basePrice * (1 + (Math.random() * 0.06 - 0.03))] for the draw [r]. *)
Definition getRaydiumQuote (tokenIn tokenOut : string) (amount : Q) (r : Q) : Q :=
  let basePrice := 100%Q in
  Binary64.round
    (basePrice *
     Binary64.round
       (1 + Binary64.round
              (Binary64.round (r * Binary64.round 0.06) - Binary64.round 0.03)))%Q.

Definition getMeteoraQuote (tokenIn tokenOut : string) (amount : Q) (r : Q) : Q :=
  let basePrice := 100%Q in
  Binary64.round
    (basePrice *
     Binary64.round
       (1 + Binary64.round
              (Binary64.round (r * Binary64.round 0.06) - Binary64.round 0.03)))%Q.

(** [2000 + Math.random() * 1000], the delay [executeSwap] waits for, in
    milliseconds, for the draw [rDelay]. *)
Definition swapDelay (rDelay : Q) : Q :=
  Binary64.round (2000 + Binary64.round (rDelay * 1000))%Q.

End MockDexRouter64.

(** The two quotes the handler awaits, as the doubles they are. *)
Definition quotesOf64 (o : Order.t) (rRaydium rMeteora : Q) : Q * Q :=
  (MockDexRouter64.getRaydiumQuote (Order.tokenIn o) (Order.tokenOut o) (Order.amount o)
     rRaydium,
   MockDexRouter64.getMeteoraQuote (Order.tokenIn o) (Order.tokenOut o) (Order.amount o)
     rMeteora).

(** The largest double below 1, and the double next above one half. *)
Definition largestDraw : Q := 1 - (1 # 9007199254740992).

Definition aboveHalf : Q := (1 # 2) + (1 # 4503599627370496).

(** * Shutdown, and the server of the tests

    [cleanup] of [src/index.ts], then, from the tests, the hooks of
    [setup.ts] that run it and the server the API tests build, whose
    submission route hands the order to [mockOrderProcessing] instead of
    the queue.

    - The worker, the queue, the Redis client, the server and the sockets
      are the environment: what each of their [close], [disconnect] and
      [quit] does, return or throw, is an input of [cleanup].
    - The loop of [cleanup] visits the bindings in the order of the map of
      the model, which need not be the order of insertion; nothing stated
      below depends on the order.
    - The server of the tests has a store and a registry of its own: they
      are the store and the registry of the world its functions run in.
    - [console] calls and the waits that end [cleanup] and [afterAll] are
      left out. *)

(** ** [cleanup] *)

(** What the resources do when [cleanup] calls them: each call returns or
    throws.  [redisQuit] is the outcome of the race between [redis.quit()]
    and the timer of 1000 ms, [redisEnded] whether [redis.status] is ['end']
    after it. *)
Record Resources : Type := mkResources {
  socketClose : nat -> Completion unit;
  workerClose : Completion unit;
  workerDisconnect : Completion unit;
  queueClose : Completion unit;
  queueDisconnect : Completion unit;
  redisQuit : Completion unit;
  redisEnded : bool;
  redisDisconnect : Completion unit;
  fastifyClose : Completion unit
}.

(** A call of a method of a resource. *)
Definition external {A} (outcome : Completion A) : M A := fun w => (w, outcome).

(** [connections.entries()].  The entries come in the order of the map of
    the model, not in insertion order. *)
Definition connections_entries : M (list (string * nat)) := fun w =>
  (w, Normal (map_to_list (connections w))).

(** The loop over the registry; [errors] is the array of that name. *)
Fixpoint closeEach (r : Resources) (entries : list (string * nat))
    (errors : list (string * Thrown)) : M (list (string * Thrown)) :=
  match entries with
  | [] => ret errors
  | (orderId, connection) :: rest =>
      errors <- tryCatch
        (external (socketClose r connection) ;;
         connections_delete orderId ;;
         ret errors)
        (fun err => ret (errors ++ [("WebSocket", err)])) ;;
      closeEach r rest errors
  end.

(** [cleanup]; the result is the array [errors] as it is when it is
    reported. *)
Definition cleanup (r : Resources) : M (list (string * Thrown)) :=
  entries <- connections_entries ;;
  errors <- closeEach r entries [] ;;
  errors <- tryCatch
    (external (workerClose r) ;;
     external (workerDisconnect r) ;;
     ret errors)
    (fun err => ret (errors ++ [("Worker", err)])) ;;
  errors <- tryCatch
    (external (queueClose r) ;;
     external (queueDisconnect r) ;;
     ret errors)
    (fun err => ret (errors ++ [("Queue", err)])) ;;
  errors <- tryCatch
    (external (redisQuit r) ;;
     (if redisEnded r then ret tt else external (redisDisconnect r)) ;;
     ret errors)
    (fun err => ret (errors ++ [("Redis", err)])) ;;
  errors <- tryCatch
    (external (fastifyClose r) ;;
     ret errors)
    (fun err => ret (errors ++ [("Fastify", err)])) ;;
  ret errors.

(** ** The hooks of the test setup *)

(** [registerCleanup(fn)] *)
Definition registerCleanup (fn : M unit) (cleanupFunctions : list (M unit)) :
    list (M unit) :=
  cleanupFunctions ++ [fn].

(** The loop of [afterAll] over [cleanupFunctions]; [errors] is the array of
    that name. *)
Fixpoint runCleanupFunctions (fns : list (M unit)) (errors : list Thrown) :
    M (list Thrown) :=
  match fns with
  | [] => ret errors
  | fn :: rest =>
      errors <- tryCatch
        (fn ;;
         ret errors)
        (fun err => ret (errors ++ [err])) ;;
      runCleanupFunctions rest errors
  end.

(** [afterAll]: the result is the array [errors] and the new value of
    [cleanupFunctions]. *)
Definition afterAll (cleanupFunctions : list (M unit)) :
    M (list Thrown * list (M unit)) :=
  errors <- runCleanupFunctions cleanupFunctions [] ;;
  ret (errors, []).

(** [cleanupFunctions] once the [beforeAll] hooks have run: the hook of the
    setup pushes [cleanup], the hook of the API tests registers it again.
    [first] and [second] are what the resources do in the two calls. *)
Definition registeredCleanups (first second : Resources) : list (M unit) :=
  registerCleanup (cleanup second ;; ret tt)
    (registerCleanup (cleanup first ;; ret tt) []).

(** ** The server of the tests *)

(** [Math.random() < 0.5 ? 'raydium' : 'meteora'], for the draw [r]: the
    test [r < 0.5] fails exactly when [0.5 <= r]. *)
Definition mockDex (r : Q) : string :=
  if Qle_bool 0.5 r then "meteora" else "raydium".

(** One turn of the loop of [mockOrderProcessing], up to its [await]:
    [isOpen] tells the sockets whose [readyState] is [OPEN], [uuid] is what
    [randomUUID()] returns in the turn of 'confirmed'. *)
Definition mockTurn (order : nat) (dex uuid : string) (isOpen : nat -> bool)
    (status : OrderStatus) : M unit :=
  assign order (Order.set_status status) ;;
  now <- newDate ;;
  assign order (Order.set_updatedAt now) ;;
  o <- readOrder order ;;
  orderStore_set (WorkerHandler order) (Order.id o) order ;;
  (if bool_decide (status = confirmed)
   then assign order (Order.set_txHash (dex +:+ "_mock_tx_" +:+ uuid))
   else ret tt) ;;
  o <- readOrder order ;;
  connection <- connections_get (Order.id o) ;;
  match connection with
  | Some socket =>
      if isOpen socket then
        socket_send (WorkerHandler order) socket
          (JSON_stringify
             [("status", JsString (statusName status));
              ("orderId", JsString (Order.id o));
              ("txHash", optionalString (Order.txHash o));
              ("executedPrice",
               if bool_decide (status = confirmed) then JsNumber 100 else JsUndefined)])
      else ret tt
  | None => ret tt
  end.

(** [POST /api/orders/execute] of the tests, for a body that passed the
    schema.  The call of [mockOrderProcessing] runs the first turn of its
    loop before it returns its promise; what that turn throws rejects the
    promise, which is logged; that turn does not call [randomUUID()].
    [port] is the port the server listens on. *)
Definition testPostOrdersExecute (body : OrderRequest.t) (uuid : string) (r : Q)
    (isOpen : nat -> bool) (port : string) : M Reply :=
  createdAt <- newDate ;;
  updatedAt <- newDate ;;
  order <- alloc
    (Order.mk uuid
       (tokenName (OrderRequest.tokenIn body))
       (tokenName (OrderRequest.tokenOut body))
       (OrderRequest.amount body)
       pending None None createdAt updatedAt) ;;
  o <- readOrder order ;;
  orderStore_set ApiRoute (Order.id o) order ;;
  tryCatch (mockTurn order (mockDex r) "" isOpen routing) (fun _ => ret tt) ;;
  o <- readOrder order ;;
  ret (mkReply 202
         [("orderId", JsString (Order.id o));
          ("status", JsString "pending");
          ("wsEndpoint", JsString ("ws://localhost:" +:+ port +:+ "/ws/" +:+ Order.id o))]).

(** * Vocabulary of the further properties *)

(** ** What a handler may touch *)

(** The members no handler assigns. *)
Definition sameRequest (o o' : Order.t) : Prop :=
  Order.id o' = Order.id o /\
  Order.tokenIn o' = Order.tokenIn o /\
  Order.tokenOut o' = Order.tokenOut o /\
  Order.amount o' = Order.amount o /\
  Order.createdAt o' = Order.createdAt o.

(** An effect of the handler of [order], whose object had the members [o0]
    and whose id was bound to [socket] when it was resumed at [now]: a store
    write under the order's own id, of a record that differs from [o0] in
    status, [txHash], [error] and [updatedAt] at most and is stamped [now],
    or a [send] on the socket bound to that id. *)
Definition confinedEffect (order : nat) (o0 : Order.t) (socket : option nat) (now : Z)
    (e : Effect) : Prop :=
  who e = WorkerHandler order /\ when e = now /\
  match what e with
  | StoreSet key o => key = Order.id o0 /\ sameRequest o0 o /\ Order.updatedAt o = now
  | Send s _ _ => socket = Some s
  end.

Record Confined (order : nat) (w w' : World) : Prop := mkConfined {
  confined_clock : clock w' = clock w;
  confined_connections : connections w' = connections w;
  confined_object : sameRequest (heap w !!! order) (heap w' !!! order);
  confined_store : forall k, k <> Order.id (heap w !!! order) ->
                     orderStore w' !! k = orderStore w !! k;
  confined_trace : exists rest, trace w' = trace w ++ rest /\
                     Forall (confinedEffect order (heap w !!! order)
                               (connections w !! Order.id (heap w !!! order)) (clock w)) rest
}.

(** ** The statuses a handler writes *)

Definition lifecycle : list OrderStatus := [routing; building; submitted; confirmed].

Definition writtenStatus (e : Effect) : option OrderStatus :=
  match what e with
  | StoreSet _ o => Some (Order.status o)
  | Send _ _ _ => None
  end.

(** The statuses of the records the handler of [order] has put in the
    store, in order. *)
Definition statusesWritten (order : nat) (t : list Effect) : list OrderStatus :=
  omap writtenStatus (effectsOf (WorkerHandler order) t).

(** What a handler has written by the time it stands at [c]; [None] is a
    reference that is no handler's. *)
Definition writtenAt (c : option (Completion Next)) (written : list OrderStatus) : Prop :=
  match c with
  | None => written = []
  | Some (Normal AwaitQuotes) => written = [routing]
  | Some (Normal (AwaitSwap _)) => written = [routing; building; submitted]
  | Some (Normal (Returned _ _)) => written = lifecycle
  | Some (Throw _) => exists n, 0 < n /\ written = take n lifecycle ++ [failed]
  end.

(** ** Who is told what *)

(** A [send] whose text names, as [orderId], an order id for which the
    socket has connected. *)
Definition addressed (w : World) (e : Effect) : Prop :=
  match what e with
  | Send socket text _ =>
      exists k, property "orderId" text = Some (JsString k) /\
                (socket, k) ∈ closeListeners w
  | StoreSet _ _ => True
  end.

(** Every socket in the registry has connected for the id it is bound to. *)
Definition registryListens (w : World) : Prop :=
  forall k socket, connections w !! k = Some socket -> (socket, k) ∈ closeListeners w.

(** ** Time stamps *)

(** A store write whose record is under its own id and carries the time of
    the write as [updatedAt]. *)
Definition stampedWrite (e : Effect) : Prop :=
  match what e with
  | StoreSet key o => Order.id o = key /\ Order.updatedAt o = when e
  | Send _ _ _ => True
  end.

(** The time stamps never decrease along the trace. *)
Definition chronological (t : list Effect) : Prop :=
  forall i j ei ej, i <= j -> t !! i = Some ei -> t !! j = Some ej ->
    (when ei <= when ej)%Z.

(** ** The store and the queue *)

(** Every entry of the store is an existing object whose id is its key. *)
Definition storeKeyed (w : World) : Prop :=
  forall k r, orderStore w !! k = Some r ->
    r < nextRef w /\ Order.id (heap w !!! r) = k.

(** Submissions the schema lets through. *)
Definition isAccepted (l : Label) : bool :=
  match l with
  | Outside (Submit body _) => schemaAccepts body
  | _ => false
  end.

(** The token symbols of the schema, and an order whose members are as the
    schema has them. *)
Definition symbols : list string := ["SOL"; "USDC"; "USDT"; "ETH"].

Definition validRequest (o : Order.t) : Prop :=
  (0.000001 <= Order.amount o)%Q /\ (Order.amount o <= 1000000)%Q /\
  Order.tokenIn o ∈ symbols /\ Order.tokenOut o ∈ symbols.

(** A job as the submission route adds it. *)
Definition freshJob (j : Job.t) : Prop :=
  Job.name j = "execute_order" /\ Job.opts j = retryPolicy /\
  Order.status (Job.order j) = pending /\ clean (Job.order j).

(** ** What [cleanup] reports *)

(** What a [try] block of calls throws: the first fault, if there is one. *)
Fixpoint firstThrow (calls : list (Completion unit)) : list Thrown :=
  match calls with
  | [] => []
  | Normal _ :: rest => firstThrow rest
  | Throw e :: _ => [e]
  end.

(** The entry a stage adds to [errors]. *)
Definition stageErrors (tag : string) (calls : list (Completion unit)) :
    list (string * Thrown) :=
  List.map (fun e => (tag, e)) (firstThrow calls).

(** The entries the loop over the registry adds. *)
Definition socketErrors (r : Resources) (entries : list (string * nat)) :
    list (string * Thrown) :=
  omap (fun entry => match socketClose r (snd entry) with
                     | Throw e => Some ("WebSocket", e)
                     | Normal _ => None
                     end) entries.

(** ** Sample runs, continued *)

(** An order has been submitted and nothing else has happened. *)
Definition acceptedSystem : System := Eval vm_compute in
  default (boot 0) (step (Outside (Submit sampleBody sampleId)) (boot 0)).

(** The world of [acceptedSystem], in which the socket [9] throws on
    [send]. *)
Definition unopenedSocketWorld : World :=
  setBroken 9 (Some notOpen) (world acceptedSystem).

(** [lateSocketFault], after which the socket closes: the order is failed in
    the store and nothing is bound to its id. *)
Definition afterFaultAndClose : System := Eval vm_compute in
  default (boot 0) (run (lateSocketFault ++ [Outside (Closed 7)]) (boot 0)).

(** A client connects on socket [7], connects again on socket [8], and the
    first socket closes. *)
Definition reconnected : System := Eval vm_compute in
  default (boot 0)
    (run [Outside (Submit sampleBody sampleId); Outside (Connect sampleId 7);
          Outside (Connect sampleId 8)] (boot 0)).

(** Resources of which the worker and the server fail to close, and the
    sockets [8] and above fail to close. *)
Definition closeFailed : Thrown := ErrorObject "Connection is closed.".

Definition failingResources : Resources :=
  mkResources (fun socket => if Nat.leb 8 socket then Throw closeFailed else Normal tt)
    (Throw closeFailed) (Normal tt) (Normal tt) (Normal tt) (Normal tt) false (Normal tt)
    (Throw (OtherValue "timeout")).

Definition healthyResources : Resources :=
  mkResources (fun _ => Normal tt)
    (Normal tt) (Normal tt) (Normal tt) (Normal tt) (Normal tt) true (Normal tt) (Normal tt).

(** * Properties *)

(** ** The quote simulator *)

Section QuoteSimulator.

Local Open Scope Q_scope.

Lemma variation_band (r : Q) :
  unitDraw r -> -0.03 <= r * 0.06 - 0.03 /\ r * 0.06 - 0.03 <= 0.03.
Proof. intros [Hlo Hhi]. split; lra. Qed.

Lemma price_band (u : Q) :
  -0.03 <= u -> u <= 0.03 -> 97 <= 100 * (1 + u) /\ 100 * (1 + u) <= 103.
Proof. intros Hlo Hhi. split; lra. Qed.

(** C6. For a draw [r] of [Math.random()], each of [getRaydiumQuote],
    [getMeteoraQuote] and the [executedPrice] of [executeSwap] is
    [100 * (1 + u)] for a [u] in [-0.03, 0.03], hence lies in [97, 103];
    the executed price is a function of the draw of [executeSwap] alone,
    whatever venue the quotes selected and whatever the order. *)
Theorem simulated_prices_in_band
    (tokenIn tokenOut dex uuid : string) (amount rDelay r : Q) (order : Order.t) :
  unitDraw r ->
  exists u : Q,
    (-0.03 <= u /\ u <= 0.03) /\
    (MockDexRouter.getRaydiumQuote tokenIn tokenOut amount r = 100 * (1 + u) /\
     97 <= MockDexRouter.getRaydiumQuote tokenIn tokenOut amount r <= 103) /\
    (MockDexRouter.getMeteoraQuote tokenIn tokenOut amount r = 100 * (1 + u) /\
     97 <= MockDexRouter.getMeteoraQuote tokenIn tokenOut amount r <= 103) /\
    (SwapResult.executedPrice (MockDexRouter.executeSwap dex order rDelay uuid r)
       = 100 * (1 + u) /\
     97 <= SwapResult.executedPrice (MockDexRouter.executeSwap dex order rDelay uuid r)
        <= 103) /\
    (forall (raydiumPrice meteoraPrice : Q) (order' : Order.t) (rDelay' : Q) (uuid' : string),
       SwapResult.executedPrice
         (MockDexRouter.executeSwap (bestDex raydiumPrice meteoraPrice) order' rDelay' uuid' r)
       = 100 * (1 + u)).
Proof.
  intros Hr. exists (r * 0.06 - 0.03).
  destruct (variation_band r Hr) as [Hlo Hhi].
  pose proof (price_band _ Hlo Hhi) as Hband.
  unfold MockDexRouter.getRaydiumQuote, MockDexRouter.getMeteoraQuote,
    MockDexRouter.executeSwap; cbn [SwapResult.executedPrice].
  repeat split; try reflexivity; tauto.
Qed.

Lemma simulated_prices_in_band_at_half :
  unitDraw 0.5 /\
  exists u : Q,
    (-0.03 <= u /\ u <= 0.03) /\
    (MockDexRouter.getRaydiumQuote "SOL" "USDC" 1.5 0.5 = 100 * (1 + u) /\
     97 <= MockDexRouter.getRaydiumQuote "SOL" "USDC" 1.5 0.5 <= 103) /\
    (MockDexRouter.getMeteoraQuote "SOL" "USDC" 1.5 0.5 = 100 * (1 + u) /\
     97 <= MockDexRouter.getMeteoraQuote "SOL" "USDC" 1.5 0.5 <= 103) /\
    (SwapResult.executedPrice (MockDexRouter.executeSwap "raydium" inhabitant 0 "x" 0.5)
       = 100 * (1 + u) /\
     97 <= SwapResult.executedPrice (MockDexRouter.executeSwap "raydium" inhabitant 0 "x" 0.5)
        <= 103) /\
    (forall (raydiumPrice meteoraPrice : Q) (order' : Order.t) (rDelay' : Q) (uuid' : string),
       SwapResult.executedPrice
         (MockDexRouter.executeSwap (bestDex raydiumPrice meteoraPrice) order' rDelay' uuid' 0.5)
       = 100 * (1 + u)).
Proof.
  split.
  - unfold unitDraw. split; lra.
  - apply (simulated_prices_in_band "SOL" "USDC" "raydium" "x" 1.5 0 0.5 inhabitant).
    unfold unitDraw. split; lra.
Defined.

(** The executed price need not be either quote. *)
Example executed_price_differs_from_quotes :
  let quotes := quotesOf inhabitant 0 0.5 in
  let result :=
    MockDexRouter.executeSwap (bestDex (fst quotes) (snd quotes)) inhabitant 0 "x" 0.25 in
  ~ SwapResult.executedPrice result == fst quotes /\
  ~ SwapResult.executedPrice result == snd quotes.
Proof. split; intros H; vm_compute in H; discriminate. Qed.

End QuoteSimulator.

(** ** One status transition *)

Lemma updateStatus_unfold (order : nat) (status : OrderStatus)
    (additionalData : JsObject) (w : World) :
  updateStatus order status additionalData w =
    let o := moved status (clock w) (heap w !!! order) in
    pushed (WorkerHandler order) (Order.id o)
      (statusEvent status (Order.id o) additionalData)
      (recorded (WorkerHandler order) order o w).
Proof.
  unfold updateStatus, bind, assign, newDate, readOrder, orderStore_set,
    connections_get, pushed, recorded, emit, moved, statusEvent, ret.
  cbn. rewrite !lookup_total_insert_eq, !insert_insert_eq. cbn.
  destruct (connections w !! _); reflexivity.
Qed.

Lemma catchBlock_unfold (order : nat) (error : Thrown) (w : World) :
  catchBlock order error w =
    let o := failedWith (messageOf error) (clock w) (heap w !!! order) in
    match pushed (WorkerHandler order) (Order.id o)
            (failedEvent (Order.id o) (messageOf error))
            (recorded (WorkerHandler order) order o w) with
    | (w', Normal _) => (w', Throw error)
    | (w', Throw e) => (w', Throw e)
    end.
Proof.
  unfold catchBlock, bind, assign, newDate, readOrder, orderStore_set,
    connections_get, pushed, recorded, emit, failedWith, failedEvent, throw, ret.
  cbn. rewrite !lookup_total_insert_eq, !insert_insert_eq. cbn.
  destruct (connections w !! _) as [socket|]; [|reflexivity].
  unfold socket_send; cbn. destruct (broken w !! socket); reflexivity.
Qed.

Lemma pushed_normal (a : Actor) (key : string) (text : JsObject) (w w' : World) (u : unit) :
  pushed a key text w = (w', Normal u) ->
  w' = delivered a key text w /\
  (forall socket, connections w !! key = Some socket -> broken w !! socket = None).
Proof.
  unfold pushed, delivered, socket_send.
  destruct (connections w !! key) as [socket|].
  - destruct (broken w !! socket) eqn:Hb; intros [= <-]; split; [done|].
    intros ? [= <-]; done.
  - intros [= <-]; split; [done|]. intros ? [=].
Qed.

Lemma pushed_throw (a : Actor) (key : string) (text : JsObject) (w w' : World) (e : Thrown) :
  pushed a key text w = (w', Throw e) ->
  exists socket,
    connections w !! key = Some socket /\ broken w !! socket = Some e /\
    w' = emit a (Send socket text (Some e)) w.
Proof.
  unfold pushed, socket_send.
  destruct (connections w !! key) as [socket|]; [|intros [=]].
  destruct (broken w !! socket) eqn:Hb; intros [= <- <-]. eauto.
Qed.

Lemma pushed_unbound (a : Actor) (key : string) (text : JsObject) (w : World) :
  connections w !! key = None -> pushed a key text w = (w, Normal tt).
Proof. unfold pushed. intros ->. reflexivity. Qed.

Lemma pushed_healthy (a : Actor) (key : string) (text : JsObject) (w : World) (socket : nat) :
  connections w !! key = Some socket -> broken w !! socket = None ->
  pushed a key text w = (emit a (Send socket text None) w, Normal tt).
Proof. unfold pushed, socket_send. intros -> ->. reflexivity. Qed.

Lemma pushed_broken (a : Actor) (key : string) (text : JsObject) (w : World)
    (socket : nat) (e : Thrown) :
  connections w !! key = Some socket -> broken w !! socket = Some e ->
  pushed a key text w = (emit a (Send socket text (Some e)) w, Throw e).
Proof. unfold pushed, socket_send. intros -> ->. reflexivity. Qed.

Lemma trace_transition (a : Actor) (order : nat) (o : Order.t) (text : JsObject) (w : World) :
  trace (delivered a (Order.id o) text (recorded a order o w)) =
    trace w ++ transition a (clock w) (connections w !! Order.id o) o text.
Proof.
  unfold delivered, recorded, transition; cbn.
  destruct (connections w !! Order.id o); cbn; [|reflexivity].
  rewrite <- app_assoc. reflexivity.
Qed.

(** A resumption that does not throw ran its [try] block to the end. *)
Lemma resume_normal (order : nat) (from : Resume) (w w' : World) (next : Next) :
  resume order from w = (w', Normal next) -> tryBlock order from w = (w', Normal next).
Proof.
  unfold resume, tryCatch. destruct (tryBlock order from w) as [w1 [n1|e]]; [done|].
  rewrite catchBlock_unfold. cbn zeta.
  destruct (pushed _ _ _ _) as [w2 [u|e']]; intros [=].
Qed.

Lemma resume_throw (order : nat) (from : Resume) (w w1 : World) (e : Thrown) :
  tryBlock order from w = (w1, Throw e) -> resume order from w = catchBlock order e w1.
Proof. unfold resume, tryCatch. intros ->. reflexivity. Qed.

Lemma tryBlock_dequeued (order : nat) (w : World) :
  tryBlock order Dequeued w =
    match updateStatus order routing [] w with
    | (w', Normal _) => (w', Normal AwaitQuotes)
    | (w', Throw e) => (w', Throw e)
    end.
Proof. reflexivity. Qed.

Lemma tryBlock_quotes (order : nat) (settled : Completion (Q * Q)) (w : World) :
  tryBlock order (QuotesSettled settled) w =
    match settled with
    | Normal prices =>
        match updateStatus order building [] w with
        | (w1, Normal _) =>
            match updateStatus order submitted [] w1 with
            | (w2, Normal _) => (w2, Normal (AwaitSwap (bestDex (fst prices) (snd prices))))
            | (w2, Throw e) => (w2, Throw e)
            end
        | (w1, Throw e) => (w1, Throw e)
        end
    | Throw e => (w, Throw e)
    end.
Proof.
  destruct settled as [prices|e]; [|reflexivity].
  unfold tryBlock, bind, awaitSettled, ret.
  destruct (updateStatus order building [] w) as [w1 [u|e]]; [|reflexivity].
  destruct (updateStatus order submitted [] w1) as [w2 [u'|e]]; reflexivity.
Qed.

Lemma tryBlock_swap (order : nat) (dex : string) (settled : Completion SwapResult.t)
    (w : World) :
  tryBlock order (SwapSettled dex settled) w =
    match settled with
    | Normal result =>
        match updateStatus order confirmed
                [("txHash", JsString (SwapResult.txHash result));
                 ("executedPrice", JsNumber (SwapResult.executedPrice result))]
                (hashed order (SwapResult.txHash result) w) with
        | (w1, Normal _) => (w1, Normal (Returned true order))
        | (w1, Throw e) => (w1, Throw e)
        end
    | Throw e => (w, Throw e)
    end.
Proof.
  destruct settled as [result|e]; [|reflexivity].
  unfold tryBlock, bind, awaitSettled, ret, hashed, assign.
  cbv beta iota zeta delta [fst].
  match goal with |- context [updateStatus ?o ?s ?x ?w0] =>
    destruct (updateStatus o s x w0) as [w1 [u|e]]; reflexivity
  end.
Qed.

(** Case analysis of a resumption: every [pushed] is split into its returning
    and its throwing case, and the resulting worlds are made explicit. *)
Ltac split_push :=
  match goal with
  | |- context [pushed ?a ?k ?t ?w] =>
      let w' := fresh "w'" in
      let c := fresh "c" in
      let Hp := fresh "Hpush" in
      destruct (pushed a k t w) as [w' [[]|c]] eqn:Hp;
      [ apply pushed_normal in Hp; destruct Hp as [-> Hp]
      | apply pushed_throw in Hp; destruct Hp as (? & ? & ? & ->) ]
  end.

Ltac resume_paths :=
  unfold resume, tryCatch;
  rewrite ?tryBlock_dequeued, ?tryBlock_quotes, ?tryBlock_swap;
  repeat first
    [ progress rewrite ?updateStatus_unfold, ?catchBlock_unfold
    | progress cbn zeta
    | split_push ].

(** Reading the fields of the worlds those cases produce. *)
Lemma delivered_fields (a : Actor) (key : string) (text : JsObject) (w : World) :
  nextRef (delivered a key text w) = nextRef w /\
  clock (delivered a key text w) = clock w /\
  heap (delivered a key text w) = heap w /\
  orderStore (delivered a key text w) = orderStore w /\
  connections (delivered a key text w) = connections w /\
  broken (delivered a key text w) = broken w /\
  closeListeners (delivered a key text w) = closeListeners w /\
  orderQueue (delivered a key text w) = orderQueue w.
Proof. unfold delivered. destruct (connections w !! key); cbn; tauto. Qed.

Lemma nextRef_delivered a key text w : nextRef (delivered a key text w) = nextRef w.
Proof. apply delivered_fields. Qed.
Lemma clock_delivered a key text w : clock (delivered a key text w) = clock w.
Proof. apply delivered_fields. Qed.
Lemma heap_delivered a key text w : heap (delivered a key text w) = heap w.
Proof. apply delivered_fields. Qed.
Lemma orderStore_delivered a key text w : orderStore (delivered a key text w) = orderStore w.
Proof. apply delivered_fields. Qed.
Lemma connections_delivered a key text w : connections (delivered a key text w) = connections w.
Proof. apply delivered_fields. Qed.
Lemma broken_delivered a key text w : broken (delivered a key text w) = broken w.
Proof. apply delivered_fields. Qed.
Lemma closeListeners_delivered a key text w :
  closeListeners (delivered a key text w) = closeListeners w.
Proof. apply delivered_fields. Qed.
Lemma orderQueue_delivered a key text w : orderQueue (delivered a key text w) = orderQueue w.
Proof. apply delivered_fields. Qed.

Lemma trace_delivered a key text w :
  trace (delivered a key text w) =
    trace w ++ match connections w !! key with
               | Some socket => [mkEffect (clock w) a (Send socket text None)]
               | None => []
               end.
Proof.
  unfold delivered. destruct (connections w !! key); cbn; [done|].
  by rewrite app_nil_r.
Qed.

Ltac read_world :=
  repeat first
    [ progress rewrite ?nextRef_delivered, ?clock_delivered, ?heap_delivered,
        ?orderStore_delivered, ?connections_delivered, ?broken_delivered,
        ?closeListeners_delivered, ?orderQueue_delivered
    | progress cbn [nextRef clock heap orderStore connections broken closeListeners
                    orderQueue recorded emit hashed assign fst]
    | progress rewrite ?lookup_total_insert_eq ].

Section Advanced.
Context (P : Order.t -> Prop) (order : nat).

Lemma advanced_refl (w : World) : Advanced P order w w.
Proof.
  constructor; try done; [by right|].
  exists []. by rewrite app_nil_r.
Qed.

Lemma advanced_recorded (w w1 : World) (o : Order.t) :
  Advanced P order w w1 -> P o ->
  Advanced P order w (recorded (WorkerHandler order) order o w1).
Proof.
  intros [? ? ? ? ? ? Hheap Hstore (rest & Ht & Hrest)] Ho.
  constructor; cbn; try done.
  - intros r Hr. rewrite lookup_insert_ne by done. by apply Hheap.
  - intros k r. destruct (decide (Order.id o = k)) as [->|Hk].
    + rewrite lookup_insert_eq. intros [= <-]. by left.
    + rewrite lookup_insert_ne by done. apply Hstore.
  - exists (rest ++ [mkEffect (clock w1) (WorkerHandler order) (StoreSet (Order.id o) o)]).
    split; [by rewrite Ht, app_assoc|].
    apply Forall_app; split; [done|].
    constructor; [|done]. split; [done|]. cbn. by intros ? ? [= _ <-].
Qed.

Lemma advanced_emit (w w1 : World) (socket : nat) (text : JsObject)
    (raised : option Thrown) :
  Advanced P order w w1 ->
  Advanced P order w (emit (WorkerHandler order) (Send socket text raised) w1).
Proof.
  intros [? ? ? ? ? ? Hheap Hstore (rest & Ht & Hrest)].
  constructor; cbn; try done.
  exists (rest ++ [mkEffect (clock w1) (WorkerHandler order) (Send socket text raised)]).
  split; [by rewrite Ht, app_assoc|].
  apply Forall_app; split; [done|].
  constructor; [|done]. split; [done|]. cbn. by intros ? ? [=].
Qed.

Lemma advanced_delivered (w w1 : World) (key : string) (text : JsObject) :
  Advanced P order w w1 ->
  Advanced P order w (delivered (WorkerHandler order) key text w1).
Proof.
  intros H. unfold delivered. destruct (connections w1 !! key); [|done].
  by apply advanced_emit.
Qed.

Lemma advanced_hashed (w w1 : World) (h : string) :
  Advanced P order w w1 -> Advanced P order w (hashed order h w1).
Proof.
  intros [? ? ? ? ? ? Hheap Hstore Htrace].
  constructor; cbn; try done.
  intros r Hr. rewrite lookup_insert_ne by done. by apply Hheap.
Qed.

End Advanced.

Ltac advance :=
  repeat first
    [ apply advanced_delivered
    | apply advanced_emit
    | apply advanced_hashed
    | apply advanced_recorded ];
  [ apply advanced_refl | .. ].

Lemma resume_touches_only (order : nat) (from : Resume) (w w' : World)
    (c : Completion Next) :
  resume order from w = (w', c) -> Advanced (fun _ => True) order w w'.
Proof.
  destruct from as [|[prices|e]|dex [result|e]]; resume_paths; intros [= <- <-];
    advance; exact I.
Qed.

(** ** The routes, in closed form *)

Lemma postOrdersExecute_unfold (body : OrderRequest.t) (uuid : string) (w : World) :
  postOrdersExecute body uuid w =
    let o := created body uuid (clock w) in
    (mkWorld (clock w) (S (nextRef w)) (<[nextRef w := o]> (heap w))
       (<[uuid := nextRef w]> (orderStore w)) (connections w) (broken w)
       (closeListeners w) (orderQueue w ++ [Job.mk "execute_order" o retryPolicy])
       (trace w ++ [mkEffect (clock w) ApiRoute (StoreSet uuid o)]),
     Normal (accepted uuid)).
Proof.
  unfold postOrdersExecute, bind, newDate, alloc, readOrder, orderStore_set,
    orderQueue_add, emit, ret, created, accepted, retryPolicy.
  cbn. rewrite !lookup_total_insert_eq. reflexivity.
Qed.

Lemma wsConnect_unfold (orderId : string) (socket : nat) (w : World) :
  wsConnect orderId socket w =
    match orderStore w !! orderId with
    | Some order =>
        match broken w !! socket with
        | None =>
            (listening socket orderId
               (emit WsRoute (Send socket (snapshot (heap w !!! order)) None)
                  (bound orderId socket w)),
             Normal tt)
        | Some e =>
            (emit WsRoute (Send socket (snapshot (heap w !!! order)) (Some e))
               (bound orderId socket w),
             Throw e)
        end
    | None => (listening socket orderId (bound orderId socket w), Normal tt)
    end.
Proof.
  unfold wsConnect, bind, connections_set, orderStore_get, readOrder, socket_send,
    socket_on_close, listening, bound, ret. cbn.
  destruct (orderStore w !! orderId) as [order|]; [|reflexivity].
  cbn. destruct (broken w !! socket); reflexivity.
Qed.

Lemma listeners_run (socket : nat) (ls : list (nat * string)) (w : World) :
  sameButRegistry w
    (fold_left
       (fun w' l => if Nat.eqb (fst l) socket then fst (connections_delete (snd l) w') else w')
       ls w).
Proof.
  revert w. induction ls as [|l ls IH]; intros w; cbn [fold_left].
  - by repeat split.
  - destruct (Nat.eqb l.1 socket); [|apply IH].
    destruct (IH (connections_delete l.2 w).1) as (? & ? & ? & ? & ? & ? & ? & ?).
    unfold sameButRegistry. by repeat split.
Qed.

Lemma socketClosed_fields (socket : nat) (w : World) :
  sameButRegistry w (fst (socketClosed socket w)).
Proof. apply listeners_run. Qed.

(** ** Records written to the store *)

Ltac record_facts Htx Herr :=
  unfold recordOk, clean, awaiting, moved, failedWith; cbn;
  rewrite ?Htx, ?Herr;
  repeat match goal with
         | |- _ /\ _ => split
         | |- _ -> _ => intros ?
         | H : is_Some None |- _ => by apply is_Some_None in H
         | H : _ \/ _ |- _ => destruct H
         | H : ex _ |- _ => destruct H
         | H : Throw _ = Normal _ |- _ => discriminate H
         | H : Normal _ = Normal _ |- _ => discriminate H
         end;
  eauto.

Lemma clean_recordOk (o : Order.t) : clean o -> recordOk o.
Proof. intros [Htx Herr]. record_facts Htx Herr. Qed.

Lemma resume_records (order : nat) (from : Resume) (w w' : World) (c : Completion Next) :
  clean (heap w !!! order) ->
  resume order from w = (w', c) ->
  Advanced recordOk order w w' /\
  recordOk (heap w' !!! order) /\
  (awaiting c -> clean (heap w' !!! order)).
Proof.
  intros [Htx Herr].
  destruct from as [|[prices|e]|dex [result|e]]; resume_paths; intros [= <- <-].
  all: split; [advance|split].
  all: read_world.
  all: solve [record_facts Htx Herr].
Qed.



Lemma startHandler_unfold (job : Job.t) (w : World) :
  startHandler job w =
    match resume (nextRef w) Dequeued (fst (alloc (Job.order job) w)) with
    | (w', Normal next) => (w', Normal (nextRef w, next))
    | (w', Throw e) => (w', Throw e)
    end.
Proof.
  unfold startHandler, bind, ret. cbn [alloc fst].
  unfold alloc. cbv beta iota.
  destruct (resume _ _ _) as [w' [next|e]]; reflexivity.
Qed.

(** ** An invariant of the running system *)

Lemma total_of_lookup (h h' : gmap nat Order.t) (r : nat) :
  h' !! r = h !! r -> h' !!! r = h !!! r.
Proof. intros H. by rewrite !lookup_total_alt, H. Qed.

Section Invariant.

Context (P : Order.t -> Prop) (G : World -> Prop) (quiet : Event -> Prop).
Hypothesis P_clean : forall o, clean o -> P o.
Hypothesis G_sockets : forall w w', broken w' = broken w -> G w -> G w'.
Hypothesis G_quiet : forall e w, quiet e -> G w -> G (happen e w).
Hypothesis G_resume :
  forall order from w w' c,
    G w -> clean (heap w !!! order) -> resume order from w = (w', c) ->
    Advanced P order w w' /\ P (heap w' !!! order) /\
    (awaiting c -> clean (heap w' !!! order)).

Lemma ownEffect_ok (order : nat) (rest : list Effect) :
  Forall (ownEffect P order) rest -> Forall (effectOk P) rest.
Proof.
  intros H. eapply Forall_impl; [exact H|].
  intros [t a x] [_ Hx]. unfold effectOk. cbn in *.
  destruct x; [|done]. by eapply Hx.
Qed.

Lemma sound_resume (w w' : World) (h : gmap nat (Completion Next)) (order : nat)
    (from : Resume) (c : Completion Next) :
  Sound P G w h -> order < nextRef w -> clean (heap w !!! order) ->
  resume order from w = (w', c) ->
  Sound P G w' (<[order := c]> h).
Proof.
  intros [Hg Ht Hs Hq Hh] Hlt Hclean Hrun.
  destruct (G_resume _ _ _ _ _ Hg Hclean Hrun)
    as ([Hn _ _ Hb _ Hqueue Hheap Hstore (rest & Htr & Hrest)] & Hok & Hawait).
  constructor.
  - by eapply G_sockets.
  - rewrite Htr. apply Forall_app. split; [done|]. by eapply ownEffect_ok.
  - intros k r Hk. rewrite Hn. destruct (Hstore _ _ Hk) as [->|Hold]; [done|].
    destruct (Hs _ _ Hold) as [Hr Hrec]. split; [done|].
    destruct (decide (r = order)) as [->|Hne]; [done|].
    by rewrite (total_of_lookup _ _ _ (Hheap _ Hne)).
  - by rewrite Hqueue.
  - intros r c' Hr. rewrite Hn. destruct (decide (order = r)) as [<-|Hne].
    + rewrite lookup_insert_eq in Hr. injection Hr as <-. done.
    + rewrite lookup_insert_ne in Hr by done. destruct (Hh _ _ Hr) as [? Hc].
      split; [done|].
      rewrite (total_of_lookup _ _ r (Hheap _ (not_eq_sym Hne))). done.
Qed.

(** A change of the world that keeps the objects there are, and only adds
    acceptable records, keeps the invariant. *)
Lemma sound_extend (w w' : World) (h : gmap nat (Completion Next)) :
  Sound P G w h ->
  G w' ->
  nextRef w <= nextRef w' ->
  (forall r, r < nextRef w -> heap w' !! r = heap w !! r) ->
  (forall k r, orderStore w' !! k = Some r ->
     orderStore w !! k = Some r \/ (r < nextRef w' /\ P (heap w' !!! r))) ->
  (exists js, orderQueue w' = orderQueue w ++ js /\
              Forall (fun j => clean (Job.order j)) js) ->
  (exists rest, trace w' = trace w ++ rest /\ Forall (effectOk P) rest) ->
  Sound P G w' h.
Proof.
  intros [Hg Ht Hs Hq Hh] Hg' Hn Hheap Hstore (js & Hjs & Hclean) (rest & Htr & Hrest).
  constructor.
  - done.
  - rewrite Htr. by apply Forall_app.
  - intros k r Hk. destruct (Hstore _ _ Hk) as [Hold|Hnew]; [|done].
    destruct (Hs _ _ Hold) as [Hr Hrec]. split; [lia|].
    by rewrite (total_of_lookup _ _ _ (Hheap _ Hr)).
  - rewrite Hjs. by apply Forall_app.
  - intros r c Hr. destruct (Hh _ _ Hr) as [Hlt Hc]. split; [lia|].
    by rewrite (total_of_lookup _ _ _ (Hheap _ Hlt)).
Qed.

Lemma sound_happen (e : Event) (w : World) (h : gmap nat (Completion Next)) :
  quiet e -> Sound P G w h -> Sound P G (happen e w) h.
Proof.
  intros Hquiet Hs.
  pose proof (G_quiet e w Hquiet (sound_sockets _ _ _ _ Hs)) as Hg. revert Hg.
  destruct e as [body uuid|orderId socket|socket|socket throws|ms]; cbn [happen].
  - destruct (schemaAccepts body); [|done].
    rewrite postOrdersExecute_unfold. cbn zeta. cbn [fst]. intros Hg.
    eapply sound_extend; [exact Hs|exact Hg|cbn..].
    + lia.
    + intros r Hr. rewrite lookup_insert_ne by lia. done.
    + intros k r. destruct (decide (uuid = k)) as [<-|Hne].
      * rewrite lookup_insert_eq. intros [= <-]. right. split; [lia|].
        rewrite lookup_total_insert_eq. by apply P_clean.
      * rewrite lookup_insert_ne by done. by left.
    + eexists. split; [done|]. by repeat constructor.
    + eexists. split; [done|]. constructor; [|done].
      unfold effectOk; cbn. by apply P_clean.
  - rewrite wsConnect_unfold. cbn [setBroken orderStore broken].
    rewrite lookup_delete_eq.
    destruct (orderStore w !! orderId) as [order|];
      cbn [fst]; intros Hg;
      (eapply sound_extend; [exact Hs|exact Hg|cbn; try done..]);
      try (by intros; left); try (by exists []; rewrite app_nil_r);
      (eexists; split; [done|]; by repeat constructor).
  - destruct (socketClosed_fields socket w) as (Hc & Hn & Hheap & Hst & Hb & Hl & Hq & Ht).
    intros Hg. eapply sound_extend; [exact Hs|exact Hg|..].
    + by rewrite Hn.
    + intros. by rewrite Hheap.
    + intros k r. rewrite Hst. by left.
    + exists []. by rewrite Hq, app_nil_r.
    + exists []. by rewrite Ht, app_nil_r.
  - intros Hg. eapply sound_extend; [exact Hs|exact Hg|cbn; try done..];
      try (by intros; left); by exists []; rewrite app_nil_r.
  - intros Hg. eapply sound_extend; [exact Hs|exact Hg|cbn; try done..];
      try (by intros; left); by exists []; rewrite app_nil_r.
Qed.

Lemma sound_alloc (o : Order.t) (w : World) (h : gmap nat (Completion Next)) :
  Sound P G w h -> Sound P G (fst (alloc o w)) h.
Proof.
  intros Hs. eapply sound_extend; [exact Hs| |cbn; try done..].
  - eapply G_sockets; [|exact (sound_sockets _ _ _ _ Hs)]. done.
  - lia.
  - intros r Hr. by rewrite lookup_insert_ne by lia.
  - intros; by left.
  - by exists []; rewrite app_nil_r.
  - by exists []; rewrite app_nil_r.
Qed.

Lemma sound_step (l : Label) (s s' : System) :
  quietLabel quiet l -> SoundSystem P G s -> step l s = Some s' -> SoundSystem P G s'.
Proof.
  unfold SoundSystem. intros Hquiet Hs.
  destruct l as [e|n|order rA rB|order rDelay uuid r]; cbn [step].
  - intros [= <-]. cbn. by apply sound_happen.
  - destruct (orderQueue (world s) !! n) as [job|] eqn:Hjob; [|done].
    rewrite startHandler_unfold.
    destruct (resume _ _ _) as [w' c] eqn:Hrun.
    assert (Sound P G w' (<[nextRef (world s) := c]> (handlers s))) as Hs'.
    { eapply sound_resume; [by apply (sound_alloc (Job.order job))| | |exact Hrun].
      - cbn. lia.
      - cbn. rewrite lookup_total_insert_eq.
        destruct Hs as [_ _ _ Hq _]. rewrite Forall_forall in Hq.
        eapply (Hq job). by eapply list_elem_of_lookup_2. }
    destruct c as [next|e]; intros [= <-]; exact Hs'.
  - destruct (handlers s !! order) as [[[| |]|]|] eqn:Hh; try done.
    destruct (resume _ _ _) as [w' c] eqn:Hrun. intros [= <-]. cbn.
    destruct (sound_handlers _ _ _ _ Hs _ _ Hh) as [Hlt Hclean].
    eapply sound_resume; [done|done| |exact Hrun]. apply Hclean. by left.
  - destruct (handlers s !! order) as [[[|dex|]|]|] eqn:Hh; try done.
    destruct (resume _ _ _) as [w' c] eqn:Hrun. intros [= <-]. cbn.
    destruct (sound_handlers _ _ _ _ Hs _ _ Hh) as [Hlt Hclean].
    eapply sound_resume; [done|done| |exact Hrun]. apply Hclean. right. by exists dex.
Qed.

Lemma sound_run (ls : list Label) (s s' : System) :
  Forall (quietLabel quiet) ls -> SoundSystem P G s -> run ls s = Some s' -> SoundSystem P G s'.
Proof.
  revert s. induction ls as [|l ls IH]; intros s Hq Hs; cbn [run].
  - by intros [= <-].
  - destruct (step l s) as [s1|] eqn:Hstep; [|done].
    apply Forall_cons in Hq as [Hl Hq].
    apply IH; [done|]. by eapply sound_step.
Qed.

(** Every record in the store of a sound system. *)
Lemma sound_stored (s : System) (k : string) (r : nat) :
  SoundSystem P G s -> orderStore (world s) !! k = Some r -> P (heap (world s) !!! r).
Proof. intros Hs Hk. by apply (sound_store _ _ _ _ Hs k r). Qed.

End Invariant.

(** ** The records put in the store *)

Lemma happen_keeps_sockets (e : Event) (w : World) :
  keepsSockets e -> broken w = ∅ -> broken (happen e w) = ∅.
Proof.
  destruct e as [body uuid|orderId socket|socket|socket [e|]|ms]; cbn [happen keepsSockets];
    intros Hk Hb; try done.
  - destruct (schemaAccepts body); [|done]. by rewrite postOrdersExecute_unfold.
  - rewrite wsConnect_unfold. cbn [setBroken orderStore broken].
    rewrite lookup_delete_eq.
    destruct (orderStore w !! orderId); cbn; rewrite Hb; apply delete_empty.
  - destruct (socketClosed_fields socket w) as (_ & _ & _ & _ & -> & _). done.
  - cbn. rewrite Hb. apply delete_empty.
Qed.

(** The records when a [send] may throw: in every run from the empty
    system, every record put in the order store has [error] set only when
    its status is failed, and [txHash] set only when its status is confirmed
    or when it is failed with [error] set; the records the store holds at
    the end are so too. *)
Lemma store_records_with_throwing_sends (now : Z) (ls : list Label) (s : System) :
  run ls (boot now) = Some s ->
  Forall (effectOk recordOk) (trace (world s)) /\
  forall k r, orderStore (world s) !! k = Some r -> recordOk (heap (world s) !!! r).
Proof.
  intros Hrun.
  assert (SoundSystem recordOk (fun _ => True) (boot now)) as Hboot
    by (constructor; cbn; done).
  assert (SoundSystem recordOk (fun _ => True) s) as Hs.
  { eapply (sound_run recordOk (fun _ => True) (fun _ => True));
      [exact clean_recordOk|done|done| | |exact Hboot|exact Hrun].
    - intros. by eapply resume_records.
    - apply Forall_forall. intros [] _; done. }
  split; [apply Hs|]. intros k r Hk. by eapply sound_stored.
Qed.



(** The hypothesis on the sockets is used: were the [send] of the confirmed
    event to throw, as on [lateSocketFault], the catch block would put in
    the store a failed order whose [txHash] is set. *)
Example failed_record_with_txHash :
  ~ (forall (now : Z) (ls : list Label) (s : System),
       run ls (boot now) = Some s ->
       Forall (effectOk recordStrict) (trace (world s))).
Proof.
  intros H.
  specialize (H 0%Z lateSocketFault afterLateSocketFault eq_refl).
  rewrite Forall_lookup in H.
  specialize (H 10 _ eq_refl).
  destruct H as [H _]. cbn in H.
  specialize (H (mk_is_Some _ _ eq_refl)). discriminate H.
Qed.

(** ** One handler among the others *)

Lemma untouched_refl (me : nat) (w : World) : Untouched me w w.
Proof. constructor; [done|done|]. exists []. by rewrite app_nil_r. Qed.

Lemma effectsOf_app (a : Actor) (t1 t2 : list Effect) :
  effectsOf a (t1 ++ t2) = effectsOf a t1 ++ effectsOf a t2.
Proof. apply List.filter_app. Qed.

Lemma untouched_trans (me : nat) (w1 w2 w3 : World) :
  Untouched me w1 w2 -> Untouched me w2 w3 -> Untouched me w1 w3.
Proof.
  intros [Hn1 Hh1 (r1 & Ht1 & Hr1)] [Hn2 Hh2 (r2 & Ht2 & Hr2)].
  constructor; [lia|congruence|].
  exists (r1 ++ r2). split; [by rewrite Ht2, Ht1, app_assoc|].
  by rewrite effectsOf_app, Hr1, Hr2.
Qed.

Lemma effectsOf_other (a : Actor) (rest : list Effect) :
  Forall (fun e => who e <> a) rest -> effectsOf a rest = [].
Proof.
  induction 1 as [|e rest He _ IH]; [done|].
  cbn. rewrite bool_decide_eq_false_2 by done. exact IH.
Qed.

Lemma effectsOf_own (a : Actor) (rest : list Effect) :
  Forall (fun e => who e = a) rest -> effectsOf a rest = rest.
Proof.
  induction 1 as [|e rest He _ IH]; [done|].
  cbn. rewrite bool_decide_eq_true_2 by done. f_equal. exact IH.
Qed.

Lemma happen_trace (e : Event) (w : World) :
  exists rest, trace (happen e w) = trace w ++ rest /\ Forall routeEffect rest.
Proof.
  destruct e as [body uuid|orderId socket|socket|socket throws|ms]; cbn [happen].
  - destruct (schemaAccepts body); [|by exists []; rewrite app_nil_r].
    rewrite postOrdersExecute_unfold. eexists. split; [done|].
    repeat constructor.
  - rewrite wsConnect_unfold. cbn [setBroken orderStore broken].
    rewrite lookup_delete_eq.
    destruct (orderStore w !! orderId); cbn;
      [|by exists []; rewrite app_nil_r].
    eexists. split; [done|]. constructor; [by right|done].
  - destruct (socketClosed_fields socket w) as (_ & _ & _ & _ & _ & _ & _ & Ht).
    exists []. by rewrite Ht, app_nil_r.
  - by exists []; rewrite app_nil_r.
  - by exists []; rewrite app_nil_r.
Qed.

Lemma happen_untouched (me : nat) (e : Event) (w : World) :
  me < nextRef w -> Untouched me w (happen e w).
Proof.
  intros Hme. constructor.
  - destruct e as [body uuid|orderId socket|socket|socket throws|ms]; cbn [happen];
      try done.
    + destruct (schemaAccepts body); [|done].
      rewrite postOrdersExecute_unfold. cbn. lia.
    + rewrite wsConnect_unfold. cbn [setBroken orderStore broken].
      rewrite lookup_delete_eq. by destruct (orderStore w !! orderId).
    + destruct (socketClosed_fields socket w) as (_ & -> & _). done.
  - destruct e as [body uuid|orderId socket|socket|socket throws|ms]; cbn [happen];
      try done.
    + destruct (schemaAccepts body); [|done].
      rewrite postOrdersExecute_unfold. cbn. by rewrite lookup_insert_ne by lia.
    + rewrite wsConnect_unfold. cbn [setBroken orderStore broken].
      rewrite lookup_delete_eq. by destruct (orderStore w !! orderId).
    + destruct (socketClosed_fields socket w) as (_ & _ & -> & _). done.
  - destruct (happen_trace e w) as (rest & Ht & Hrest).
    exists rest. split; [done|]. apply effectsOf_other.
    eapply Forall_impl; [exact Hrest|]. intros x [Hx|Hx]; rewrite Hx; done.
Qed.

Lemma resume_untouched (me order : nat) (from : Resume) (w w' : World)
    (c : Completion Next) :
  order <> me -> resume order from w = (w', c) -> Untouched me w w'.
Proof.
  intros Hne Hrun.
  destruct (resume_touches_only _ _ _ _ _ Hrun) as [Hn _ _ _ _ _ Hheap _ (rest & Ht & Hrest)].
  constructor; [lia|by apply Hheap|].
  exists rest. split; [done|]. apply effectsOf_other.
  eapply Forall_impl; [exact Hrest|]. intros e [-> _]. congruence.
Qed.

Lemma step_foreign (me : nat) (l : Label) (s s' : System) :
  foreign me l -> me < nextRef (world s) -> step l s = Some s' ->
  Untouched me (world s) (world s') /\ handlers s' !! me = handlers s !! me.
Proof.
  intros Hl Hme. destruct l as [e|n|order rA rB|order rDelay uuid r]; cbn [step foreign] in *.
  - intros [= <-]. split; [by apply happen_untouched|done].
  - destruct (orderQueue (world s) !! n) as [job|]; [|done].
    rewrite startHandler_unfold.
    destruct (resume _ _ _) as [w' c] eqn:Hrun.
    assert (Untouched me (world s) w') as Hu.
    { eapply untouched_trans; [|eapply resume_untouched; [|exact Hrun]; lia].
      constructor; cbn; [lia|by rewrite lookup_insert_ne by lia|].
      by exists []; rewrite app_nil_r. }
    destruct c as [next|e]; intros [= <-]; cbn; (split; [done|]);
      by rewrite lookup_insert_ne by lia.
  - destruct (handlers s !! order) as [[[| |]|]|]; try done.
    destruct (resume _ _ _) as [w' c] eqn:Hrun. intros [= <-]. cbn.
    split; [by eapply resume_untouched|]. by rewrite lookup_insert_ne.
  - destruct (handlers s !! order) as [[[|dex|]|]|]; try done.
    destruct (resume _ _ _) as [w' c] eqn:Hrun. intros [= <-]. cbn.
    split; [by eapply resume_untouched|]. by rewrite lookup_insert_ne.
Qed.

Lemma run_foreign (me : nat) (ls : list Label) (s s' : System) :
  Forall (foreign me) ls -> me < nextRef (world s) -> run ls s = Some s' ->
  Untouched me (world s) (world s') /\ handlers s' !! me = handlers s !! me.
Proof.
  revert s. induction ls as [|l ls IH]; intros s Hls Hme; cbn [run].
  - intros [= <-]. split; [apply untouched_refl|done].
  - apply Forall_cons in Hls as [Hl Hls].
    destruct (step l s) as [s1|] eqn:Hstep; [|done]. intros Hrun.
    destruct (step_foreign _ _ _ _ Hl Hme Hstep) as [Hu1 Hh1].
    destruct (IH s1 Hls) as [Hu2 Hh2]; [|exact Hrun|].
    { pose proof (later_nextRef _ _ _ Hu1). lia. }
    split; [by eapply untouched_trans|congruence].
Qed.

(** ** The success path *)

Lemma resume_dequeued_normal (order : nat) (w w' : World) (next : Next) :
  resume order Dequeued w = (w', Normal next) ->
  let o := moved routing (clock w) (heap w !!! order) in
  next = AwaitQuotes /\
  w' = delivered (WorkerHandler order) (Order.id o) (routingEvent (Order.id o))
         (recorded (WorkerHandler order) order o w).
Proof.
  resume_paths; intros [= <- <-]. done.
Qed.

Lemma resume_quotes_normal (order : nat) (prices : Q * Q) (w w' : World) (next : Next) :
  resume order (QuotesSettled (Normal prices)) w = (w', Normal next) ->
  let o2 := moved building (clock w) (heap w !!! order) in
  let o3 := moved submitted (clock w) o2 in
  next = AwaitSwap (bestDex (fst prices) (snd prices)) /\
  w' = delivered (WorkerHandler order) (Order.id o3) (submittedEvent (Order.id o3))
         (recorded (WorkerHandler order) order o3
            (delivered (WorkerHandler order) (Order.id o2) (buildingEvent (Order.id o2))
               (recorded (WorkerHandler order) order o2 w))).
Proof.
  resume_paths; intros [= <- <-]. read_world. done.
Qed.

Lemma resume_swap_normal (order : nat) (dex : string) (result : SwapResult.t)
    (w w' : World) (next : Next) :
  resume order (SwapSettled dex (Normal result)) w = (w', Normal next) ->
  let o4 := moved confirmed (clock w)
              (Order.set_txHash (SwapResult.txHash result) (heap w !!! order)) in
  next = Returned true order /\
  w' = delivered (WorkerHandler order) (Order.id o4) (confirmedEvent (Order.id o4) result)
         (recorded (WorkerHandler order) order o4
            (hashed order (SwapResult.txHash result) w)).
Proof.
  resume_paths; intros [= <- <-]. read_world. done.
Qed.

Section SuccessPath.
Context (order : nat).

Lemma dequeued_effects (w w' : World) (next : Next) (o0 : Order.t) :
  heap w !!! order = o0 ->
  resume order Dequeued w = (w', Normal next) ->
  let o1 := moved routing (clock w) o0 in
  next = AwaitQuotes /\
  heap w' !!! order = o1 /\
  orderStore w' !! Order.id o0 = Some order /\
  trace w' = trace w ++
    transition (WorkerHandler order) (clock w) (connections w !! Order.id o0) o1
      (routingEvent (Order.id o0)).
Proof.
  intros <- Hrun. apply resume_dequeued_normal in Hrun as [-> ->].
  cbn zeta. split; [done|]. rewrite trace_transition. read_world.
  rewrite lookup_insert_eq. done.
Qed.

Lemma quotes_effects (w w' : World) (next : Next) (prices : Q * Q) (o1 : Order.t) :
  heap w !!! order = o1 ->
  resume order (QuotesSettled (Normal prices)) w = (w', Normal next) ->
  let o2 := moved building (clock w) o1 in
  let o3 := moved submitted (clock w) o2 in
  next = AwaitSwap (bestDex (fst prices) (snd prices)) /\
  heap w' !!! order = o3 /\
  orderStore w' !! Order.id o1 = Some order /\
  trace w' = trace w ++
    transition (WorkerHandler order) (clock w) (connections w !! Order.id o1) o2
      (buildingEvent (Order.id o1)) ++
    transition (WorkerHandler order) (clock w) (connections w !! Order.id o1) o3
      (submittedEvent (Order.id o1)).
Proof.
  intros <- Hrun. apply resume_quotes_normal in Hrun as [-> ->].
  cbn zeta. split; [done|]. rewrite !trace_transition. read_world.
  rewrite lookup_insert_eq, <- app_assoc. done.
Qed.

Lemma swap_effects (w w' : World) (next : Next) (dex : string) (result : SwapResult.t)
    (o3 : Order.t) :
  heap w !!! order = o3 ->
  resume order (SwapSettled dex (Normal result)) w = (w', Normal next) ->
  let o4 := moved confirmed (clock w) (Order.set_txHash (SwapResult.txHash result) o3) in
  next = Returned true order /\
  heap w' !!! order = o4 /\
  orderStore w' !! Order.id o3 = Some order /\
  trace w' = trace w ++
    transition (WorkerHandler order) (clock w) (connections w !! Order.id o3) o4
      (confirmedEvent (Order.id o3) result).
Proof.
  intros <- Hrun. apply resume_swap_normal in Hrun as [-> ->].
  cbn zeta. split; [done|]. rewrite trace_transition. read_world.
  rewrite lookup_insert_eq. done.
Qed.

Lemma effectsOf_transition (now : Z) (socket : option nat) (o : Order.t) (text : JsObject) :
  effectsOf (WorkerHandler order) (transition (WorkerHandler order) now socket o text)
  = transition (WorkerHandler order) now socket o text.
Proof. apply effectsOf_own. destruct socket; by repeat constructor. Qed.

End SuccessPath.

Lemma untouched_object (me : nat) (w w' : World) :
  Untouched me w w' -> heap w' !!! me = heap w !!! me.
Proof. intros [_ H _]. by apply total_of_lookup. Qed.

(** C1.  A handler invocation that returns: the queue delivers [job], the
    quotes arrive, the swap is done, with any labels that are not the
    handler's own in between, and the handler's promise resolves.  Then the
    effects of the handler are, in this order, the transitions to routing,
    building, submitted and confirmed.  Each transition is the write of the
    order to the store, with the new status and with [updatedAt] the clock
    of that moment, followed, when a socket is then bound to the order id,
    by the send of an event with [status] and [orderId]; the confirmed event
    carries also the [txHash] and [executedPrice] that [executeSwap]
    returned for the venue the quotes selected. *)
Theorem handler_success_sequence
    (s s1 s2 s3 : System) (n : nat) (job : Job.t) (before after : list Label)
    (rRaydium rMeteora rDelay r : Q) (uuid : string) :
  let order := nextRef (world s) in
  orderQueue (world s) !! n = Some job ->
  run (Deliver n :: before) s = Some s1 ->
  Forall (foreign order) before ->
  run (QuotesArrive order rRaydium rMeteora :: after) s1 = Some s2 ->
  Forall (foreign order) after ->
  step (SwapDone order rDelay uuid r) s2 = Some s3 ->
  handlers s3 !! order = Some (Normal (Returned true order)) ->
  let me := WorkerHandler order in
  let id := Order.id (Job.order job) in
  let o1 := moved routing (clock (world s)) (Job.order job) in
  let o2 := moved building (clock (world s1)) o1 in
  let o3 := moved submitted (clock (world s1)) o2 in
  let quotes := quotesOf o1 rRaydium rMeteora in
  let result :=
    MockDexRouter.executeSwap (bestDex (fst quotes) (snd quotes)) o3 rDelay uuid r in
  let o4 := moved confirmed (clock (world s2))
              (Order.set_txHash (SwapResult.txHash result) o3) in
  exists rest,
    trace (world s3) = trace (world s) ++ rest /\
    effectsOf me rest =
      transition me (clock (world s)) (connections (world s) !! id) o1 (routingEvent id) ++
      transition me (clock (world s1)) (connections (world s1) !! id) o2 (buildingEvent id) ++
      transition me (clock (world s1)) (connections (world s1) !! id) o3 (submittedEvent id) ++
      transition me (clock (world s2)) (connections (world s2) !! id) o4
        (confirmedEvent id result) /\
    heap (world s3) !!! order = o4 /\
    orderStore (world s3) !! id = Some order.
Proof.
  intros order Hjob Hrun1 Hbefore Hrun2 Hafter Hstep3 Hdone. cbn zeta.
  pose proof (eq_refl : order = nextRef (world s)) as Horder. clearbody order.
  (* the job is delivered *)
  cbn [run] in Hrun1.
  destruct (step (Deliver n) s) as [sa|] eqn:Hsa; [|done].
  cbn [step] in Hsa. rewrite Hjob, startHandler_unfold, <- Horder in Hsa.
  destruct (resume _ _ _) as [wa ca] eqn:Hra.
  assert (sa = mkSystem wa (<[order := ca]> (handlers s))) as ->
    by (destruct ca; by injection Hsa as <-).
  clear Hsa.
  assert (nextRef wa = S order) as Hna
    by (rewrite (same_nextRef _ _ _ _ (resume_touches_only _ _ _ _ _ Hra)); cbn; lia).
  assert (order < nextRef wa) as Hlta by lia.
  destruct (run_foreign order before (mkSystem wa _) s1 Hbefore Hlta Hrun1) as [Hu1 Hh1].
  cbn in Hh1. rewrite lookup_insert_eq in Hh1.
  (* the quotes arrive *)
  cbn [run] in Hrun2.
  destruct (step (QuotesArrive order rRaydium rMeteora) s1) as [sb|] eqn:Hsb; [|done].
  cbn [step] in Hsb. rewrite Hh1 in Hsb.
  destruct ca as [[| |]|]; try done.
  eapply dequeued_effects in Hra as (_ & Hoa & _ & Hta);
    [|cbn; by rewrite <- Horder, lookup_total_insert_eq].
  cbn [alloc fst clock connections trace] in Hoa, Hta.
  pose proof (untouched_object _ _ _ Hu1) as Ho1. cbn in Ho1. rewrite Hoa in Ho1.
  destruct Hu1 as [Hn1 _ (rest1 & Ht1 & Hr1)]. cbn in Hn1, Ht1.
  rewrite Ho1 in Hsb.
  destruct (resume _ _ (world s1)) as [wb cb] eqn:Hrb.
  injection Hsb as <-.
  assert (order < nextRef wb) as Hltb
    by (rewrite (same_nextRef _ _ _ _ (resume_touches_only _ _ _ _ _ Hrb)); lia).
  destruct (run_foreign order after (mkSystem wb _) s2 Hafter Hltb Hrun2) as [Hu2 Hh2].
  cbn in Hh2. rewrite lookup_insert_eq in Hh2.
  (* the swap is done *)
  cbn [step] in Hstep3. rewrite Hh2 in Hstep3.
  destruct cb as [[|dex|]|]; try done.
  eapply quotes_effects in Hrb as (Hdex & Hob & _ & Htb); [|exact Ho1].
  injection Hdex as ->.
  pose proof (untouched_object _ _ _ Hu2) as Ho2. cbn in Ho2. rewrite Hob in Ho2.
  destruct Hu2 as [_ _ (rest2 & Ht2 & Hr2)]. cbn in Ht2.
  rewrite Ho2 in Hstep3.
  destruct (resume _ _ (world s2)) as [w3 c3] eqn:Hr3.
  injection Hstep3 as <-. cbn in Hdone. rewrite lookup_insert_eq in Hdone.
  injection Hdone as ->.
  eapply swap_effects in Hr3 as (_ & Ho3 & Hs3 & Ht3); [|exact Ho2].
  cbn [world].
  eexists. split; [|split; [|split; [exact Ho3|exact Hs3]]].
  - rewrite Ht3, Ht2, Htb, Ht1, Hta. rewrite <- !app_assoc. reflexivity.
  - rewrite !effectsOf_app, !effectsOf_transition, Hr1, Hr2. cbn [app].
    reflexivity.
Qed.

(** ** The fault path *)

(** The catch block, whatever the socket does.  When a step of the [try]
    block throws [e], the handler sets the order's status to failed and its
    [error] to the message of [e], sets [updatedAt] to the clock, puts the
    order in the store and, when a socket is bound to the order id, calls
    its [send] with [{status: 'failed', orderId, error}].  The handler's
    promise is then rejected: with [e] when no socket is bound or that
    [send] returns, with what that [send] threw when it throws. *)
Lemma catch_block_outcome (order : nat) (from : Resume) (w w1 : World) (e : Thrown) :
  tryBlock order from w = (w1, Throw e) ->
  let me := WorkerHandler order in
  let o := failedWith (messageOf e) (clock w1) (heap w1 !!! order) in
  exists w' thrown sent,
    resume order from w = (w', Throw thrown) /\
    heap w' !!! order = o /\
    orderStore w' !! Order.id o = Some order /\
    trace w' = trace w1 ++ mkEffect (clock w1) me (StoreSet (Order.id o) o) :: sent /\
    match connections w1 !! Order.id o with
    | None => sent = [] /\ thrown = e
    | Some socket =>
        sent = [mkEffect (clock w1) me
                  (Send socket (failedEvent (Order.id o) (messageOf e))
                     (broken w1 !! socket))] /\
        thrown = default e (broken w1 !! socket)
    end.
Proof.
  intros Htry. cbn zeta.
  rewrite (resume_throw _ _ _ _ _ Htry), catchBlock_unfold. cbn zeta.
  unfold pushed, socket_send. cbn [connections broken recorded].
  destruct (connections w1 !! _) as [socket|] eqn:Hc.
  - destruct (broken w1 !! socket) as [e'|] eqn:Hb;
      do 3 eexists; (split; [reflexivity|]); cbn;
      rewrite lookup_total_insert_eq, lookup_insert_eq, <- app_assoc; done.
  - do 3 eexists. split; [reflexivity|]. cbn.
    rewrite lookup_total_insert_eq, lookup_insert_eq. done.
Qed.

(** C3.  When a step of the [try] block throws [e] -- a rejected quote or
    swap -- and the [send] of the socket bound to the order id, if there is
    one, returns, the handler sets the order's status to failed and its
    [error] to the message of [e] (['Unknown error'] when [e] is not an
    [Error]), sets [updatedAt] to the clock, puts the order in the store,
    sends [{status: 'failed', orderId, error}] on the bound socket, and
    then rejects its promise with [e] itself, which is what the queue's
    retry policy acts on.  With no socket bound there is nobody to notify
    and nothing is sent. *)
Theorem fault_path (order : nat) (from : Resume) (w w1 : World) (e : Thrown) :
  tryBlock order from w = (w1, Throw e) ->
  (forall socket, connections w1 !! Order.id (heap w1 !!! order) = Some socket ->
                  broken w1 !! socket = None) ->
  let me := WorkerHandler order in
  let o := failedWith (messageOf e) (clock w1) (heap w1 !!! order) in
  Order.status o = failed /\
  Order.error o = Some (messageOf e) /\
  Order.updatedAt o = clock w1 /\
  exists w',
    resume order from w = (w', Throw e) /\
    heap w' !!! order = o /\
    orderStore w' !! Order.id o = Some order /\
    trace w' = trace w1 ++
      mkEffect (clock w1) me (StoreSet (Order.id o) o) ::
      match connections w1 !! Order.id o with
      | Some socket =>
          [mkEffect (clock w1) me
             (Send socket (failedEvent (Order.id o) (messageOf e)) None)]
      | None => []
      end.
Proof.
  intros Htry Hsend. cbn zeta. repeat split.
  destruct (catch_block_outcome _ _ _ _ _ Htry)
    as (w' & thrown & sent & Hrun & Hheap & Hstore & Htrace & Hsent).
  cbn [Order.id failedWith Order.set_updatedAt Order.set_error Order.set_status] in *.
  destruct (connections w1 !! Order.id (heap w1 !!! order)) as [socket|] eqn:Hc.
  - rewrite (Hsend socket eq_refl) in Hsent. destruct Hsent as [-> ->].
    exists w'. by repeat split.
  - destruct Hsent as [-> ->]. exists w'. by repeat split.
Qed.

(** A swap that is rejected while the client's socket is open: the failed
    event is sent and the fault of the swap is rethrown. *)
Lemma fault_path_on_rejected_swap :
  let from := SwapSettled "raydium" (Throw insufficientLiquidity) in
  let w := openSocketWorld in
  let o := failedWith "Insufficient liquidity" 0 sampleOrder in
  tryBlock 0 from w = (w, Throw insufficientLiquidity) /\
  (forall socket, connections w !! Order.id (heap w !!! 0) = Some socket ->
                  broken w !! socket = None) /\
  exists w',
    resume 0 from w = (w', Throw insufficientLiquidity) /\
    heap w' !!! 0 = o /\
    orderStore w' !! sampleId = Some 0 /\
    trace w' =
      [mkEffect 0 (WorkerHandler 0) (StoreSet sampleId o);
       mkEffect 0 (WorkerHandler 0)
         (Send 7 (failedEvent sampleId "Insufficient liquidity") None)].
Proof.
  cbn zeta.
  assert (forall socket,
            connections openSocketWorld !! Order.id (heap openSocketWorld !!! 0)
              = Some socket ->
            broken openSocketWorld !! socket = None) as Hsend by done.
  split; [reflexivity|]. split; [exact Hsend|].
  destruct (fault_path 0 (SwapSettled "raydium" (Throw insufficientLiquidity))
              openSocketWorld openSocketWorld insufficientLiquidity eq_refl Hsend)
    as (_ & _ & _ & w' & Hrun & Hheap & Hstore & Htrace).
  exists w'. split; [exact Hrun|]. split; [exact Hheap|]. split; [exact Hstore|].
  exact Htrace.
Defined.

(** The hypothesis on the socket is used: were the [send] of the failed
    event to throw, what the handler throws would not be the fault of the
    swap but what that [send] threw. *)
Example rethrown_fault_replaced :
  snd (resume 0 (SwapSettled "raydium" (Throw insufficientLiquidity)) brokenSocketWorld)
  = Throw notOpen.
Proof. reflexivity. Qed.

(** ** Notification delivery *)

Ltac read_world_in H :=
  repeat first
    [ progress rewrite ?nextRef_delivered, ?clock_delivered, ?heap_delivered,
        ?orderStore_delivered, ?connections_delivered, ?broken_delivered,
        ?closeListeners_delivered, ?orderQueue_delivered in H
    | progress cbn [nextRef clock heap orderStore connections broken closeListeners
                    orderQueue recorded emit hashed assign fst
                    Order.id moved failedWith Order.set_status Order.set_updatedAt
                    Order.set_error Order.set_txHash] in H
    | progress rewrite ?lookup_total_insert_eq in H ].

(** Bring what the case analysis learnt about the sockets to the world the
    resumption started in. *)
Ltac sockets :=
  repeat match goal with
         | H : forall socket, connections _ !! _ = Some socket -> broken _ !! socket = None |- _ =>
             progress read_world_in H
         | H : connections _ !! _ = Some _ |- _ => progress read_world_in H
         | H : broken _ !! _ = Some _ |- _ => progress read_world_in H
         end.

(** C4, as it holds.  At a transition of the order [order]: when no socket
    is bound to the order id, [updateStatus] writes the order and returns
    without any [send], and a resumption whose promise was fulfilled runs to
    its next stop; when the bound socket's [send] returns, the event is sent;
    when the bound socket's [send] throws [e], [updateStatus] throws [e], and
    a resumption whose promise was fulfilled ends in the catch block: the
    order is failed in the store, with the message of [e], and the handler's
    promise is rejected with [e]. *)
Theorem notification_delivery (order : nat) (from : Resume) (status : OrderStatus)
    (additionalData : JsObject) (w : World) :
  let me := WorkerHandler order in
  let id := Order.id (heap w !!! order) in
  let o := moved status (clock w) (heap w !!! order) in
  let text := statusEvent status id additionalData in
  match connections w !! id with
  | None =>
      updateStatus order status additionalData w = (recorded me order o w, Normal tt) /\
      (settledNormally from -> exists w' next, resume order from w = (w', Normal next))
  | Some socket =>
      match broken w !! socket with
      | None =>
          updateStatus order status additionalData w =
            (emit me (Send socket text None) (recorded me order o w), Normal tt)
      | Some e =>
          updateStatus order status additionalData w =
            (emit me (Send socket text (Some e)) (recorded me order o w), Throw e) /\
          (settledNormally from ->
           exists w',
             resume order from w = (w', Throw e) /\
             Order.status (heap w' !!! order) = failed /\
             Order.error (heap w' !!! order) = Some (messageOf e) /\
             orderStore w' !! id = Some order)
      end
  end.
Proof.
  cbn zeta. rewrite updateStatus_unfold. cbn zeta.
  destruct (connections w !! Order.id (heap w !!! order)) as [socket|] eqn:Hc.
  - destruct (broken w !! socket) as [e|] eqn:Hb.
    + split; [by apply pushed_broken|].
      destruct from as [|[prices|e0]|dex [result|e0]]; try done; intros _;
        resume_paths; sockets; simplify_eq;
        try match goal with
            | H : forall socket, _ -> _ = None |- _ => by rewrite (H _ Hc) in Hb
            end.
      all: eexists; split; [reflexivity|]; read_world;
        rewrite ?lookup_insert_eq; done.
    + by apply pushed_healthy.
  - split; [by apply pushed_unbound|].
    destruct from as [|[prices|e0]|dex [result|e0]]; try done; intros _;
      resume_paths; sockets; simplify_eq; by eauto.
Qed.

Lemma notification_delivery_on_broken_socket :
  settledNormally Dequeued /\
  exists w',
    resume 0 Dequeued brokenSocketWorld = (w', Throw notOpen) /\
    Order.status (heap w' !!! 0) = failed /\
    Order.error (heap w' !!! 0) = Some (messageOf notOpen) /\
    orderStore w' !! sampleId = Some 0.
Proof.
  split; [exact I|].
  pose proof (notification_delivery 0 Dequeued routing [] brokenSocketWorld) as H.
  cbv zeta in H.
  set (c := connections brokenSocketWorld !! _) in H. vm_compute in c. subst c.
  set (b := broken brokenSocketWorld !! 7) in H. vm_compute in b. subst b.
  cbv beta iota in H. destruct H as [_ H]. exact (H I).
Defined.

(** C4, as the specification states it, fails: a [send] that throws is not
    swallowed.  The handler dequeued in [brokenSocketWorld] does not reach
    its first [await]. *)
Lemma send_fault_aborts_handler :
  ~ (forall (order : nat) (from : Resume) (w : World),
       settledNormally from ->
       exists w' next, resume order from w = (w', Normal next)).
Proof.
  intros H. destruct (H 0 Dequeued brokenSocketWorld I) as (w' & next & Hres).
  vm_compute in Hres. discriminate Hres.
Qed.

(** The two sample runs differ only in the socket starting to throw while
    the swap executes: one order ends confirmed, the other failed, and the
    handler of the other is rejected, which the queue retries. *)
Example socket_fault_changes_outcome :
  Order.status (heap (world afterPlainRun) !!! 1) = confirmed /\
  handlers afterPlainRun !! 1 = Some (Normal (Returned true 1)) /\
  Order.status (heap (world afterLateSocketFault) !!! 1) = failed /\
  Order.txHash (heap (world afterLateSocketFault) !!! 1)
    = Some ("raydium_" +:+ sampleUuid) /\
  Order.error (heap (world afterLateSocketFault) !!! 1) = Some "WebSocket is not open" /\
  handlers afterLateSocketFault !! 1 = Some (Throw notOpen).
Proof. vm_compute. repeat split. Qed.

(** ** Venue selection *)

Lemma bestDex_raydium (raydiumPrice meteoraPrice : Q) :
  bestDex raydiumPrice meteoraPrice = "raydium" <-> (raydiumPrice <= meteoraPrice)%Q.
Proof.
  unfold bestDex. rewrite <- Qle_bool_iff.
  destruct (Qle_bool raydiumPrice meteoraPrice); split; congruence.
Qed.

Lemma bestDex_meteora (raydiumPrice meteoraPrice : Q) :
  bestDex raydiumPrice meteoraPrice = "meteora" <-> ~ (raydiumPrice <= meteoraPrice)%Q.
Proof.
  unfold bestDex. rewrite <- Qle_bool_iff.
  destruct (Qle_bool raydiumPrice meteoraPrice); split; congruence.
Qed.

(** C2.  [bestDex] is Raydium exactly when the Raydium quote is at most the
    Meteora quote, and Meteora otherwise; equal quotes give Raydium through
    the same comparison; and the venue the handler awaits the swap at, once
    both quotes are in, is [bestDex] of the two quotes. *)
Theorem venue_selection (raydiumPrice meteoraPrice : Q) :
  (bestDex raydiumPrice meteoraPrice = "raydium" <-> (raydiumPrice <= meteoraPrice)%Q) /\
  (bestDex raydiumPrice meteoraPrice = "meteora" <-> ~ (raydiumPrice <= meteoraPrice)%Q) /\
  ((raydiumPrice == meteoraPrice)%Q -> bestDex raydiumPrice meteoraPrice = "raydium") /\
  (forall (order : nat) (w w' : World) (next : Next),
     resume order (QuotesSettled (Normal (raydiumPrice, meteoraPrice))) w = (w', Normal next) ->
     next = AwaitSwap (bestDex raydiumPrice meteoraPrice)).
Proof.
  split; [apply bestDex_raydium|]. split; [apply bestDex_meteora|]. split.
  - intros Heq. apply bestDex_raydium. rewrite Heq. apply Qle_refl.
  - intros order w w' next Hrun. by apply resume_quotes_normal in Hrun as [-> _].
Qed.

Lemma venue_selection_on_a_tie :
  (100 == 100)%Q /\ bestDex 100 100 = "raydium" /\
  exists w',
    resume 0 (QuotesSettled (Normal (100%Q, 100%Q))) (initial 0)
      = (w', Normal (AwaitSwap "raydium")) /\
    AwaitSwap "raydium" = AwaitSwap (bestDex 100 100).
Proof.
  destruct (venue_selection 100 100) as (_ & _ & Htie & Hnext).
  split; [reflexivity|]. split; [apply Htie; reflexivity|].
  exists (fst (resume 0 (QuotesSettled (Normal (100%Q, 100%Q))) (initial 0))).
  assert (resume 0 (QuotesSettled (Normal (100%Q, 100%Q))) (initial 0)
          = (fst (resume 0 (QuotesSettled (Normal (100%Q, 100%Q))) (initial 0)),
             Normal (AwaitSwap "raydium"))) as Hrun by (vm_compute; reflexivity).
  split; [exact Hrun|]. exact (Hnext 0 (initial 0) _ _ Hrun).
Defined.

(** ** The transaction hash *)

Example sampleId_isUUID : isUUID sampleId = true.
Proof. reflexivity. Qed.

Lemma hexDigits_length (n : nat) (s rest : string) :
  hexDigits n s = Some rest -> String.length s = n + String.length rest.
Proof.
  revert s. induction n as [|n IH]; intros s; cbn.
  - by intros [= ->].
  - destruct s as [|c s]; [done|]. destruct (isHexDigit c); [|done].
    intros H. cbn. by rewrite (IH _ H).
Qed.

Lemma hyphen_length (s rest : string) :
  hyphen s = Some rest -> String.length s = 1 + String.length rest.
Proof.
  destruct s as [|c s]; [done|]. unfold hyphen.
  destruct (Ascii.eqb_spec c "-"%char) as [->|Hne].
  - by intros [= ->].
  - destruct c as [[] [] [] [] [] [] [] []]; try done.
Qed.

Lemma hexGroups_length (sizes : list nat) (s : string) :
  hexGroups sizes s = true ->
  String.length s = list_sum sizes + pred (length sizes).
Proof.
  revert s. induction sizes as [|n more IH]; intros s; cbn [hexGroups]; [done|].
  destruct (hexDigits n s) as [rest|] eqn:Hn; [|done].
  apply hexDigits_length in Hn. destruct more as [|m more].
  - destruct rest; [|done]. intros _. cbn in *. lia.
  - destruct (hyphen rest) as [rest'|] eqn:Hh; [|done].
    apply hyphen_length in Hh. intros H. apply IH in H. cbn in *. lia.
Qed.

Lemma isUUID_length (s : string) : isUUID s = true -> String.length s = 36.
Proof. intros H. by apply hexGroups_length in H. Qed.

Lemma append_nil (s : string) : "" +:+ s = s.
Proof. reflexivity. Qed.

Lemma append_cons (c : ascii) (a s : string) : String c a +:+ s = String c (a +:+ s).
Proof. reflexivity. Qed.

Lemma length_append (a b : string) :
  String.length (a +:+ b) = String.length a + String.length b.
Proof.
  induction a as [|c a IH]; [done|].
  rewrite append_cons. cbn [String.length]. by rewrite IH.
Qed.

(** Two strings with tails of one length are equal only if the tails are. *)
Lemma append_same_length_tail (a b u v : string) :
  String.length u = String.length v -> a +:+ u = b +:+ v -> u = v.
Proof.
  intros Hlen. revert b. induction a as [|c a IH]; intros [|d b];
    rewrite ?append_nil, ?append_cons; intros Heq.
  - done.
  - subst u. cbn [String.length] in Hlen. rewrite length_append in Hlen. lia.
  - subst v. cbn [String.length] in Hlen. rewrite length_append in Hlen. lia.
  - injection Heq as _ Heq. by eapply IH.
Qed.

Lemma append_assoc (a b c : string) : (a +:+ b) +:+ c = a +:+ (b +:+ c).
Proof.
  induction a as [|x a IH]; [done|]. rewrite !append_cons. by rewrite IH.
Qed.

Lemma prefix_append (a b : string) : String.prefix a (a +:+ b) = true.
Proof.
  induction a as [|c a IH]; [by destruct b|].
  rewrite append_cons. cbn [String.prefix].
  destruct (Ascii.ascii_dec c c); [exact IH|done].
Qed.

(** C9.  The [txHash] [executeSwap] returns is the venue name, an
    underscore, and the UUID generated for the call, so it starts with
    [<venue>_] and something follows; and two calls for which [randomUUID()]
    returned different UUIDs return different [txHash]es, whatever the
    venues. *)
Theorem executeSwap_txHash (dex : string) (order : Order.t) (rDelay : Q)
    (uuid : string) (r : Q) :
  let result := MockDexRouter.executeSwap dex order rDelay uuid r in
  SwapResult.txHash result = dex +:+ "_" +:+ uuid /\
  String.prefix (dex +:+ "_") (SwapResult.txHash result) = true /\
  (isUUID uuid = true ->
   String.length (SwapResult.txHash result) = String.length dex + 37) /\
  (forall (dex' : string) (order' : Order.t) (rDelay' : Q) (uuid' : string) (r' : Q),
     isUUID uuid = true -> isUUID uuid' = true -> uuid <> uuid' ->
     SwapResult.txHash result
     <> SwapResult.txHash (MockDexRouter.executeSwap dex' order' rDelay' uuid' r')).
Proof.
  cbn zeta. cbn [MockDexRouter.executeSwap SwapResult.txHash].
  split; [done|]. split; [|split].
  - rewrite <- append_assoc. apply prefix_append.
  - intros Hu. rewrite !length_append. cbn [String.length].
    rewrite (isUUID_length _ Hu). lia.
  - intros dex' order' rDelay' uuid' r' Hu Hu' Hne Heq.
    apply append_same_length_tail in Heq.
    + apply Hne. rewrite !append_cons, !append_nil in Heq. by injection Heq.
    + rewrite !length_append. by rewrite (isUUID_length _ Hu), (isUUID_length _ Hu').
Qed.

Lemma executeSwap_txHash_on_samples :
  isUUID sampleUuid = true /\ isUUID sampleId = true /\ sampleUuid <> sampleId /\
  SwapResult.txHash (MockDexRouter.executeSwap "raydium" sampleOrder 0.5 sampleUuid 0.5)
  <> SwapResult.txHash (MockDexRouter.executeSwap "meteora" sampleOrder 0.5 sampleId 0.5).
Proof.
  split; [reflexivity|]. split; [reflexivity|]. split; [discriminate|].
  destruct (executeSwap_txHash "raydium" sampleOrder 0.5 sampleUuid 0.5) as (_ & _ & _ & H).
  apply H; [reflexivity|reflexivity|discriminate].
Defined.

(** ** The submission route *)

(** C8.  For a body the schema accepts, the route creates an order whose id
    is the UUID just generated and whose status is pending, puts it in the
    store under that id and nowhere else, adds one job carrying the order to
    the queue, with three attempts and exponential backoff from 1000 ms, and
    replies 202 with [orderId], [status] pending and a [wsEndpoint] that ends
    with [/ws/] and the order id.  When the UUID is fresh, every order that
    was in the store is still there, under another id. *)
Theorem submission_creates_order (body : OrderRequest.t) (uuid : string) (w : World) :
  schemaAccepts body = true ->
  let order := created body uuid (clock w) in
  exists w',
    postOrdersExecute body uuid w = (w', Normal (accepted uuid)) /\
    happen (Submit body uuid) w = w' /\
    (Order.id order = uuid /\ Order.status order = pending /\
     Order.txHash order = None /\ Order.error order = None) /\
    (orderStore w' !! uuid = Some (nextRef w) /\ heap w' !!! nextRef w = order) /\
    (forall k, k <> uuid -> orderStore w' !! k = orderStore w !! k) /\
    (orderStore w !! uuid = None ->
     forall k r, orderStore w !! k = Some r -> k <> uuid /\ orderStore w' !! k = Some r) /\
    orderQueue w' = orderQueue w ++
      [Job.mk "execute_order" order (mkJobsOptions 3 (mkBackoff "exponential" 1000))] /\
    trace w' = trace w ++ [mkEffect (clock w) ApiRoute (StoreSet uuid order)] /\
    statusCode (accepted uuid) = 202%Z /\
    payload (accepted uuid) =
      [("orderId", JsString uuid); ("status", JsString "pending");
       ("wsEndpoint", JsString ("ws://localhost:3000" +:+ "/ws/" +:+ uuid))].
Proof.
  intros Hvalid. cbn zeta. eexists. split; [apply postOrdersExecute_unfold|].
  unfold happen. rewrite Hvalid, postOrdersExecute_unfold. cbn.
  split; [done|]. split; [done|]. split.
  { by rewrite lookup_insert_eq, lookup_total_insert_eq. }
  split.
  { intros k Hk. by rewrite lookup_insert_ne. }
  split; [|done].
  intros Hfresh k r Hk. assert (k <> uuid) as Hne by congruence.
  split; [done|]. by rewrite lookup_insert_ne.
Qed.

Lemma submission_creates_order_for_sample :
  schemaAccepts sampleBody = true /\
  orderStore (initial 0) !! sampleId = None /\
  exists w',
    postOrdersExecute sampleBody sampleId (initial 0) = (w', Normal (accepted sampleId)) /\
    orderStore w' !! sampleId = Some 0 /\
    orderQueue w' =
      [Job.mk "execute_order" (created sampleBody sampleId 0)
         (mkJobsOptions 3 (mkBackoff "exponential" 1000))].
Proof.
  split; [reflexivity|]. split; [reflexivity|].
  destruct (submission_creates_order sampleBody sampleId (initial 0) eq_refl)
    as (w' & Hpost & _ & _ & [Hstore _] & _ & _ & Hqueue & _).
  exists w'. split; [exact Hpost|]. split; [exact Hstore|exact Hqueue].
Defined.

(** ** The WebSocket route *)

Lemma snapshot_unfold (o : Order.t) :
  snapshot o =
    [("status", JsString (statusName (Order.status o)));
     ("orderId", JsString (Order.id o))] ++
    match Order.txHash o with Some h => [("txHash", JsString h)] | None => [] end ++
    match Order.error o with Some m => [("error", JsString m)] | None => [] end.
Proof. unfold snapshot. by destruct (Order.txHash o), (Order.error o). Qed.

Lemma step_trace (l : Label) (s s' : System) :
  step l s = Some s' -> exists later, trace (world s') = trace (world s) ++ later.
Proof.
  destruct l as [e|n|order rA rB|order rDelay uuid r]; cbn [step].
  - intros [= <-]. destruct (happen_trace e (world s)) as (rest & Ht & _). by exists rest.
  - destruct (orderQueue (world s) !! n) as [job|]; [|done].
    rewrite startHandler_unfold. destruct (resume _ _ _) as [w' c] eqn:Hrun.
    destruct (more_trace _ _ _ _ (resume_touches_only _ _ _ _ _ Hrun)) as (rest & Ht & _).
    destruct c; intros [= <-]; by exists rest.
  - destruct (handlers s !! order) as [[[| |]|]|]; try done.
    destruct (resume _ _ _) as [w' c] eqn:Hrun. intros [= <-].
    destruct (more_trace _ _ _ _ (resume_touches_only _ _ _ _ _ Hrun)) as (rest & Ht & _).
    by exists rest.
  - destruct (handlers s !! order) as [[[|dex|]|]|]; try done.
    destruct (resume _ _ _) as [w' c] eqn:Hrun. intros [= <-].
    destruct (more_trace _ _ _ _ (resume_touches_only _ _ _ _ _ Hrun)) as (rest & Ht & _).
    by exists rest.
Qed.

Lemma run_trace (ls : list Label) (s s' : System) :
  run ls s = Some s' -> exists later, trace (world s') = trace (world s) ++ later.
Proof.
  revert s. induction ls as [|l ls IH]; intros s; cbn [run].
  - intros [= <-]. exists []. by rewrite app_nil_r.
  - destruct (step l s) as [s1|] eqn:Hstep; [|done]. intros Hrun.
    destruct (step_trace _ _ _ Hstep) as (r1 & H1).
    destruct (IH _ Hrun) as (r2 & H2).
    exists (r1 ++ r2). by rewrite H2, H1, app_assoc.
Qed.

Lemma connect_trace (orderId : string) (socket : nat) (w : World) :
  trace (happen (Connect orderId socket) w) = trace w ++
    match orderStore w !! orderId with
    | Some order =>
        [mkEffect (clock w) WsRoute (Send socket (snapshot (heap w !!! order)) None)]
    | None => []
    end.
Proof.
  unfold happen. rewrite wsConnect_unfold.
  cbn [setBroken orderStore broken]. rewrite lookup_delete_eq.
  destruct (orderStore w !! orderId); cbn; [done|by rewrite app_nil_r].
Qed.

(** C7.  When a client connects for [orderId], the registry binds the new
    socket to that id, whatever was bound before, and no other binding
    changes.  If the store holds an order under that id, the route sends on
    the new socket one message, the snapshot of the order as it then is: its
    status, its id, and its [txHash] and [error] when they are set; otherwise
    it sends nothing.  Nothing else is sent, so nothing earlier is replayed,
    and whatever is sent later comes after the snapshot in the trace.  The
    last part is the route on any world: it calls [send] once, with the
    snapshot, or not at all. *)
Theorem ws_connect_snapshot (orderId : string) (socket : nat) (w : World) :
  let w' := happen (Connect orderId socket) w in
  connections w' !! orderId = Some socket /\
  (forall other, other <> orderId -> connections w' !! other = connections w !! other) /\
  trace w' = trace w ++
    match orderStore w !! orderId with
    | Some order =>
        [mkEffect (clock w) WsRoute (Send socket (snapshot (heap w !!! order)) None)]
    | None => []
    end /\
  (forall o : Order.t,
     snapshot o =
       [("status", JsString (statusName (Order.status o)));
        ("orderId", JsString (Order.id o))] ++
       match Order.txHash o with Some h => [("txHash", JsString h)] | None => [] end ++
       match Order.error o with Some m => [("error", JsString m)] | None => [] end) /\
  (forall (h : gmap nat (Completion Next)) (ls : list Label) (s' : System),
     run ls (mkSystem w' h) = Some s' ->
     exists later, trace (world s') = trace w' ++ later) /\
  trace (fst (wsConnect orderId socket w)) = trace w ++
    match orderStore w !! orderId with
    | Some order =>
        [mkEffect (clock w) WsRoute
           (Send socket (snapshot (heap w !!! order)) (broken w !! socket))]
    | None => []
    end.
Proof.
  cbn zeta. split; [|split; [|split; [apply connect_trace|split; [|split]]]].
  all: unfold happen; rewrite ?wsConnect_unfold;
    cbn [setBroken orderStore broken]; rewrite ?lookup_delete_eq.
  - destruct (orderStore w !! orderId); cbn; by rewrite lookup_insert_eq.
  - intros other Hne. destruct (orderStore w !! orderId); cbn; by rewrite lookup_insert_ne.
  - apply snapshot_unfold.
  - intros h ls s' Hrun. by apply run_trace in Hrun.
  - destruct (orderStore w !! orderId); [destruct (broken w !! socket)|]; cbn;
      [done|done|by rewrite app_nil_r].
Qed.

(** A client that connects, on socket [9], after the order of [plainRun] is
    confirmed: the route sends the one snapshot, with the status confirmed
    and the [txHash]. *)
Lemma ws_connect_snapshot_after_confirmation :
  let w := world afterPlainRun in
  let w' := happen (Connect sampleId 9) w in
  "another-id" <> sampleId /\
  connections w' !! "another-id" = connections w !! "another-id" /\
  connections w !! sampleId = Some 7 /\
  connections w' !! sampleId = Some 9 /\
  run [] (mkSystem w' ∅) = Some (mkSystem w' ∅) /\
  (exists later, trace w' = trace w' ++ later) /\
  trace w' = trace w ++
    [mkEffect 2500 WsRoute
       (Send 9
          [("status", JsString "confirmed"); ("orderId", JsString sampleId);
           ("txHash", JsString ("raydium_" +:+ sampleUuid))]
          None)].
Proof.
  cbn zeta.
  destruct (ws_connect_snapshot sampleId 9 (world afterPlainRun))
    as (Hbound & Hothers & Htrace & _ & Hlater & _).
  split; [discriminate|]. split; [apply Hothers; discriminate|].
  split; [reflexivity|]. split; [exact Hbound|]. split; [reflexivity|].
  split; [apply (Hlater ∅ [] _ eq_refl)|]. exact Htrace.
Defined.

(** C10.  The snapshot has no other members than [status], [orderId],
    [txHash] and [error], so never [executedPrice]; it has the [txHash] of the
    order when the order has one; and what the route sends on connect is that
    snapshot and nothing else. *)
Theorem snapshot_members (o : Order.t) :
  incl (keys (snapshot o)) ["status"; "orderId"; "txHash"; "error"] /\
  property "executedPrice" (snapshot o) = None /\
  property "status" (snapshot o) = Some (JsString (statusName (Order.status o))) /\
  property "orderId" (snapshot o) = Some (JsString (Order.id o)) /\
  property "txHash" (snapshot o) = JsString <$> Order.txHash o /\
  property "error" (snapshot o) = JsString <$> Order.error o /\
  (forall (orderId : string) (socket : nat) (w : World) (e : Effect),
     In e (trace (happen (Connect orderId socket) w)) ->
     In e (trace w) \/
     exists order, orderStore w !! orderId = Some order /\
                   what e = Send socket (snapshot (heap w !!! order)) None).
Proof.
  split; [|split; [|split; [|split; [|split; [|split]]]]].
  1-6: rewrite snapshot_unfold; destruct (Order.txHash o), (Order.error o); cbn;
       try done; intros k Hk; cbn in *; tauto.
  intros orderId socket w e.
  rewrite connect_trace.
  rewrite in_app_iff. intros [Hold|Hnew]; [by left|right].
  destruct (orderStore w !! orderId) as [order|]; [|done].
  destruct Hnew as [<-|[]]. by exists order.
Qed.

Lemma snapshot_members_after_confirmation :
  let w := world afterPlainRun in
  let o := heap w !!! 1 in
  let e := mkEffect 2500 WsRoute (Send 9 (snapshot o) None) in
  In e (trace (happen (Connect sampleId 9) w)) /\
  Order.status o = confirmed /\
  property "executedPrice" (snapshot o) = None /\
  property "txHash" (snapshot o) = Some (JsString ("raydium_" +:+ sampleUuid)) /\
  (In e (trace w) \/
   exists order, orderStore w !! sampleId = Some order /\
                 what e = Send 9 (snapshot (heap w !!! order)) None).
Proof.
  cbn zeta.
  assert (In (mkEffect 2500 WsRoute (Send 9 (snapshot (heap (world afterPlainRun) !!! 1)) None))
             (trace (happen (Connect sampleId 9) (world afterPlainRun)))) as Hin.
  { vm_compute. do 10 right. left. reflexivity. }
  destruct (snapshot_members (heap (world afterPlainRun) !!! 1))
    as (_ & Hprice & _ & _ & Htx & _ & Hroute).
  split; [exact Hin|]. split; [reflexivity|]. split; [exact Hprice|].
  split; [exact Htx|]. exact (Hroute sampleId 9 (world afterPlainRun) _ Hin).
Defined.

(** The order in the store, and so the snapshot, is the same whatever price
    the swap was executed at. *)
Example snapshot_blind_to_executed_price :
  let high := [Outside (Submit sampleBody sampleId); Deliver 0;
               QuotesArrive 1 0.25 0.75; SwapDone 1 0.5 sampleUuid 0.9] in
  let low := [Outside (Submit sampleBody sampleId); Deliver 0;
              QuotesArrive 1 0.25 0.75; SwapDone 1 0.5 sampleUuid 0.1] in
  (fun s => snapshot (heap (world s) !!! 1)) <$> run high (boot 0)
  = (fun s => snapshot (heap (world s) !!! 1)) <$> run low (boot 0).
Proof. vm_compute. reflexivity. Qed.

Lemma handler_success_sequence_on_sample :
  let s := submittedSystem in
  let s1 := routingSystem in
  let s2 := submittedToVenue in
  let s3 := confirmedSystem in
  let order := nextRef (world s) in
  (orderQueue (world s) !! 0 = Some sampleJob /\
   run (Deliver 0 :: [Outside (Elapse 200)]) s = Some s1 /\
   Forall (foreign order) [Outside (Elapse 200)] /\
   run (QuotesArrive order 0.25 0.75 :: [Outside (Elapse 2500)]) s1 = Some s2 /\
   Forall (foreign order) [Outside (Elapse 2500)] /\
   step (SwapDone order 0.5 sampleUuid 0.5) s2 = Some s3 /\
   handlers s3 !! order = Some (Normal (Returned true order))) /\
  let me := WorkerHandler order in
  let id := Order.id (Job.order sampleJob) in
  let o1 := moved routing (clock (world s)) (Job.order sampleJob) in
  let o2 := moved building (clock (world s1)) o1 in
  let o3 := moved submitted (clock (world s1)) o2 in
  let quotes := quotesOf o1 0.25 0.75 in
  let result :=
    MockDexRouter.executeSwap (bestDex (fst quotes) (snd quotes)) o3 0.5 sampleUuid 0.5 in
  let o4 := moved confirmed (clock (world s2))
              (Order.set_txHash (SwapResult.txHash result) o3) in
  exists rest,
    trace (world s3) = trace (world s) ++ rest /\
    effectsOf me rest =
      transition me (clock (world s)) (connections (world s) !! id) o1 (routingEvent id) ++
      transition me (clock (world s1)) (connections (world s1) !! id) o2 (buildingEvent id) ++
      transition me (clock (world s1)) (connections (world s1) !! id) o3 (submittedEvent id) ++
      transition me (clock (world s2)) (connections (world s2) !! id) o4
        (confirmedEvent id result) /\
    heap (world s3) !!! order = o4 /\
    orderStore (world s3) !! id = Some order.
Proof.
  cbn zeta.
  assert (Forall (foreign 1) [Outside (Elapse 200)]) as Hbefore by (by repeat constructor).
  assert (Forall (foreign 1) [Outside (Elapse 2500)]) as Hafter by (by repeat constructor).
  split.
  - repeat split; try (vm_compute; reflexivity); assumption.
  - apply (handler_success_sequence submittedSystem routingSystem submittedToVenue
             confirmedSystem 0 sampleJob [Outside (Elapse 200)] [Outside (Elapse 2500)]
             0.25 0.75 0.5 0.5 sampleUuid);
      try (vm_compute; reflexivity); assumption.
Defined.

(** * Further properties *)

(** ** What a resumption may touch *)

Lemma sameRequest_refl (o : Order.t) : sameRequest o o.
Proof. by repeat split. Qed.

Lemma sameRequest_trans (o1 o2 o3 : Order.t) :
  sameRequest o1 o2 -> sameRequest o2 o3 -> sameRequest o1 o3.
Proof.
  unfold sameRequest. intros (? & ? & ? & ? & ?) (? & ? & ? & ? & ?).
  repeat split; congruence.
Qed.

Section Confined.
Context (order : nat).

Lemma confined_refl (w : World) : Confined order w w.
Proof.
  constructor; try done.
  exists []. by rewrite app_nil_r.
Qed.

Lemma confined_recorded (w w1 : World) (o : Order.t) :
  Confined order w w1 ->
  sameRequest (heap w !!! order) o -> Order.updatedAt o = clock w ->
  Confined order w (recorded (WorkerHandler order) order o w1).
Proof.
  intros [Hc Hn Ho Hs (rest & Ht & Hrest)] Hsame Hstamp.
  constructor; cbn; try done.
  - by rewrite lookup_total_insert_eq.
  - intros k Hk. rewrite lookup_insert_ne; [by apply Hs|].
    destruct Hsame as [-> _]. done.
  - exists (rest ++ [mkEffect (clock w1) (WorkerHandler order) (StoreSet (Order.id o) o)]).
    split; [by rewrite Ht, app_assoc|].
    apply Forall_app; split; [done|].
    constructor; [|done]. split; [done|]. split; [done|]. cbn.
    split; [apply Hsame|]. split; [done|]. done.
Qed.

Lemma confined_emit (w w1 : World) (socket : nat) (text : JsObject)
    (raised : option Thrown) :
  Confined order w w1 ->
  connections w !! Order.id (heap w !!! order) = Some socket ->
  Confined order w (emit (WorkerHandler order) (Send socket text raised) w1).
Proof.
  intros [Hc Hn Ho Hs (rest & Ht & Hrest)] Hb.
  constructor; cbn; try done.
  exists (rest ++ [mkEffect (clock w1) (WorkerHandler order) (Send socket text raised)]).
  split; [by rewrite Ht, app_assoc|].
  apply Forall_app; split; [done|].
  constructor; [|done]. split; [done|]. split; [done|]. cbn. done.
Qed.

Lemma confined_delivered (w w1 : World) (key : string) (text : JsObject) :
  Confined order w w1 ->
  key = Order.id (heap w !!! order) ->
  Confined order w (delivered (WorkerHandler order) key text w1).
Proof.
  intros H ->. unfold delivered.
  destruct (connections w1 !! _) as [socket|] eqn:Hb; [|done].
  apply confined_emit; [done|]. by rewrite <- (confined_connections _ _ _ H).
Qed.

Lemma confined_hashed (w w1 : World) (h : string) :
  Confined order w w1 ->
  Confined order w (hashed order h w1).
Proof.
  intros [Hc Hn Ho Hs Ht].
  constructor; cbn; try done.
  rewrite lookup_total_insert_eq. destruct Ho as (? & ? & ? & ? & ?).
  by repeat split.
Qed.

End Confined.

Ltac confine :=
  repeat first
    [ apply confined_refl
    | apply confined_delivered
    | apply confined_emit
    | apply confined_hashed
    | apply confined_recorded ].

Lemma resume_confined (order : nat) (from : Resume) (w w' : World) (c : Completion Next) :
  resume order from w = (w', c) -> Confined order w w'.
Proof.
  destruct from as [|[prices|e]|dex [result|e]]; resume_paths; intros [= <- <-];
    sockets; confine; read_world;
    solve [ assumption
          | unfold sameRequest, moved, failedWith; cbn; by repeat split ].
Qed.

(** Every resumption puts the handler's object in the store under its id. *)
Lemma resume_stores (order : nat) (from : Resume) (w w' : World) (c : Completion Next) :
  resume order from w = (w', c) ->
  orderStore w' !! Order.id (heap w !!! order) = Some order.
Proof.
  destruct from as [|[prices|e]|dex [result|e]]; resume_paths; intros [= <- <-];
    read_world; cbn; by rewrite lookup_insert_eq.
Qed.

(** X1.  One resumption of the handler of [order] leaves the store as it
    was but for the entry of the order's own id, which it points at the
    handler's object; it changes no other object, no binding of the
    registry, no close listener and no job; and each of its effects is a
    store write under the order's own id or a [send] on the socket that
    was bound to that id when the resumption began. *)
Theorem resumption_confined_to_own_order (order : nat) (from : Resume) (w w' : World)
    (c : Completion Next) :
  resume order from w = (w', c) ->
  let id := Order.id (heap w !!! order) in
  orderStore w' = <[id := order]> (orderStore w) /\
  (forall other, other <> order -> heap w' !! other = heap w !! other) /\
  connections w' = connections w /\
  closeListeners w' = closeListeners w /\
  orderQueue w' = orderQueue w /\
  exists rest, trace w' = trace w ++ rest /\
    Forall (fun e => who e = WorkerHandler order /\
              match what e with
              | StoreSet key _ => key = id
              | Send socket _ _ => connections w !! id = Some socket
              end) rest.
Proof.
  intros Hrun id.
  pose proof (resume_confined _ _ _ _ _ Hrun) as [_ _ _ Hstore (rest & Ht & Hrest)].
  pose proof (resume_touches_only _ _ _ _ _ Hrun) as [_ _ Hconn _ Hlist Hqueue Hheap _ _].
  split.
  { apply map_eq. intros k. destruct (decide (k = id)) as [->|Hk].
    - rewrite lookup_insert_eq. by eapply resume_stores.
    - rewrite lookup_insert_ne by done. by apply Hstore. }
  repeat (split; [done|]).
  exists rest. split; [done|].
  eapply Forall_impl; [exact Hrest|].
  intros e (Hwho & _ & Hwhat). split; [done|].
  destruct (what e); [apply Hwhat|exact Hwhat].
Qed.

Lemma resumption_confined_to_own_order_on_sample :
  let w := world routingSystem in
  let r := resume 1 (QuotesSettled (Normal (98.5, 101.5)%Q)) w in
  orderStore (fst r) = <[sampleId := 1]> (orderStore w) /\
  (forall other, other <> 1 -> heap (fst r) !! other = heap w !! other) /\
  heap (fst r) !! 0 = heap w !! 0 /\
  connections (fst r) = connections w /\
  closeListeners (fst r) = closeListeners w /\
  orderQueue (fst r) = orderQueue w /\
  exists rest, trace (fst r) = trace w ++ rest /\
    Forall (fun e => who e = WorkerHandler 1 /\
              match what e with
              | StoreSet key _ => key = sampleId
              | Send socket _ _ => connections w !! sampleId = Some socket
              end) rest.
Proof.
  intros w r.
  destruct (resumption_confined_to_own_order 1 _ w (fst r) (snd r) (surjective_pairing r))
    as (Hstore & Hheap & Hrest).
  split; [exact Hstore|]. split; [exact Hheap|].
  split; [apply Hheap; discriminate|]. exact Hrest.
Defined.

(** ** Members that never change *)

Lemma step_keeps_request (me : nat) (l : Label) (s s' : System) :
  me < nextRef (world s) -> step l s = Some s' ->
  me < nextRef (world s') /\
  sameRequest (heap (world s) !!! me) (heap (world s') !!! me).
Proof.
  intros Hme Hstep.
  assert (foreign me l ->
          me < nextRef (world s') /\
          sameRequest (heap (world s) !!! me) (heap (world s') !!! me)) as Hforeign.
  { intros Hl. destruct (step_foreign _ _ _ _ Hl Hme Hstep) as [[Hn Hobj _] _].
    split; [lia|]. rewrite (total_of_lookup _ _ _ Hobj). apply sameRequest_refl. }
  destruct l as [e|n|order rA rB|order rDelay uuid r]; try (by apply Hforeign).
  - destruct (decide (order = me)) as [->|Hne]; [|by apply Hforeign].
    cbn [step] in Hstep.
    destruct (handlers s !! me) as [[[| |]|]|]; try done.
    destruct (resume _ _ _) as [w' c] eqn:Hrun. injection Hstep as <-. cbn.
    rewrite (same_nextRef _ _ _ _ (resume_touches_only _ _ _ _ _ Hrun)).
    split; [done|]. exact (confined_object _ _ _ (resume_confined _ _ _ _ _ Hrun)).
  - destruct (decide (order = me)) as [->|Hne]; [|by apply Hforeign].
    cbn [step] in Hstep.
    destruct (handlers s !! me) as [[[|dex|]|]|]; try done.
    destruct (resume _ _ _) as [w' c] eqn:Hrun. injection Hstep as <-. cbn.
    rewrite (same_nextRef _ _ _ _ (resume_touches_only _ _ _ _ _ Hrun)).
    split; [done|]. exact (confined_object _ _ _ (resume_confined _ _ _ _ _ Hrun)).
Qed.

(** X2.  Once an [Order] object exists, no run changes its [id], [tokenIn],
    [tokenOut], [amount] or [createdAt]: the handlers assign [status],
    [updatedAt], [txHash] and [error] only, and the routes assign nothing
    after the object is created. *)
Theorem request_members_never_change (me : nat) (ls : list Label) (s s' : System) :
  me < nextRef (world s) -> run ls s = Some s' ->
  sameRequest (heap (world s) !!! me) (heap (world s') !!! me).
Proof.
  revert s. induction ls as [|l ls IH]; intros s Hme; cbn [run].
  - intros [= <-]. apply sameRequest_refl.
  - destruct (step l s) as [s1|] eqn:Hstep; [|done]. intros Hrun.
    destruct (step_keeps_request _ _ _ _ Hme Hstep) as [Hme1 H1].
    eapply sameRequest_trans; [exact H1|]. by apply IH.
Qed.

Lemma request_members_never_change_on_sample :
  1 < nextRef (world routingSystem) /\
  run [QuotesArrive 1 0.25 0.75; Outside (Elapse 2500); SwapDone 1 0.5 sampleUuid 0.5]
    routingSystem = Some confirmedSystem /\
  sameRequest (heap (world routingSystem) !!! 1) (heap (world confirmedSystem) !!! 1).
Proof.
  assert (1 < nextRef (world routingSystem)) as Hme by (cbn; lia).
  split; [exact Hme|]. split; [reflexivity|].
  exact (request_members_never_change 1
           [QuotesArrive 1 0.25 0.75; Outside (Elapse 2500); SwapDone 1 0.5 sampleUuid 0.5]
           routingSystem confirmedSystem Hme eq_refl).
Defined.

(** ** Time stamps *)

Lemma confined_stamps (order : nat) (w w' : World) :
  Confined order w w' ->
  exists rest, trace w' = trace w ++ rest /\
    Forall (fun e => when e = clock w /\ stampedWrite e) rest.
Proof.
  intros [_ _ _ _ (rest & Ht & Hrest)]. exists rest. split; [done|].
  eapply Forall_impl; [exact Hrest|].
  intros e (_ & Hwhen & Hwhat). split; [done|].
  unfold stampedWrite. destruct (what e); [|done].
  destruct Hwhat as (-> & (Hid & _) & Hup). split; [done|]. by rewrite Hwhen.
Qed.

Lemma happen_stamps (e : Event) (w : World) :
  (clock w <= clock (happen e w))%Z /\
  exists rest, trace (happen e w) = trace w ++ rest /\
    Forall (fun x => when x = clock w /\ stampedWrite x) rest.
Proof.
  destruct e as [body uuid|orderId socket|socket|socket throws|ms]; cbn [happen].
  - destruct (schemaAccepts body).
    + rewrite postOrdersExecute_unfold. cbn. split; [lia|].
      eexists. split; [done|]. by repeat constructor.
    + split; [lia|]. exists []. by rewrite app_nil_r.
  - split.
    + rewrite wsConnect_unfold. cbn [setBroken orderStore broken].
      rewrite lookup_delete_eq. destruct (orderStore w !! orderId); cbn; lia.
    + pose proof (connect_trace orderId socket w) as Ht. cbn [happen] in Ht.
      eexists. split; [exact Ht|].
      destruct (orderStore w !! orderId); by repeat constructor.
  - destruct (socketClosed_fields socket w) as (-> & _ & _ & _ & _ & _ & _ & ->).
    split; [lia|]. exists []. by rewrite app_nil_r.
  - cbn. split; [lia|]. exists []. by rewrite app_nil_r.
  - cbn. split; [lia|]. exists []. by rewrite app_nil_r.
Qed.

Lemma step_stamps (l : Label) (s s' : System) :
  step l s = Some s' ->
  (clock (world s) <= clock (world s'))%Z /\
  exists rest, trace (world s') = trace (world s) ++ rest /\
    Forall (fun e => when e = clock (world s) /\ stampedWrite e) rest.
Proof.
  assert (forall order from w w' c, resume order from w = (w', c) ->
            (clock w <= clock w')%Z /\
            exists rest, trace w' = trace w ++ rest /\
              Forall (fun e => when e = clock w /\ stampedWrite e) rest) as Hresume.
  { intros order from w w' c Hrun.
    pose proof (resume_confined _ _ _ _ _ Hrun) as Hc.
    split; [rewrite (confined_clock _ _ _ Hc); lia|]. by eapply confined_stamps. }
  destruct l as [e|n|order rA rB|order rDelay uuid r]; cbn [step].
  - intros [= <-]. apply happen_stamps.
  - destruct (orderQueue (world s) !! n) as [job|]; [|done].
    rewrite startHandler_unfold. destruct (resume _ _ _) as [w' c] eqn:Hrun.
    apply Hresume in Hrun. cbn in Hrun.
    destruct c; intros [= <-]; exact Hrun.
  - destruct (handlers s !! order) as [[[| |]|]|]; try done.
    destruct (resume _ _ _) as [w' c] eqn:Hrun. intros [= <-]. by eapply Hresume.
  - destruct (handlers s !! order) as [[[|dex|]|]|]; try done.
    destruct (resume _ _ _) as [w' c] eqn:Hrun. intros [= <-]. by eapply Hresume.
Qed.

Lemma chronological_app (t rest : list Effect) (now : Z) :
  chronological t -> Forall (fun e => (when e <= now)%Z) t ->
  Forall (fun e => when e = now) rest ->
  chronological (t ++ rest).
Proof.
  intros Ht Hpast Hrest i j ei ej Hij Hi Hj.
  rewrite Forall_lookup in Hpast. rewrite Forall_lookup in Hrest.
  apply lookup_app_Some in Hi as [Hi|[Hli Hi]];
    apply lookup_app_Some in Hj as [Hj|[Hlj Hj]].
  - by eapply Ht.
  - rewrite (Hrest _ _ Hj). by eapply Hpast.
  - apply lookup_lt_Some in Hj. lia.
  - rewrite (Hrest _ _ Hi), (Hrest _ _ Hj). lia.
Qed.

(** X3.  In every run from the empty system the effects are in the order
    of their time stamps, none of which is later than the clock; and every
    record put in the store, by the submission route or by a handler, is put
    under its own [id] and carries the time of the write as [updatedAt].
    So the [updatedAt] of the records written never decreases. *)
Theorem writes_are_chronological (now : Z) (ls : list Label) (s : System) :
  run ls (boot now) = Some s ->
  chronological (trace (world s)) /\
  Forall (fun e => (when e <= clock (world s))%Z) (trace (world s)) /\
  Forall stampedWrite (trace (world s)).
Proof.
  assert (forall ls s s',
            chronological (trace (world s)) /\
            Forall (fun e => (when e <= clock (world s))%Z) (trace (world s)) /\
            Forall stampedWrite (trace (world s)) ->
            run ls s = Some s' ->
            chronological (trace (world s')) /\
            Forall (fun e => (when e <= clock (world s'))%Z) (trace (world s')) /\
            Forall stampedWrite (trace (world s'))) as Hrun.
  { clear. induction ls as [|l ls IH]; intros s s' Hs; cbn [run].
    - by intros [= <-].
    - destruct (step l s) as [s1|] eqn:Hstep; [|done].
      apply IH. destruct Hs as (Hchron & Hpast & Hwrites).
      destruct (step_stamps _ _ _ Hstep) as (Hclock & rest & -> & Hrest).
      split; [|split].
      + eapply chronological_app; [done|done|].
        eapply Forall_impl; [exact Hrest|]. by intros e [? _].
      + apply Forall_app. split.
        * eapply Forall_impl; [exact Hpast|]. cbn. intros e He. lia.
        * eapply Forall_impl; [exact Hrest|]. cbn. intros e [-> _]. lia.
      + apply Forall_app. split; [done|].
        eapply Forall_impl; [exact Hrest|]. by intros e [_ ?]. }
  intros H. eapply Hrun; [|exact H].
  cbn. split; [|by split]. intros i j ei ej _ Hi. by rewrite lookup_nil in Hi.
Qed.

Lemma writes_are_chronological_on_plain_run :
  run plainRun (boot 0) = Some afterPlainRun /\
  chronological (trace (world afterPlainRun)) /\
  Forall (fun e => (when e <= clock (world afterPlainRun))%Z) (trace (world afterPlainRun)) /\
  Forall stampedWrite (trace (world afterPlainRun)).
Proof.
  split; [reflexivity|].
  exact (writes_are_chronological 0 plainRun afterPlainRun eq_refl).
Defined.

(** ** The store *)

(** What an event does to the store and to the heap: an accepted
    submission adds one object and one entry, nothing else changes them. *)
Lemma happen_store (e : Event) (w : World) :
  (exists body uuid,
     e = Submit body uuid /\ schemaAccepts body = true /\
     orderStore (happen e w) = <[uuid := nextRef w]> (orderStore w) /\
     heap (happen e w) = <[nextRef w := created body uuid (clock w)]> (heap w) /\
     nextRef (happen e w) = S (nextRef w)) \/
  (orderStore (happen e w) = orderStore w /\ heap (happen e w) = heap w /\
   nextRef (happen e w) = nextRef w).
Proof.
  destruct e as [body uuid|orderId socket|socket|socket throws|ms]; cbn [happen].
  - destruct (schemaAccepts body) eqn:Hok; [left|by right].
    exists body, uuid. rewrite postOrdersExecute_unfold. by cbn.
  - right. rewrite wsConnect_unfold. cbn [setBroken orderStore broken].
    rewrite lookup_delete_eq. by destruct (orderStore w !! orderId).
  - right. destruct (socketClosed_fields socket w) as (_ & -> & -> & -> & _). done.
  - by right.
  - by right.
Qed.

Lemma step_keeps_entries (k : string) (l : Label) (s s' : System) :
  step l s = Some s' ->
  is_Some (orderStore (world s) !! k) -> is_Some (orderStore (world s') !! k).
Proof.
  assert (forall order from w w' c, resume order from w = (w', c) ->
            is_Some (orderStore w !! k) -> is_Some (orderStore w' !! k)) as Hresume.
  { intros order from w w' c Hrun Hk.
    destruct (decide (k = Order.id (heap w !!! order))) as [->|Hne].
    - rewrite (resume_stores _ _ _ _ _ Hrun). done.
    - by rewrite (confined_store _ _ _ (resume_confined _ _ _ _ _ Hrun) _ Hne). }
  destruct l as [e|n|order rA rB|order rDelay uuid r]; cbn [step].
  - intros [= <-]. cbn.
    destruct (happen_store e (world s)) as [(body & uuid & _ & _ & -> & _)|(-> & _)];
      [|done].
    intros Hk. destruct (decide (uuid = k)) as [->|Hne].
    + by rewrite lookup_insert_eq.
    + by rewrite lookup_insert_ne.
  - destruct (orderQueue (world s) !! n) as [job|]; [|done].
    rewrite startHandler_unfold. destruct (resume _ _ _) as [w' c] eqn:Hrun.
    destruct c; intros [= <-] Hk; cbn; (eapply Hresume; [exact Hrun|exact Hk]).
  - destruct (handlers s !! order) as [[[| |]|]|]; try done.
    destruct (resume _ _ _) as [w' c] eqn:Hrun. intros [= <-]. by eapply Hresume.
  - destruct (handlers s !! order) as [[[|dex|]|]|]; try done.
    destruct (resume _ _ _) as [w' c] eqn:Hrun. intros [= <-]. by eapply Hresume.
Qed.

(** X4.  No run removes an order from the store: an id under which the
    store holds an order is an id under which it holds one ever after. *)
Theorem orders_stay_in_store (k : string) (ls : list Label) (s s' : System) :
  is_Some (orderStore (world s) !! k) -> run ls s = Some s' ->
  is_Some (orderStore (world s') !! k).
Proof.
  revert s. induction ls as [|l ls IH]; intros s Hk; cbn [run].
  - by intros [= <-].
  - destruct (step l s) as [s1|] eqn:Hstep; [|done].
    apply IH. by eapply step_keeps_entries.
Qed.

Lemma orders_stay_in_store_on_sample :
  is_Some (orderStore (world submittedSystem) !! sampleId) /\
  is_Some (orderStore (world afterFaultAndClose) !! sampleId).
Proof.
  assert (is_Some (orderStore (world submittedSystem) !! sampleId)) as Hk
    by (by eexists).
  split; [exact Hk|].
  exact (orders_stay_in_store sampleId
           [Deliver 0; QuotesArrive 1 0.25 0.75; Outside (SocketState 7 (Some notOpen));
            SwapDone 1 0.5 sampleUuid 0.5; Outside (Closed 7)]
           submittedSystem afterFaultAndClose Hk eq_refl).
Defined.

(** The invariant of the store: its entries are keyed by the id
    of the object they point at, and the handlers' objects exist. *)
Lemma step_keeps_keys (l : Label) (s s' : System) :
  storeKeyed (world s) ->
  (forall r c, handlers s !! r = Some c -> r < nextRef (world s)) ->
  step l s = Some s' ->
  storeKeyed (world s') /\
  (forall r c, handlers s' !! r = Some c -> r < nextRef (world s')).
Proof.
  intros Hstore Hhandlers.
  assert (forall order from w w' c,
            storeKeyed w -> order < nextRef w -> resume order from w = (w', c) ->
            storeKeyed w' /\ nextRef w' = nextRef w) as Hresume.
  { intros order from w w' c Hw Horder Hrun.
    pose proof (resume_confined _ _ _ _ _ Hrun) as [_ _ [Hid _] Hother _].
    pose proof (resume_touches_only _ _ _ _ _ Hrun) as [Hn _ _ _ _ _ Hheap _ _].
    split; [|done]. intros k r Hk. rewrite Hn.
    destruct (decide (k = Order.id (heap w !!! order))) as [->|Hne].
    - rewrite (resume_stores _ _ _ _ _ Hrun) in Hk. injection Hk as <-. done.
    - rewrite (Hother _ Hne) in Hk. destruct (Hw _ _ Hk) as [Hr Hkey].
      split; [done|]. destruct (decide (r = order)) as [->|Hr'].
      + by rewrite Hid.
      + by rewrite (total_of_lookup _ _ _ (Hheap _ Hr')). }
  destruct l as [e|n|order rA rB|order rDelay uuid r]; cbn [step].
  - intros [= <-]. cbn.
    destruct (happen_store e (world s))
      as [(body & uuid & _ & _ & Hs & Hh & Hn)|(Hs & Hh & Hn)].
    + split.
      * intros k r. rewrite Hs, Hh, Hn. destruct (decide (uuid = k)) as [->|Hne].
        -- rewrite lookup_insert_eq. intros [= <-].
           rewrite lookup_total_insert_eq. split; [lia|done].
        -- rewrite lookup_insert_ne by done. intros Hk.
           destruct (Hstore _ _ Hk) as [Hr Hkey].
           rewrite lookup_total_insert_ne by lia. split; [lia|done].
      * intros r c Hr. rewrite Hn. specialize (Hhandlers _ _ Hr). lia.
    + split.
      * intros k r. rewrite Hs, Hh, Hn. apply Hstore.
      * intros r c Hr. rewrite Hn. by eapply Hhandlers.
  - destruct (orderQueue (world s) !! n) as [job|]; [|done].
    rewrite startHandler_unfold. destruct (resume _ _ _) as [w' c] eqn:Hrun.
    apply Hresume in Hrun as [Hw' Hn]; cycle 1.
    { intros k r Hk. cbn in *. destruct (Hstore _ _ Hk) as [Hr Hkey].
      rewrite lookup_total_insert_ne by lia. split; [lia|done]. }
    { cbn. lia. }
    cbn in Hn.
    assert (forall c' r c0, <[nextRef (world s) := c']> (handlers s) !! r = Some c0 ->
                            r < nextRef w') as Hh'.
    { intros c' r c0. rewrite Hn.
      destruct (decide (nextRef (world s) = r)) as [<-|Hne].
      - intros _. lia.
      - rewrite lookup_insert_ne by done. intros Hr.
        specialize (Hhandlers _ _ Hr). lia. }
    destruct c; intros [= <-]; (split; [exact Hw'|]); cbn; apply Hh'.
  - destruct (handlers s !! order) as [[[| |]|]|] eqn:Hme; try done.
    destruct (resume _ _ _) as [w' c] eqn:Hrun. intros [= <-]. cbn.
    apply Hresume in Hrun as [Hw' Hn]; [|done|by eapply Hhandlers].
    split; [done|]. intros r c0. rewrite Hn.
    destruct (decide (order = r)) as [<-|Hne].
    + intros _. by eapply Hhandlers.
    + rewrite lookup_insert_ne by done. apply Hhandlers.
  - destruct (handlers s !! order) as [[[|dex|]|]|] eqn:Hme; try done.
    destruct (resume _ _ _) as [w' c] eqn:Hrun. intros [= <-]. cbn.
    apply Hresume in Hrun as [Hw' Hn]; [|done|by eapply Hhandlers].
    split; [done|]. intros r' c0. rewrite Hn.
    destruct (decide (order = r')) as [<-|Hne].
    + intros _. by eapply Hhandlers.
    + rewrite lookup_insert_ne by done. apply Hhandlers.
Qed.

Lemma run_keeps_keys (ls : list Label) (s s' : System) :
  storeKeyed (world s) ->
  (forall r c, handlers s !! r = Some c -> r < nextRef (world s)) ->
  run ls s = Some s' -> storeKeyed (world s').
Proof.
  revert s. induction ls as [|l ls IH]; intros s Hs Hh; cbn [run].
  - by intros [= <-].
  - destruct (step l s) as [s1|] eqn:Hstep; [|done].
    destruct (step_keeps_keys _ _ _ Hs Hh Hstep) as [Hs1 Hh1]. by apply IH.
Qed.

Lemma boot_keyed (now : Z) (ls : list Label) (s : System) :
  run ls (boot now) = Some s -> storeKeyed (world s).
Proof.
  apply run_keeps_keys.
  - intros k r Hk. cbn in Hk. by rewrite lookup_empty in Hk.
  - intros r c Hr. cbn in Hr. by rewrite lookup_empty in Hr.
Qed.

(** X5.  In every run from the empty system, the order the store holds
    under a key is an existing object whose [id] is that key: a lookup by
    order id never returns another order. *)
Theorem store_keyed_by_id (now : Z) (ls : list Label) (s : System) :
  run ls (boot now) = Some s ->
  forall k r, orderStore (world s) !! k = Some r ->
    r < nextRef (world s) /\ Order.id (heap (world s) !!! r) = k.
Proof. apply boot_keyed. Qed.

Lemma store_keyed_by_id_on_late_fault :
  run lateSocketFault (boot 0) = Some afterLateSocketFault /\
  orderStore (world afterLateSocketFault) !! sampleId = Some 1 /\
  1 < nextRef (world afterLateSocketFault) /\
  Order.id (heap (world afterLateSocketFault) !!! 1) = sampleId.
Proof.
  split; [reflexivity|]. split; [reflexivity|].
  exact (store_keyed_by_id 0 lateSocketFault afterLateSocketFault eq_refl
           sampleId 1 eq_refl).
Defined.

(** ** A handler whose sockets do not throw *)

Lemma resume_returns (order : nat) (from : Resume) (w : World) :
  (forall socket, connections w !! Order.id (heap w !!! order) = Some socket ->
                  broken w !! socket = None) ->
  settledNormally from ->
  exists w' next, resume order from w = (w', Normal next).
Proof.
  intros Hh Hfrom.
  destruct from as [|[prices|e]|dex [result|e]]; try done; resume_paths; sockets;
    try (match goal with
         | Hc : connections w !! _ = Some ?x, Hb : broken w !! ?x = Some _ |- _ =>
             rewrite (Hh _ Hc) in Hb; discriminate Hb
         end);
    eauto.
Qed.

Lemma step_keeps_sockets (l : Label) (s s' : System) :
  noSendThrows l -> broken (world s) = ∅ -> step l s = Some s' ->
  broken (world s') = ∅.
Proof.
  intros Hl Hb.
  destruct l as [e|n|order rA rB|order rDelay uuid r]; cbn [step].
  - intros [= <-]. by apply happen_keeps_sockets.
  - destruct (orderQueue (world s) !! n) as [job|]; [|done].
    rewrite startHandler_unfold. destruct (resume _ _ _) as [w' c] eqn:Hrun.
    pose proof (same_broken _ _ _ _ (resume_touches_only _ _ _ _ _ Hrun)) as Hb'.
    cbn in Hb'. destruct c; intros [= <-]; cbn; congruence.
  - destruct (handlers s !! order) as [[[| |]|]|]; try done.
    destruct (resume _ _ _) as [w' c] eqn:Hrun. intros [= <-]. cbn.
    rewrite (same_broken _ _ _ _ (resume_touches_only _ _ _ _ _ Hrun)). done.
  - destruct (handlers s !! order) as [[[|dex|]|]|]; try done.
    destruct (resume _ _ _) as [w' c] eqn:Hrun. intros [= <-]. cbn.
    rewrite (same_broken _ _ _ _ (resume_touches_only _ _ _ _ _ Hrun)). done.
Qed.

Lemma run_keeps_sockets (ls : list Label) (s s' : System) :
  Forall noSendThrows ls -> broken (world s) = ∅ -> run ls s = Some s' ->
  broken (world s') = ∅.
Proof.
  revert s. induction ls as [|l ls IH]; intros s Hls Hb; cbn [run].
  - by intros [= <-].
  - apply Forall_cons in Hls as [Hl Hls].
    destruct (step l s) as [s1|] eqn:Hstep; [|done].
    apply IH; [done|]. by eapply step_keeps_sockets.
Qed.

Lemma healthy (w : World) (key : string) :
  broken w = ∅ ->
  forall socket : nat, connections w !! key = Some socket -> broken w !! socket = None.
Proof. intros -> socket _. apply lookup_empty. Qed.

(** X6.  While no socket throws on [send], a job the queue delivers is
    carried to confirmation, whatever else happens between its resumptions:
    the handler stops at the quotes, then at the swap on the venue the
    quotes select, then returns with success, and its order is then
    confirmed, with the hash of the swap as [txHash]. *)
Theorem healthy_sockets_confirm (s : System) (n : nat) (job : Job.t)
    (before after : list Label) (rRaydium rMeteora rDelay : Q) (uuid : string) (r : Q) :
  let me := nextRef (world s) in
  orderQueue (world s) !! n = Some job ->
  broken (world s) = ∅ ->
  Forall noSendThrows before -> Forall (foreign me) before ->
  Forall noSendThrows after -> Forall (foreign me) after ->
  exists s0,
    step (Deliver n) s = Some s0 /\
    handlers s0 !! me = Some (Normal AwaitQuotes) /\
    forall s1, run before s0 = Some s1 ->
    let quotes := quotesOf (heap (world s1) !!! me) rRaydium rMeteora in
    let dex := bestDex (fst quotes) (snd quotes) in
    exists s2,
      step (QuotesArrive me rRaydium rMeteora) s1 = Some s2 /\
      handlers s2 !! me = Some (Normal (AwaitSwap dex)) /\
      forall s3, run after s2 = Some s3 ->
      exists s4,
        step (SwapDone me rDelay uuid r) s3 = Some s4 /\
        handlers s4 !! me = Some (Normal (Returned true me)) /\
        Order.status (heap (world s4) !!! me) = confirmed /\
        Order.txHash (heap (world s4) !!! me) = Some (dex +:+ "_" +:+ uuid).
Proof.
  intros me Hjob Hb Hq1 Hf1 Hq2 Hf2.
  pose proof (eq_refl : me = nextRef (world s)) as Hme. clearbody me.
  (* the job is dequeued *)
  cbn [step]. rewrite Hjob, startHandler_unfold. rewrite <- Hme.
  destruct (resume_returns me Dequeued (fst (alloc (Job.order job) (world s))))
    as (w0 & next & Hrun0); [by apply healthy|done|].
  rewrite Hrun0.
  pose proof (resume_touches_only _ _ _ _ _ Hrun0) as [Hn0 _ _ Hb0 _ _ _ _ _].
  cbn in Hn0, Hb0. apply resume_dequeued_normal in Hrun0 as [-> _].
  eexists. split; [reflexivity|]. cbn [handlers world].
  split; [by rewrite lookup_insert_eq|].
  (* the quotes arrive *)
  intros s1 Hrun1.
  set (quotes := quotesOf (heap (world s1) !!! me) rRaydium rMeteora).
  set (dex := bestDex (fst quotes) (snd quotes)).
  pose proof (eq_refl : dex = bestDex (fst quotes) (snd quotes)) as Hdex.
  pose proof (eq_refl : quotes = quotesOf (heap (world s1) !!! me) rRaydium rMeteora)
    as Hquotes.
  clearbody dex. clearbody quotes.
  assert (me < nextRef w0) as Hme0 by lia.
  destruct (run_foreign me _ (mkSystem w0 _) _ Hf1 Hme0 Hrun1) as [[Hn1 _ _] Hh1].
  cbn in Hn1, Hh1. rewrite lookup_insert_eq in Hh1.
  pose proof (run_keeps_sockets _ (mkSystem w0 _) _ Hq1 (eq_trans Hb0 Hb) Hrun1) as Hb1.
  cbn [step]. rewrite Hh1.
  destruct (resume_returns me (QuotesSettled (Normal quotes)) (world s1))
    as (w2 & next & Hrun2); [by apply healthy|done|].
  rewrite Hrun2.
  pose proof (resume_touches_only _ _ _ _ _ Hrun2) as [Hn2 _ _ Hb2 _ _ _ _ _].
  apply resume_quotes_normal in Hrun2 as [-> _]. rewrite <- Hdex.
  eexists. split; [reflexivity|]. cbn [handlers world].
  split; [by rewrite lookup_insert_eq|].
  (* the swap is done *)
  intros s3 Hrun3.
  assert (me < nextRef w2) as Hme2 by lia.
  destruct (run_foreign me _ (mkSystem w2 _) _ Hf2 Hme2 Hrun3) as [[Hn3 _ _] Hh3].
  cbn in Hn3, Hh3. rewrite lookup_insert_eq in Hh3.
  pose proof (run_keeps_sockets _ (mkSystem w2 _) _ Hq2 (eq_trans Hb2 Hb1) Hrun3) as Hb3.
  cbn [step]. rewrite Hh3.
  destruct (resume_returns me
              (SwapSettled dex
                 (Normal (MockDexRouter.executeSwap dex (heap (world s3) !!! me) rDelay uuid r)))
              (world s3))
    as (w4 & next & Hrun4); [by apply healthy|done|].
  rewrite Hrun4.
  apply resume_swap_normal in Hrun4 as [-> ->].
  eexists. split; [reflexivity|]. cbn [handlers world].
  split; [by rewrite lookup_insert_eq|].
  read_world. done.
Qed.

Lemma healthy_sockets_confirm_on_sample :
  orderQueue (world submittedSystem) !! 0 = Some sampleJob /\
  broken (world submittedSystem) = ∅ /\
  exists s0 s2 s4,
    step (Deliver 0) submittedSystem = Some s0 /\
    run [Outside (Elapse 200)] s0 = Some routingSystem /\
    step (QuotesArrive 1 0.25 0.75) routingSystem = Some s2 /\
    run [Outside (Elapse 2500)] s2 = Some submittedToVenue /\
    step (SwapDone 1 0.5 sampleUuid 0.5) submittedToVenue = Some s4 /\
    handlers s4 !! 1 = Some (Normal (Returned true 1)) /\
    Order.status (heap (world s4) !!! 1) = confirmed /\
    Order.txHash (heap (world s4) !!! 1) = Some ("raydium_" +:+ sampleUuid).
Proof.
  split; [reflexivity|]. split; [reflexivity|].
  destruct (healthy_sockets_confirm submittedSystem 0 sampleJob
              [Outside (Elapse 200)] [Outside (Elapse 2500)] 0.25 0.75 0.5 sampleUuid 0.5
              eq_refl eq_refl)
    as (s0 & Hstep0 & _ & Hnext); try (by repeat constructor).
  pose proof Hstep0 as Hs0. vm_compute in Hs0. injection Hs0 as Hs0.
  destruct (Hnext routingSystem) as (s2 & Hstep2 & _ & Hlast);
    [by rewrite <- Hs0|].
  pose proof Hstep2 as Hs2. vm_compute in Hs2. injection Hs2 as Hs2.
  destruct (Hlast submittedToVenue) as (s4 & Hstep4 & Hh4 & Hstatus & Htx);
    [by rewrite <- Hs2|].
  exists s0, s2, s4.
  split; [exact Hstep0|]. split; [by rewrite <- Hs0|].
  split; [exact Hstep2|]. split; [by rewrite <- Hs2|].
  split; [exact Hstep4|]. split; [exact Hh4|]. split; [exact Hstatus|].
  exact Htx.
Defined.

(** ** A job delivered again *)

(** X7.  A delivery does not look at the store: whatever the store holds
    under the id of the job's order, a failed or a confirmed order of an
    earlier delivery included, the handler overwrites it with a fresh copy
    of the job's payload in status 'routing', and the job stays in the
    queue.  (The socket bound to the id, if there is one, is taken not to
    throw.) *)
Theorem redelivery_overwrites (s : System) (n : nat) (job : Job.t) :
  let me := nextRef (world s) in
  let id := Order.id (Job.order job) in
  orderQueue (world s) !! n = Some job ->
  (forall socket, connections (world s) !! id = Some socket ->
                  broken (world s) !! socket = None) ->
  exists s',
    step (Deliver n) s = Some s' /\
    handlers s' !! me = Some (Normal AwaitQuotes) /\
    orderStore (world s') !! id = Some me /\
    heap (world s') !!! me = moved routing (clock (world s)) (Job.order job) /\
    orderQueue (world s') = orderQueue (world s).
Proof.
  intros me id Hjob Hh.
  cbn [step]. rewrite Hjob, startHandler_unfold. fold me.
  destruct (resume_returns me Dequeued (fst (alloc (Job.order job) (world s))))
    as (w' & next & Hrun); [|done|].
  { cbn. unfold me. rewrite lookup_total_insert_eq. exact Hh. }
  rewrite Hrun. apply resume_dequeued_normal in Hrun as [-> ->].
  eexists. split; [reflexivity|]. cbn [handlers world].
  split; [by rewrite lookup_insert_eq|].
  read_world. cbn. unfold me. rewrite !lookup_total_insert_eq. cbn.
  split; [by rewrite lookup_insert_eq|]. done.
Qed.

Lemma redelivery_overwrites_failed_order :
  orderStore (world afterFaultAndClose) !! sampleId = Some 1 /\
  Order.status (heap (world afterFaultAndClose) !!! 1) = failed /\
  orderQueue (world afterFaultAndClose) !! 0 = Some sampleJob /\
  exists s',
    step (Deliver 0) afterFaultAndClose = Some s' /\
    handlers s' !! 2 = Some (Normal AwaitQuotes) /\
    orderStore (world s') !! sampleId = Some 2 /\
    heap (world s') !!! 2 = moved routing 0 sampleOrder /\
    orderQueue (world s') = orderQueue (world afterFaultAndClose).
Proof.
  split; [reflexivity|]. split; [reflexivity|]. split; [reflexivity|].
  apply (redelivery_overwrites afterFaultAndClose 0 sampleJob eq_refl).
  intros socket H. vm_compute in H. discriminate H.
Defined.

(** ** Sockets that close *)

Lemma listeners_unbind (socket : nat) (ls : list (nat * string)) (w : World) (k : string) :
  connections
    (fold_left
       (fun w' l => if Nat.eqb (fst l) socket then fst (connections_delete (snd l) w') else w')
       ls w) !! k =
  if bool_decide ((socket, k) ∈ ls) then None else connections w !! k.
Proof.
  revert w. induction ls as [|[s' k'] ls IH]; intros w; cbn [fold_left].
  - done.
  - rewrite IH. cbn [fst snd].
    destruct (Nat.eqb_spec s' socket) as [->|Hs].
    + cbn. destruct (decide (k' = k)) as [->|Hk].
      * rewrite lookup_delete_eq.
        rewrite (bool_decide_eq_true_2 ((socket, k) ∈ (socket, k) :: ls))
          by apply list_elem_of_here.
        by destruct (bool_decide _).
      * rewrite lookup_delete_ne by done.
        apply (f_equal (fun b : bool => if b then None else connections w !! k)).
        apply bool_decide_ext. rewrite elem_of_cons. split; [tauto|].
        intros [Heq|?]; [congruence|done].
    + apply (f_equal (fun b : bool => if b then None else connections w !! k)).
      apply bool_decide_ext. rewrite elem_of_cons. split; [tauto|].
      intros [Heq|?]; [congruence|done].
Qed.

(** X8.  When a socket closes, the registry loses the binding of every
    order id for which that socket once connected, whichever socket is
    bound to the id by then, and keeps every other binding; nothing else in
    the process changes. *)
Theorem close_unbinds_registered_ids (socket : nat) (w : World) :
  let w' := happen (Closed socket) w in
  (forall k, connections w' !! k =
             if bool_decide ((socket, k) ∈ closeListeners w) then None
             else connections w !! k) /\
  sameButRegistry w w'.
Proof.
  split; [|apply socketClosed_fields].
  intros k. apply listeners_unbind.
Qed.

Lemma step_keeps_listeners (l : Label) (s s' : System) (x : nat * string) :
  step l s = Some s' ->
  x ∈ closeListeners (world s) -> x ∈ closeListeners (world s').
Proof.
  destruct l as [e|n|order rA rB|order rDelay uuid r]; cbn [step].
  - intros [= <-]. cbn [world].
    destruct e as [body uuid|orderId socket|socket|socket throws|ms]; cbn [happen];
      try done.
    + destruct (schemaAccepts body); [|done]. by rewrite postOrdersExecute_unfold.
    + rewrite wsConnect_unfold. cbn [setBroken orderStore broken].
      rewrite lookup_delete_eq. destruct (orderStore (world s) !! orderId); cbn;
        intros Hx; apply elem_of_app; by left.
    + by destruct (socketClosed_fields socket (world s)) as (_ & _ & _ & _ & _ & -> & _).
  - destruct (orderQueue (world s) !! n) as [job|]; [|done].
    rewrite startHandler_unfold. destruct (resume _ _ _) as [w' c] eqn:Hrun.
    pose proof (same_listeners _ _ _ _ (resume_touches_only _ _ _ _ _ Hrun)) as Hl.
    cbn in Hl. destruct c; intros [= <-]; cbn; by rewrite Hl.
  - destruct (handlers s !! order) as [[[| |]|]|]; try done.
    destruct (resume _ _ _) as [w' c] eqn:Hrun. intros [= <-]. cbn.
    by rewrite (same_listeners _ _ _ _ (resume_touches_only _ _ _ _ _ Hrun)).
  - destruct (handlers s !! order) as [[[|dex|]|]|]; try done.
    destruct (resume _ _ _) as [w' c] eqn:Hrun. intros [= <-]. cbn.
    by rewrite (same_listeners _ _ _ _ (resume_touches_only _ _ _ _ _ Hrun)).
Qed.

Lemma run_keeps_listeners (ls : list Label) (s s' : System) (x : nat * string) :
  run ls s = Some s' ->
  x ∈ closeListeners (world s) -> x ∈ closeListeners (world s').
Proof.
  revert s. induction ls as [|l ls IH]; intros s; cbn [run].
  - by intros [= <-].
  - destruct (step l s) as [s1|] eqn:Hstep; [|done]. intros Hrun Hx.
    apply (IH _ Hrun). by eapply step_keeps_listeners.
Qed.

Lemma connect_listens (orderId : string) (socket : nat) (w : World) :
  (socket, orderId) ∈ closeListeners (happen (Connect orderId socket) w).
Proof.
  cbn [happen]. rewrite wsConnect_unfold. cbn [setBroken orderStore broken].
  rewrite lookup_delete_eq. destruct (orderStore w !! orderId); cbn;
    apply elem_of_app; right; apply list_elem_of_here.
Qed.

(** X9.  The close listener deletes by order id, not by socket: once a
    socket has connected for an order id, its closing leaves the id unbound
    whatever has happened since, so a client that has connected again on a
    new socket stops receiving the events of the order when its old socket
    closes. *)
Theorem stale_close_unbinds_new_socket (orderId : string) (old : nat)
    (ls : list Label) (s s' : System) :
  run (Outside (Connect orderId old) :: ls) s = Some s' ->
  connections (happen (Closed old) (world s')) !! orderId = None.
Proof.
  cbn [run step]. intros Hrun.
  pose proof (run_keeps_listeners _ _ _ _ Hrun (connect_listens orderId old (world s)))
    as Hx.
  cbn [happen socketClosed fst]. rewrite listeners_unbind.
  by rewrite bool_decide_eq_true_2.
Qed.

Lemma stale_close_unbinds_new_socket_on_reconnect :
  run [Outside (Connect sampleId 7); Outside (Connect sampleId 8)] acceptedSystem
    = Some reconnected /\
  connections (world reconnected) !! sampleId = Some 8 /\
  connections (happen (Closed 7) (world reconnected)) !! sampleId = None.
Proof.
  split; [reflexivity|]. split; [reflexivity|].
  exact (stale_close_unbinds_new_socket sampleId 7 [Outside (Connect sampleId 8)]
           acceptedSystem reconnected eq_refl).
Defined.

(** X10.  The WebSocket route registers the close listener after it has
    sent the snapshot.  If that [send] throws, the route throws with the
    socket bound to the order id and no listener registered, so the closing
    of the socket does not remove the binding. *)
Theorem failed_snapshot_leaves_binding (orderId : string) (socket order : nat)
    (e : Thrown) (w : World) :
  orderStore w !! orderId = Some order ->
  broken w !! socket = Some e ->
  (socket, orderId) ∉ closeListeners w ->
  exists w',
    wsConnect orderId socket w = (w', Throw e) /\
    connections w' !! orderId = Some socket /\
    closeListeners w' = closeListeners w /\
    connections (fst (socketClosed socket w')) !! orderId = Some socket.
Proof.
  intros Horder Hb Hl. rewrite wsConnect_unfold, Horder, Hb.
  eexists. split; [reflexivity|]. cbn.
  split; [by rewrite lookup_insert_eq|]. split; [done|].
  rewrite listeners_unbind. cbn.
  rewrite bool_decide_eq_false_2 by done. by rewrite lookup_insert_eq.
Qed.

Lemma failed_snapshot_leaves_binding_on_sample :
  orderStore unopenedSocketWorld !! sampleId = Some 0 /\
  broken unopenedSocketWorld !! 9 = Some notOpen /\
  ((9, sampleId) ∉ closeListeners unopenedSocketWorld) /\
  exists w',
    wsConnect sampleId 9 unopenedSocketWorld = (w', Throw notOpen) /\
    connections w' !! sampleId = Some 9 /\
    closeListeners w' = closeListeners unopenedSocketWorld /\
    connections (fst (socketClosed 9 w')) !! sampleId = Some 9.
Proof.
  assert ((9, sampleId) ∉ closeListeners unopenedSocketWorld) as Hl
    by (cbn; apply not_elem_of_nil).
  split; [reflexivity|]. split; [reflexivity|]. split; [exact Hl|].
  exact (failed_snapshot_leaves_binding sampleId 9 0 notOpen unopenedSocketWorld
           eq_refl eq_refl Hl).
Defined.

(** ** Rounding to binary64 *)

Section Rounding.
Local Open Scope Q_scope.

Lemma nearestEven_bounds (x : Q) :
  (Qfloor x <= Binary64.nearestEven x <= Qfloor x + 1)%Z.
Proof.
  unfold Binary64.nearestEven. cbn zeta.
  destruct (_ ?= _); [destruct (Z.even _)|..]; lia.
Qed.

Lemma nearestEven_Z (n : Z) : Binary64.nearestEven (inject_Z n) = n.
Proof.
  unfold Binary64.nearestEven. cbn zeta. rewrite Qfloor_Z.
  destruct (Qcompare_spec (inject_Z n - inject_Z n) (1 # 2)) as [H|H|H];
    [exfalso; lra|done|exfalso; lra].
Qed.

Lemma nearestEven_mono (x y : Q) :
  x <= y -> (Binary64.nearestEven x <= Binary64.nearestEven y)%Z.
Proof.
  intros Hxy. pose proof (Qfloor_resp_le _ _ Hxy) as Hf.
  destruct (Z.eq_dec (Qfloor x) (Qfloor y)) as [Heq|Hne].
  - unfold Binary64.nearestEven; cbn zeta. rewrite <- Heq.
    destruct (Qcompare_spec (x - inject_Z (Qfloor x)) (1 # 2)) as [Hx|Hx|Hx];
      destruct (Qcompare_spec (y - inject_Z (Qfloor x)) (1 # 2)) as [Hy|Hy|Hy];
      try lia; try (destruct (Z.even _); lia); exfalso; lra.
  - pose proof (nearestEven_bounds x). pose proof (nearestEven_bounds y). lia.
Qed.

Lemma two_pow_pos (k : Z) : 0 < 2 ^ k.
Proof. apply Qpower_0_lt. lra. Qed.

Lemma inject_two_pow (n : Z) : (0 <= n)%Z -> inject_Z (2 ^ n) == 2 ^ n.
Proof. intros Hn. by rewrite (Zpower_Qpower 2 n). Qed.

Lemma two_pow_add (n m : Z) : 2 ^ n * 2 ^ m == 2 ^ (n + m).
Proof. rewrite Qpower_plus; [reflexivity|]. lra. Qed.

Lemma inv_le_of (x p : Q) : 0 < x -> 0 < p -> / x <= p -> / p <= x.
Proof.
  intros Hx Hp H. apply Qle_lteq in H as [H|H].
  - apply Qlt_le_weak. apply Qinv_lt_contravar in H;
      [|by apply Qinv_lt_0_compat|done].
    by rewrite Qinv_involutive in H.
  - rewrite <- H, Qinv_involutive. apply Qle_refl.
Qed.

Lemma inv_lt_of (x p : Q) : 0 < x -> 0 < p -> p < / x -> x < / p.
Proof.
  intros Hx Hp H. apply Qinv_lt_contravar in H;
    [|done|by apply Qinv_lt_0_compat].
  by rewrite Qinv_involutive in H.
Qed.

(** [Binary64.exponent] is the exponent. *)
Lemma exponent_spec (x : Q) :
  0 < x -> 2 ^ Binary64.exponent x <= x /\ x < 2 ^ (Binary64.exponent x + 1).
Proof.
  intros Hx. unfold Binary64.exponent.
  destruct (Qle_bool 1 x) eqn:Hone.
  - apply Qle_bool_iff in Hone.
    assert (1 <= Qfloor x)%Z as Hf by (apply (Qfloor_resp_le 1 x Hone)).
    destruct (Z.log2_spec (Qfloor x)) as [Hlo Hhi]; [lia|].
    pose proof (Z.log2_nonneg (Qfloor x)) as He.
    split.
    + rewrite <- inject_two_pow by done.
      eapply Qle_trans; [|apply Qfloor_le]. by rewrite <- Zle_Qle.
    + rewrite <- inject_two_pow by lia.
      eapply Qlt_le_trans; [apply Qlt_floor|]. rewrite <- Zle_Qle.
      change (Z.succ (Z.log2 (Qfloor x))) with (Z.log2 (Qfloor x) + 1)%Z in Hhi. lia.
  - assert (x < 1) as Hlt.
    { apply Qnot_le_lt. intros H. apply Qle_bool_iff in H. congruence. }
    assert (1 < / x) as Ht.
    { apply (Qinv_lt_contravar x 1) in Hlt; [|done|lra]. exact Hlt. }
    pose proof (Qle_ceiling (/ x)) as Hc. pose proof (Qceiling_lt (/ x)) as Hc'.
    assert (1 < Qceiling (/ x))%Z as Hc1.
    { rewrite Zlt_Qlt. eapply Qlt_le_trans; [exact Ht|exact Hc]. }
    destruct (Z.log2_up_spec (Qceiling (/ x)) Hc1) as [Hlo Hhi].
    pose proof (Z.log2_up_pos _ Hc1) as Hn.
    split.
    + rewrite Qpower_opp. apply inv_le_of; [done|apply two_pow_pos|].
      eapply Qle_trans; [exact Hc|]. rewrite <- inject_two_pow by lia.
      by rewrite <- Zle_Qle.
    + replace (- Z.log2_up (Qceiling (/ x)) + 1)%Z
        with (- Z.pred (Z.log2_up (Qceiling (/ x))))%Z by lia.
      rewrite Qpower_opp. apply inv_lt_of; [done|apply two_pow_pos|].
      eapply Qle_lt_trans; [|exact Hc']. rewrite <- inject_two_pow by lia.
      rewrite <- Zle_Qle. lia.
Qed.

Lemma exponent_mono (x y : Q) :
  0 < x -> x <= y -> (Binary64.exponent x <= Binary64.exponent y)%Z.
Proof.
  intros Hx Hxy.
  destruct (exponent_spec x Hx) as [Hlo _].
  destruct (exponent_spec y) as [_ Hhi]; [lra|].
  destruct (Z.le_gt_cases (Binary64.exponent x) (Binary64.exponent y)) as [|Hgt]; [done|].
  exfalso.
  assert (2 ^ (Binary64.exponent y + 1) <= 2 ^ Binary64.exponent x) as Hpow
    by (apply Qpower_le_compat_l; [lia|lra]).
  lra.
Qed.

(** A rounded number stays in the closure of its binade. *)
Lemma roundPositive_bounds (x : Q) :
  0 < x ->
  2 ^ Binary64.exponent x <= Binary64.roundPositive x /\
  Binary64.roundPositive x <= 2 ^ (Binary64.exponent x + 1).
Proof.
  intros Hx. destruct (exponent_spec x Hx) as [Hlo Hhi].
  unfold Binary64.roundPositive. cbn zeta.
  set (e := Binary64.exponent x) in *.
  pose proof (two_pow_pos (52 - e)) as Hp.
  pose proof (two_pow_pos (e - 52)) as Hq.
  assert (inject_Z (2 ^ 52) <= x * 2 ^ (52 - e)) as Hslo.
  { rewrite inject_two_pow by lia.
    setoid_replace (2 ^ 52) with (2 ^ e * 2 ^ (52 - e)) using relation Qeq.
    - apply Qmult_le_compat_r; [done|lra].
    - rewrite two_pow_add. by replace (e + (52 - e))%Z with 52%Z by lia. }
  assert (x * 2 ^ (52 - e) <= inject_Z (2 ^ 53)) as Hshi.
  { rewrite inject_two_pow by lia.
    setoid_replace (2 ^ 53) with (2 ^ (e + 1) * 2 ^ (52 - e)) using relation Qeq.
    - apply Qmult_le_compat_r; lra.
    - rewrite two_pow_add. by replace (e + 1 + (52 - e))%Z with 53%Z by lia. }
  apply nearestEven_mono in Hslo, Hshi. rewrite nearestEven_Z in Hslo, Hshi.
  split.
  - setoid_replace (2 ^ e) with (inject_Z (2 ^ 52) * 2 ^ (e - 52)) using relation Qeq.
    + apply Qmult_le_compat_r; [by rewrite <- Zle_Qle|lra].
    + rewrite inject_two_pow by lia. rewrite two_pow_add.
      by replace (52 + (e - 52))%Z with e by lia.
  - setoid_replace (2 ^ (e + 1)) with (inject_Z (2 ^ 53) * 2 ^ (e - 52))
      using relation Qeq.
    + apply Qmult_le_compat_r; [by rewrite <- Zle_Qle|lra].
    + rewrite inject_two_pow by lia. rewrite two_pow_add.
      by replace (53 + (e - 52))%Z with (e + 1)%Z by lia.
Qed.

Lemma roundPositive_mono (x y : Q) :
  0 < x -> x <= y -> Binary64.roundPositive x <= Binary64.roundPositive y.
Proof.
  intros Hx Hxy. assert (0 < y) as Hy by lra.
  pose proof (exponent_mono x y Hx Hxy) as He.
  destruct (Z.eq_dec (Binary64.exponent x) (Binary64.exponent y)) as [Heq|Hne].
  - unfold Binary64.roundPositive. cbn zeta. rewrite Heq.
    pose proof (two_pow_pos (52 - Binary64.exponent y)).
    pose proof (two_pow_pos (Binary64.exponent y - 52)).
    apply Qmult_le_compat_r; [|lra]. rewrite <- Zle_Qle.
    apply nearestEven_mono. apply Qmult_le_compat_r; [done|lra].
  - destruct (roundPositive_bounds x Hx) as [_ Hhi].
    destruct (roundPositive_bounds y Hy) as [Hlo _].
    assert (2 ^ (Binary64.exponent x + 1) <= 2 ^ Binary64.exponent y) as Hpow
      by (apply Qpower_le_compat_l; [lia|lra]).
    lra.
Qed.

Lemma roundPositive_pos (x : Q) : 0 < x -> 0 < Binary64.roundPositive x.
Proof.
  intros Hx. destruct (roundPositive_bounds x Hx) as [Hlo _].
  pose proof (two_pow_pos (Binary64.exponent x)). lra.
Qed.

(** Rounding to binary64 is monotone. *)
Lemma round_mono (x y : Q) : x <= y -> Binary64.round x <= Binary64.round y.
Proof.
  intros Hxy. unfold Binary64.round.
  destruct (Qcompare_spec x 0) as [Hx|Hx|Hx];
    destruct (Qcompare_spec y 0) as [Hy|Hy|Hy]; try (exfalso; lra).
  - lra.
  - pose proof (roundPositive_pos y Hy). lra.
  - assert (0 < - x) as Hx' by lra. pose proof (roundPositive_pos _ Hx'). lra.
  - assert (0 < - y) as Hy' by lra.
    pose proof (roundPositive_mono (- y) (- x) Hy'). lra.
  - assert (0 < - x) as Hx' by lra. pose proof (roundPositive_pos _ Hx').
    pose proof (roundPositive_pos y Hy). lra.
  - by apply roundPositive_mono.
Qed.

(** The integers of the router are doubles. *)
Lemma round_0 : Binary64.round 0 == 0.
Proof. reflexivity. Qed.

Lemma round_1000 : Binary64.round 1000 == 1000.
Proof. vm_compute. reflexivity. Qed.

Lemma round_2000 : Binary64.round 2000 == 2000.
Proof. vm_compute. reflexivity. Qed.

Lemma round_3000 : Binary64.round 3000 == 3000.
Proof. vm_compute. reflexivity. Qed.

Lemma literal_nonneg : 0 <= Binary64.round 0.06.
Proof. vm_compute. discriminate. Qed.

(** A quote grows with its draw, rounding included. *)
Lemma quote64_mono (r r' : Q) :
  r <= r' ->
  Binary64.round
    (100 * Binary64.round
             (1 + Binary64.round
                    (Binary64.round (r * Binary64.round 0.06) - Binary64.round 0.03)))
  <= Binary64.round
       (100 * Binary64.round
                (1 + Binary64.round
                       (Binary64.round (r' * Binary64.round 0.06) - Binary64.round 0.03))).
Proof.
  intros Hr. apply round_mono. apply Qmult_le_l; [lra|].
  apply round_mono. apply Qplus_le_r.
  apply round_mono. unfold Qminus. apply Qplus_le_l.
  apply round_mono. apply Qmult_le_compat_r; [exact Hr|exact literal_nonneg].
Qed.

End Rounding.

(** ** The venue and the delay *)

(** X11.  The venue the quotes select depends on the two draws of
    [Math.random()] only, not on the order, and follows them as far as
    rounding allows: Raydium is selected whenever the draw of its quote is
    at most the draw of the Meteora quote, so Meteora is selected only when
    its draw is the smaller one.  The quotes are the doubles the code
    computes. *)
Theorem venue_follows_draws (o : Order.t) (rRaydium rMeteora : Q) :
  let quotes := quotesOf64 o rRaydium rMeteora in
  ((rRaydium <= rMeteora)%Q -> bestDex (fst quotes) (snd quotes) = "raydium") /\
  (bestDex (fst quotes) (snd quotes) = "meteora" -> (rMeteora < rRaydium)%Q) /\
  forall o' : Order.t, quotesOf64 o' rRaydium rMeteora = quotes.
Proof.
  cbn zeta.
  assert ((rRaydium <= rMeteora)%Q ->
          bestDex (fst (quotesOf64 o rRaydium rMeteora))
            (snd (quotesOf64 o rRaydium rMeteora)) = "raydium") as Hle.
  { intros Hr. apply bestDex_raydium. by apply quote64_mono. }
  split; [exact Hle|]. split; [|done].
  intros Hm. apply Qnot_le_lt. intros Hr. rewrite (Hle Hr) in Hm. discriminate Hm.
Qed.

Lemma venue_follows_draws_on_samples :
  (0.25 <= 0.75)%Q /\
  bestDex (fst (quotesOf64 sampleOrder 0.25 0.75)) (snd (quotesOf64 sampleOrder 0.25 0.75))
    = "raydium" /\
  bestDex (fst (quotesOf64 sampleOrder 0.75 0.25)) (snd (quotesOf64 sampleOrder 0.75 0.25))
    = "meteora" /\
  (0.25 < 0.75)%Q.
Proof.
  assert (0.25 <= 0.75)%Q as Hr by lra.
  assert (bestDex (fst (quotesOf64 sampleOrder 0.75 0.25))
            (snd (quotesOf64 sampleOrder 0.75 0.25)) = "meteora") as Hm
    by (vm_compute; reflexivity).
  destruct (venue_follows_draws sampleOrder 0.25 0.75) as (Hle & _ & _).
  destruct (venue_follows_draws sampleOrder 0.75 0.25) as (_ & Hlt & _).
  split; [exact Hr|]. split; [exact (Hle Hr)|]. split; [exact Hm|]. exact (Hlt Hm).
Defined.

(** The order of the draws does not decide alone: the two draws next to
    one half give the same quote, 100, and the tie goes to Raydium although
    its draw is the larger one. *)
Example equal_quotes_from_distinct_draws :
  let quotes := quotesOf64 sampleOrder aboveHalf (1 # 2) in
  ((1 # 2) < aboveHalf)%Q /\
  (fst quotes == 100)%Q /\ (snd quotes == 100)%Q /\
  bestDex (fst quotes) (snd quotes) = "raydium".
Proof. vm_compute. by repeat split. Qed.

(** X12.  For a draw of [Math.random()], [executeSwap] waits at least
    2000 ms and at most 3000 ms; the sum is rounded, so 3000 is not
    excluded. *)
Theorem swap_delay_bounds (rDelay : Q) :
  unitDraw rDelay ->
  (2000 <= MockDexRouter64.swapDelay rDelay)%Q /\
  (MockDexRouter64.swapDelay rDelay <= 3000)%Q.
Proof.
  unfold unitDraw, MockDexRouter64.swapDelay. intros [Hlo Hhi].
  pose proof round_0 as E0. pose proof round_1000 as E1.
  pose proof round_2000 as E2. pose proof round_3000 as E3.
  assert (0 <= Binary64.round (rDelay * 1000))%Q as Hlow.
  { pose proof (round_mono 0 (rDelay * 1000)) as H. lra. }
  assert (Binary64.round (rDelay * 1000) <= 1000)%Q as Hhigh.
  { pose proof (round_mono (rDelay * 1000) 1000) as H. lra. }
  split.
  - pose proof (round_mono 2000 (2000 + Binary64.round (rDelay * 1000))) as H. lra.
  - pose proof (round_mono (2000 + Binary64.round (rDelay * 1000)) 3000) as H. lra.
Qed.

Lemma swap_delay_bounds_at_half :
  unitDraw 0.5 /\
  (2000 <= MockDexRouter64.swapDelay 0.5)%Q /\ (MockDexRouter64.swapDelay 0.5 <= 3000)%Q.
Proof.
  assert (unitDraw 0.5) as Hr by (unfold unitDraw; split; lra).
  split; [exact Hr|]. exact (swap_delay_bounds 0.5 Hr).
Defined.

(** With the largest draw the delay is 3000 ms. *)
Example swap_delay_reaches_3000 :
  unitDraw largestDraw /\ (MockDexRouter64.swapDelay largestDraw == 3000)%Q.
Proof. vm_compute. by repeat split. Qed.

(** ** The schema, carried to the store *)

Lemma validRequest_same (o o' : Order.t) :
  sameRequest o o' -> validRequest o -> validRequest o'.
Proof.
  unfold sameRequest, validRequest. intros (_ & -> & -> & -> & _). done.
Qed.

Lemma created_valid (body : OrderRequest.t) (uuid : string) (now : Z) :
  schemaAccepts body = true -> validRequest (created body uuid now).
Proof.
  unfold schemaAccepts, validRequest. intros H.
  apply andb_true_iff in H as [Hlo Hhi].
  apply Qle_bool_iff in Hlo. apply Qle_bool_iff in Hhi. cbn.
  split; [done|]. split; [done|].
  split; [destruct (OrderRequest.tokenIn body)|destruct (OrderRequest.tokenOut body)];
    apply list_elem_of_In; cbn; tauto.
Qed.

Lemma happen_queue (e : Event) (w : World) :
  (exists body uuid,
     e = Submit body uuid /\ schemaAccepts body = true /\
     orderQueue (happen e w) =
       orderQueue w ++ [Job.mk "execute_order" (created body uuid (clock w)) retryPolicy]) \/
  (isAccepted (Outside e) = false /\ orderQueue (happen e w) = orderQueue w).
Proof.
  destruct e as [body uuid|orderId socket|socket|socket throws|ms]; cbn [happen isAccepted].
  - destruct (schemaAccepts body) eqn:Hok; [left|by right].
    exists body, uuid. rewrite postOrdersExecute_unfold. by cbn.
  - right. rewrite wsConnect_unfold. cbn [setBroken orderStore broken].
    rewrite lookup_delete_eq. by destruct (orderStore w !! orderId).
  - right. by destruct (socketClosed_fields socket w) as (_ & _ & _ & _ & _ & _ & -> & _).
  - by right.
  - by right.
Qed.

(** Every object and every job payload is as the schema has it. *)
Lemma step_keeps_valid (l : Label) (s s' : System) :
  (forall r, r < nextRef (world s) -> validRequest (heap (world s) !!! r)) ->
  Forall (fun j => validRequest (Job.order j)) (orderQueue (world s)) ->
  step l s = Some s' ->
  (forall r, r < nextRef (world s') -> validRequest (heap (world s') !!! r)) /\
  Forall (fun j => validRequest (Job.order j)) (orderQueue (world s')).
Proof.
  intros Hheap Hqueue.
  assert (forall order from w w' c,
            (forall r, r < nextRef w -> validRequest (heap w !!! r)) ->
            Forall (fun j => validRequest (Job.order j)) (orderQueue w) ->
            resume order from w = (w', c) ->
            (forall r, r < nextRef w' -> validRequest (heap w' !!! r)) /\
            Forall (fun j => validRequest (Job.order j)) (orderQueue w')) as Hresume.
  { intros order from w w' c Hw Hq Hrun.
    pose proof (resume_confined _ _ _ _ _ Hrun) as [_ _ Hobj _ _].
    pose proof (resume_touches_only _ _ _ _ _ Hrun) as [Hn _ _ _ _ Hq' Hh _ _].
    rewrite Hn, Hq'. split; [|done]. intros r Hr.
    destruct (decide (r = order)) as [->|Hne].
    - eapply validRequest_same; [exact Hobj|by apply Hw].
    - rewrite (total_of_lookup _ _ _ (Hh _ Hne)). by apply Hw. }
  destruct l as [e|n|order rA rB|order rDelay uuid r]; cbn [step].
  - intros [= <-]. cbn [world]. split.
    + destruct (happen_store e (world s))
        as [(body & uuid & _ & Hok & _ & -> & ->)|(_ & -> & ->)]; [|done].
      intros r Hr. destruct (decide (r = nextRef (world s))) as [->|Hne].
      * rewrite lookup_total_insert_eq. by apply created_valid.
      * rewrite lookup_total_insert_ne by done. apply Hheap. lia.
    + destruct (happen_queue e (world s)) as [(body & uuid & _ & Hok & ->)|(_ & ->)];
        [|done].
      apply Forall_app. split; [done|]. constructor; [|done]. by apply created_valid.
  - destruct (orderQueue (world s) !! n) as [job|] eqn:Hjob; [|done].
    rewrite startHandler_unfold. destruct (resume _ _ _) as [w' c] eqn:Hrun.
    apply Hresume in Hrun; cycle 1.
    { cbn. intros r Hr. destruct (decide (r = nextRef (world s))) as [->|Hne].
      - rewrite lookup_total_insert_eq.
        rewrite Forall_lookup in Hqueue. by apply (Hqueue _ _ Hjob).
      - rewrite lookup_total_insert_ne by done. apply Hheap. lia. }
    { done. }
    destruct c; intros [= <-]; exact Hrun.
  - destruct (handlers s !! order) as [[[| |]|]|]; try done.
    destruct (resume _ _ _) as [w' c] eqn:Hrun. intros [= <-]. by eapply Hresume.
  - destruct (handlers s !! order) as [[[|dex|]|]|]; try done.
    destruct (resume _ _ _) as [w' c] eqn:Hrun. intros [= <-]. by eapply Hresume.
Qed.

Lemma run_keeps_valid (ls : list Label) (s s' : System) :
  (forall r, r < nextRef (world s) -> validRequest (heap (world s) !!! r)) ->
  Forall (fun j => validRequest (Job.order j)) (orderQueue (world s)) ->
  run ls s = Some s' ->
  forall r, r < nextRef (world s') -> validRequest (heap (world s') !!! r).
Proof.
  revert s. induction ls as [|l ls IH]; intros s Hh Hq; cbn [run].
  - by intros [= <-].
  - destruct (step l s) as [s1|] eqn:Hstep; [|done].
    destruct (step_keeps_valid _ _ _ Hh Hq Hstep) as [Hh1 Hq1]. by apply IH.
Qed.

(** X13.  In every run from the empty system, every order the store holds
    has the members the schema of the submission route let through: an
    [amount] from 0.000001 to 1000000, both included, and [tokenIn] and
    [tokenOut] among SOL, USDC, USDT and ETH. *)
Theorem stored_orders_respect_schema (now : Z) (ls : list Label) (s : System) :
  run ls (boot now) = Some s ->
  forall k r, orderStore (world s) !! k = Some r ->
    validRequest (heap (world s) !!! r).
Proof.
  intros Hrun k r Hk.
  destruct (boot_keyed _ _ _ Hrun _ _ Hk) as [Hr _].
  eapply run_keeps_valid; [| |exact Hrun|exact Hr].
  - cbn. intros ? ?. lia.
  - by cbn.
Qed.

Lemma stored_orders_respect_schema_on_plain_run :
  run plainRun (boot 0) = Some afterPlainRun /\
  orderStore (world afterPlainRun) !! sampleId = Some 1 /\
  validRequest (heap (world afterPlainRun) !!! 1).
Proof.
  split; [reflexivity|]. split; [reflexivity|].
  exact (stored_orders_respect_schema 0 plainRun afterPlainRun eq_refl sampleId 1 eq_refl).
Defined.

(** ** The queue *)

Lemma step_queue (l : Label) (s s' : System) :
  step l s = Some s' ->
  exists js,
    orderQueue (world s') = orderQueue (world s) ++ js /\
    length js = length (List.filter isAccepted [l]) /\
    Forall freshJob js.
Proof.
  assert (forall order from w w' c, resume order from w = (w', c) ->
            exists js, orderQueue w' = orderQueue w ++ js /\ length js = 0 /\
                       Forall freshJob js) as Hresume.
  { intros order from w w' c Hrun. exists [].
    rewrite (same_queue _ _ _ _ (resume_touches_only _ _ _ _ _ Hrun)).
    by rewrite app_nil_r. }
  destruct l as [e|n|order rA rB|order rDelay uuid r]; cbn [step].
  - intros [= <-]. cbn [world].
    destruct (happen_queue e (world s)) as [(body & uuid & -> & Hok & ->)|(Hno & ->)].
    + eexists. split; [done|]. cbn. rewrite Hok. split; [done|].
      constructor; [|done]. by repeat split.
    + exists []. rewrite app_nil_r. cbn [List.filter]. rewrite Hno. done.
  - destruct (orderQueue (world s) !! n) as [job|]; [|done].
    rewrite startHandler_unfold. destruct (resume _ _ _) as [w' c] eqn:Hrun.
    apply Hresume in Hrun. destruct c; intros [= <-]; exact Hrun.
  - destruct (handlers s !! order) as [[[| |]|]|]; try done.
    destruct (resume _ _ _) as [w' c] eqn:Hrun. intros [= <-]. by eapply Hresume.
  - destruct (handlers s !! order) as [[[|dex|]|]|]; try done.
    destruct (resume _ _ _) as [w' c] eqn:Hrun. intros [= <-]. by eapply Hresume.
Qed.

(** X14.  Along any run the queue only grows, by exactly one job for each
    submission the schema lets through: the job is named 'execute_order',
    has three attempts with exponential backoff from 1000 ms, and carries
    the order as it was created, pending and with neither [txHash] nor
    [error].  No handler and no socket event adds, changes or removes a
    job. *)
Theorem one_job_per_accepted_submission (ls : list Label) (s s' : System) :
  run ls s = Some s' ->
  exists js,
    orderQueue (world s') = orderQueue (world s) ++ js /\
    length js = length (List.filter isAccepted ls) /\
    Forall freshJob js.
Proof.
  revert s. induction ls as [|l ls IH]; intros s; cbn [run].
  - intros [= <-]. exists []. by rewrite app_nil_r.
  - destruct (step l s) as [s1|] eqn:Hstep; [|done]. intros Hrun.
    destruct (step_queue _ _ _ Hstep) as (js1 & Hq1 & Hn1 & Hf1).
    destruct (IH _ Hrun) as (js2 & Hq2 & Hn2 & Hf2).
    exists (js1 ++ js2). split; [by rewrite Hq2, Hq1, app_assoc|].
    split; [|by apply Forall_app].
    rewrite length_app, Hn1, Hn2. cbn [List.filter].
    by destruct (isAccepted l).
Qed.

Lemma one_job_per_accepted_submission_on_plain_run :
  run plainRun (boot 0) = Some afterPlainRun /\
  exists js,
    orderQueue (world afterPlainRun) = [] ++ js /\
    length js = 1 /\
    Forall freshJob js.
Proof.
  split; [reflexivity|].
  exact (one_job_per_accepted_submission plainRun (boot 0) afterPlainRun eq_refl).
Defined.

(** ** The statuses a handler writes *)

Lemma statusesWritten_app (order : nat) (t rest : list Effect) :
  statusesWritten order (t ++ rest) =
    statusesWritten order t ++ omap writtenStatus (effectsOf (WorkerHandler order) rest).
Proof. unfold statusesWritten. by rewrite effectsOf_app, omap_app. Qed.

(** The statuses one resumption writes. *)
Lemma resume_statuses (order : nat) (from : Resume) (w w' : World) (c : Completion Next)
    (rest : list Effect) :
  resume order from w = (w', c) -> trace w' = trace w ++ rest ->
  match from, c with
  | Dequeued, Normal next => next = AwaitQuotes /\ omap writtenStatus rest = [routing]
  | Dequeued, Throw _ => omap writtenStatus rest = [routing; failed]
  | QuotesSettled (Normal _), Normal next =>
      (exists dex, next = AwaitSwap dex) /\
      omap writtenStatus rest = [building; submitted]
  | QuotesSettled (Normal _), Throw _ =>
      omap writtenStatus rest = [building; failed] \/
      omap writtenStatus rest = [building; submitted; failed]
  | SwapSettled _ (Normal _), Normal next =>
      (exists success r, next = Returned success r) /\
      omap writtenStatus rest = [confirmed]
  | SwapSettled _ (Normal _), Throw _ => omap writtenStatus rest = [confirmed; failed]
  | _, _ => True
  end.
Proof.
  destruct from as [|[prices|e]|dex [result|e]]; resume_paths; intros [= <- <-];
    try exact (fun _ => I);
    rewrite ?trace_delivered; cbn [trace recorded emit hashed assign fst];
    rewrite ?trace_delivered; cbn [trace recorded emit hashed assign fst];
    rewrite ?trace_delivered; cbn [trace recorded emit hashed assign fst];
    rewrite <- ?app_assoc; intros Hrest; apply app_inv_head in Hrest as <-;
    rewrite ?omap_app;
    repeat match goal with
           | |- context [match ?x with Some _ => _ | None => _ end] => destruct x
           end;
    cbn; eauto.
Qed.

Lemma resume_statuses_of (me order : nat) (from : Resume) (w w' : World)
    (c : Completion Next) :
  resume me from w = (w', c) ->
  exists rest,
    trace w' = trace w ++ rest /\
    statusesWritten order (trace w') =
      statusesWritten order (trace w) ++
      if decide (order = me) then omap writtenStatus rest else [].
Proof.
  intros Hrun.
  destruct (more_trace _ _ _ _ (resume_touches_only _ _ _ _ _ Hrun)) as (rest & Ht & Hrest).
  exists rest. split; [done|]. rewrite Ht, statusesWritten_app. f_equal.
  destruct (decide (order = me)) as [->|Hne].
  - rewrite effectsOf_own; [done|].
    eapply Forall_impl; [exact Hrest|]. by intros e [? _].
  - rewrite effectsOf_other; [done|].
    eapply Forall_impl; [exact Hrest|]. intros e [-> _]. congruence.
Qed.

Lemma step_keeps_handlers (l : Label) (s s' : System) :
  (forall r c, handlers s !! r = Some c -> r < nextRef (world s)) ->
  step l s = Some s' ->
  forall r c, handlers s' !! r = Some c -> r < nextRef (world s').
Proof.
  intros Hh.
  destruct l as [e|n|order rA rB|order rDelay uuid r]; cbn [step].
  - intros [= <-] r c Hr. cbn in *. specialize (Hh _ _ Hr).
    destruct (happen_store e (world s)) as [(_ & _ & _ & _ & _ & _ & ->)|(_ & _ & ->)]; lia.
  - destruct (orderQueue (world s) !! n) as [job|]; [|done].
    rewrite startHandler_unfold. destruct (resume _ _ _) as [w' c] eqn:Hrun.
    pose proof (same_nextRef _ _ _ _ (resume_touches_only _ _ _ _ _ Hrun)) as Hn.
    cbn in Hn.
    assert (forall c' r c0, <[nextRef (world s) := c']> (handlers s) !! r = Some c0 ->
                            r < nextRef w') as Hh'.
    { intros c' r c0. rewrite Hn.
      destruct (decide (nextRef (world s) = r)) as [<-|Hne]; [intros _; lia|].
      rewrite lookup_insert_ne by done. intros Hr. specialize (Hh _ _ Hr). lia. }
    destruct c; intros [= <-]; cbn; apply Hh'.
  - destruct (handlers s !! order) as [[[| |]|]|] eqn:Hme; try done.
    destruct (resume _ _ _) as [w' c] eqn:Hrun. intros [= <-] r' c0. cbn.
    rewrite (same_nextRef _ _ _ _ (resume_touches_only _ _ _ _ _ Hrun)).
    destruct (decide (order = r')) as [<-|Hne]; [intros _; by eapply Hh|].
    rewrite lookup_insert_ne by done. apply Hh.
  - destruct (handlers s !! order) as [[[|dex|]|]|] eqn:Hme; try done.
    destruct (resume _ _ _) as [w' c] eqn:Hrun. intros [= <-] r' c0. cbn.
    rewrite (same_nextRef _ _ _ _ (resume_touches_only _ _ _ _ _ Hrun)).
    destruct (decide (order = r')) as [<-|Hne]; [intros _; by eapply Hh|].
    rewrite lookup_insert_ne by done. apply Hh.
Qed.

Lemma step_keeps_statuses (l : Label) (s s' : System) :
  (forall r c, handlers s !! r = Some c -> r < nextRef (world s)) ->
  (forall order,
     writtenAt (handlers s !! order) (statusesWritten order (trace (world s)))) ->
  step l s = Some s' ->
  forall order,
    writtenAt (handlers s' !! order) (statusesWritten order (trace (world s'))).
Proof.
  intros Hh Hs.
  destruct l as [e|n|me rA rB|me rDelay uuid r]; cbn [step].
  - intros [= <-] order. cbn [world handlers].
    destruct (happen_trace e (world s)) as (rest & -> & Hrest).
    rewrite statusesWritten_app, effectsOf_other, app_nil_r; [apply Hs|].
    eapply Forall_impl; [exact Hrest|]. intros x [Hx|Hx]; rewrite Hx; done.
  - destruct (orderQueue (world s) !! n) as [job|]; [|done].
    rewrite startHandler_unfold. destruct (resume _ _ _) as [w' c] eqn:Hrun.
    intros Hs' order.
    destruct (resume_statuses_of _ order _ _ _ _ Hrun) as (rest & Ht & Hw).
    pose proof (resume_statuses _ _ _ _ _ _ Hrun Ht) as Hnew. cbn [trace alloc fst] in Hw.
    assert (handlers s !! nextRef (world s) = None) as Hfresh.
    { destruct (handlers s !! nextRef (world s)) eqn:Hsome; [|done].
      specialize (Hh _ _ Hsome). lia. }
    destruct (decide (order = nextRef (world s))) as [->|Hne].
    + specialize (Hs (nextRef (world s))). rewrite Hfresh in Hs. cbn in Hs.
      rewrite Hs in Hw. cbn [app] in Hw.
      destruct c as [next|e]; injection Hs' as <-; cbn [world handlers];
        rewrite lookup_insert_eq, Hw.
      * destruct Hnew as [-> ->]. done.
      * rewrite Hnew. exists 1; split; [lia|reflexivity].
    + rewrite app_nil_r in Hw.
      destruct c as [next|e]; injection Hs' as <-; cbn [world handlers];
        rewrite lookup_insert_ne, Hw by done; apply Hs.
  - destruct (handlers s !! me) as [[[| |]|]|] eqn:Hme; try done.
    destruct (resume _ _ _) as [w' c] eqn:Hrun. intros [= <-] order. cbn [world handlers].
    destruct (resume_statuses_of _ order _ _ _ _ Hrun) as (rest & Ht & Hw).
    pose proof (resume_statuses _ _ _ _ _ _ Hrun Ht) as Hnew. cbn in Hnew.
    destruct (decide (order = me)) as [->|Hne].
    + specialize (Hs me). rewrite Hme in Hs. cbn in Hs. rewrite Hs in Hw.
      rewrite lookup_insert_eq, Hw. destruct c as [next|e].
      * destruct Hnew as [[dex ->] ->]. done.
      * destruct Hnew as [-> | ->]; [exists 2|exists 3]; (split; [lia|reflexivity]).
    + rewrite app_nil_r in Hw. rewrite lookup_insert_ne, Hw by done. apply Hs.
  - destruct (handlers s !! me) as [[[|dex|]|]|] eqn:Hme; try done.
    destruct (resume _ _ _) as [w' c] eqn:Hrun. intros [= <-] order. cbn [world handlers].
    destruct (resume_statuses_of _ order _ _ _ _ Hrun) as (rest & Ht & Hw).
    pose proof (resume_statuses _ _ _ _ _ _ Hrun Ht) as Hnew. cbn in Hnew.
    destruct (decide (order = me)) as [->|Hne].
    + specialize (Hs me). rewrite Hme in Hs. cbn in Hs. rewrite Hs in Hw.
      rewrite lookup_insert_eq, Hw. destruct c as [next|e].
      * destruct Hnew as [(success & r' & ->) ->]. done.
      * rewrite Hnew. exists 4; split; [lia|reflexivity].
    + rewrite app_nil_r in Hw. rewrite lookup_insert_ne, Hw by done. apply Hs.
Qed.

(** X15.  In every run from the empty system, the statuses a handler
    writes to the store come in the order routing, building, submitted,
    confirmed, none skipped and none twice, as far as the handler has got:
    one at the first [await], three at the second, all four when it has
    returned.  A handler that has thrown has written 'failed' last, once,
    after at least 'routing'; what precedes 'failed' can be all four, so
    'confirmed' can be followed by 'failed'. *)
Theorem handler_statuses_in_order (now : Z) (ls : list Label) (s : System) :
  run ls (boot now) = Some s ->
  forall order,
    writtenAt (handlers s !! order) (statusesWritten order (trace (world s))).
Proof.
  assert (forall ls s s',
            (forall r c, handlers s !! r = Some c -> r < nextRef (world s)) ->
            (forall order,
               writtenAt (handlers s !! order) (statusesWritten order (trace (world s)))) ->
            run ls s = Some s' ->
            forall order,
              writtenAt (handlers s' !! order) (statusesWritten order (trace (world s'))))
    as Hrun.
  { clear. induction ls as [|l ls IH]; intros s s' Hh Hs; cbn [run].
    - by intros [= <-].
    - destruct (step l s) as [s1|] eqn:Hstep; [|done].
      apply IH.
      + by eapply step_keeps_handlers.
      + by eapply step_keeps_statuses. }
  intros H. eapply Hrun; [| |exact H].
  - intros r c Hr. cbn in Hr. by rewrite lookup_empty in Hr.
  - intros order. cbn. by rewrite lookup_empty.
Qed.

Lemma handler_statuses_in_order_on_late_fault :
  run lateSocketFault (boot 0) = Some afterLateSocketFault /\
  handlers afterLateSocketFault !! 1 = Some (Throw notOpen) /\
  statusesWritten 1 (trace (world afterLateSocketFault)) = lifecycle ++ [failed] /\
  writtenAt (handlers afterLateSocketFault !! 1)
    (statusesWritten 1 (trace (world afterLateSocketFault))).
Proof.
  split; [reflexivity|]. split; [reflexivity|]. split; [reflexivity|].
  exact (handler_statuses_in_order 0 lateSocketFault afterLateSocketFault eq_refl 1).
Defined.

(** ** Who is told what *)

(** The sends of one resumption go to the socket bound to the order's id
    and name that id. *)
Lemma resume_sends (order : nat) (from : Resume) (w w' : World) (c : Completion Next)
    (rest : list Effect) :
  resume order from w = (w', c) -> trace w' = trace w ++ rest ->
  Forall (fun e => match what e with
                   | Send socket text _ =>
                       connections w !! Order.id (heap w !!! order) = Some socket /\
                       property "orderId" text = Some (JsString (Order.id (heap w !!! order)))
                   | StoreSet _ _ => True
                   end) rest.
Proof.
  destruct from as [|[prices|e]|dex [result|e]]; resume_paths; intros [= <- <-];
    sockets;
    rewrite ?trace_delivered; cbn [trace recorded emit hashed assign fst];
    rewrite ?trace_delivered; cbn [trace recorded emit hashed assign fst];
    rewrite ?trace_delivered; cbn [trace recorded emit hashed assign fst];
    read_world;
    cbn [Order.id moved failedWith Order.set_status Order.set_updatedAt
         Order.set_error Order.set_txHash];
    rewrite <- ?app_assoc; intros Hrest; apply app_inv_head in Hrest as <-;
    repeat match goal with
           | |- context [match connections w !! ?k with Some _ => _ | None => _ end] =>
               let Hb := fresh "Hbound" in destruct (connections w !! k) eqn:Hb
           end;
    repeat (apply Forall_app; split); repeat constructor; cbn; try done.
Qed.

Lemma addressed_later (w w' : World) (e : Effect) :
  (forall x, x ∈ closeListeners w -> x ∈ closeListeners w') ->
  addressed w e -> addressed w' e.
Proof.
  unfold addressed. intros Hl. destruct (what e); [done|].
  intros (k & Hk & Hin). exists k. split; [done|]. by apply Hl.
Qed.

Lemma snapshot_orderId (o : Order.t) :
  property "orderId" (snapshot o) = Some (JsString (Order.id o)).
Proof. rewrite snapshot_unfold. reflexivity. Qed.

Lemma happen_addressed (e : Event) (w : World) :
  storeKeyed w -> registryListens w -> Forall (addressed w) (trace w) ->
  registryListens (happen e w) /\ Forall (addressed (happen e w)) (trace (happen e w)).
Proof.
  intros Hstore Hreg Htrace.
  destruct e as [body uuid|orderId socket|socket|socket throws|ms]; cbn [happen].
  - destruct (schemaAccepts body); [|done].
    rewrite postOrdersExecute_unfold. cbn. split; [exact Hreg|].
    apply Forall_app. split; [exact Htrace|]. by repeat constructor.
  - rewrite wsConnect_unfold. cbn [setBroken orderStore broken heap].
    rewrite lookup_delete_eq.
    assert (forall w1 : World,
              connections w1 = <[orderId := socket]> (connections w) ->
              closeListeners w1 = closeListeners w ++ [(socket, orderId)] ->
              registryListens w1) as Hreg'.
    { intros w1 Hc Hl k s. rewrite Hc, Hl.
      destruct (decide (orderId = k)) as [->|Hne].
      - rewrite lookup_insert_eq. intros [= <-]. apply elem_of_app. right.
        apply list_elem_of_here.
      - rewrite lookup_insert_ne by done. intros Hk. apply elem_of_app. left.
        by apply Hreg. }
    assert (Forall (addressed (listening socket orderId (bound orderId socket w)))
              (trace w)) as Hold.
    { eapply Forall_impl; [exact Htrace|]. intros x. apply addressed_later.
      intros y Hy. cbn. apply elem_of_app. by left. }
    destruct (orderStore w !! orderId) as [order|] eqn:Horder; cbn [fst].
    + split; [by apply Hreg'|]. cbn [trace listening socket_on_close emit fst].
      apply Forall_app. split.
      * eapply Forall_impl; [exact Hold|]. intros x. by apply addressed_later.
      * constructor; [|done]. unfold addressed. cbn [what].
        exists orderId. split.
        -- rewrite snapshot_orderId. destruct (Hstore _ _ Horder) as [_ ->]. done.
        -- apply elem_of_app. right. apply list_elem_of_here.
    + split; [by apply Hreg'|]. exact Hold.
  - destruct (socketClosed_fields socket w) as (_ & _ & _ & _ & _ & Hl & _ & Ht).
    split.
    + intros k s Hk. rewrite Hl. apply Hreg.
      assert (connections (fst (socketClosed socket w)) !! k =
              if bool_decide ((socket, k) ∈ closeListeners w) then None
              else connections w !! k) as Hu by apply listeners_unbind.
      rewrite Hu in Hk. by destruct (bool_decide _).
    + rewrite Ht. eapply Forall_impl; [exact Htrace|]. intros x.
      apply addressed_later. by rewrite Hl.
  - done.
  - done.
Qed.

Lemma resume_addressed (order : nat) (from : Resume) (w w' : World)
    (c : Completion Next) :
  registryListens w -> Forall (addressed w) (trace w) ->
  resume order from w = (w', c) ->
  registryListens w' /\ Forall (addressed w') (trace w').
Proof.
  intros Hreg Htrace Hrun.
  pose proof (resume_touches_only _ _ _ _ _ Hrun) as [_ _ Hc _ Hl _ _ _ (rest & Ht & _)].
  pose proof (resume_sends _ _ _ _ _ _ Hrun Ht) as Hsends.
  split.
  - intros k s. rewrite Hc, Hl. apply Hreg.
  - rewrite Ht. apply Forall_app. split.
    + eapply Forall_impl; [exact Htrace|]. intros x. apply addressed_later.
      by rewrite Hl.
    + eapply Forall_impl; [exact Hsends|]. intros x. unfold addressed.
      destruct (what x); [done|]. intros [Hb Hp]. eexists. split; [exact Hp|].
      rewrite Hl. by apply Hreg.
Qed.

Lemma step_addressed (l : Label) (s s' : System) :
  storeKeyed (world s) -> registryListens (world s) ->
  Forall (addressed (world s)) (trace (world s)) ->
  step l s = Some s' ->
  registryListens (world s') /\ Forall (addressed (world s')) (trace (world s')).
Proof.
  intros Hstore Hreg Htrace.
  destruct l as [e|n|order rA rB|order rDelay uuid r]; cbn [step].
  - intros [= <-]. by apply happen_addressed.
  - destruct (orderQueue (world s) !! n) as [job|]; [|done].
    rewrite startHandler_unfold. destruct (resume _ _ _) as [w' c] eqn:Hrun.
    apply resume_addressed in Hrun; [|exact Hreg|exact Htrace].
    destruct c; intros [= <-]; exact Hrun.
  - destruct (handlers s !! order) as [[[| |]|]|]; try done.
    destruct (resume _ _ _) as [w' c] eqn:Hrun. intros [= <-].
    by eapply resume_addressed.
  - destruct (handlers s !! order) as [[[|dex|]|]|]; try done.
    destruct (resume _ _ _) as [w' c] eqn:Hrun. intros [= <-].
    by eapply resume_addressed.
Qed.

(** X16.  In every run from the empty system, every message sent on a
    socket, the snapshot of the WebSocket route or an event of a handler,
    names as [orderId] an order id for which that socket has connected: no
    client is sent the events of an order it did not ask for. *)
Theorem no_cross_talk (now : Z) (ls : list Label) (s : System) :
  run ls (boot now) = Some s ->
  Forall (addressed (world s)) (trace (world s)).
Proof.
  assert (forall ls s s',
            storeKeyed (world s) ->
            (forall r c, handlers s !! r = Some c -> r < nextRef (world s)) ->
            registryListens (world s) ->
            Forall (addressed (world s)) (trace (world s)) ->
            run ls s = Some s' ->
            Forall (addressed (world s')) (trace (world s'))) as Hrun.
  { clear. induction ls as [|l ls IH]; intros s s' Hs Hh Hr Ht; cbn [run].
    - by intros [= <-].
    - destruct (step l s) as [s1|] eqn:Hstep; [|done].
      destruct (step_keeps_keys _ _ _ Hs Hh Hstep) as [Hs1 Hh1].
      destruct (step_addressed _ _ _ Hs Hr Ht Hstep) as [Hr1 Ht1].
      by apply IH. }
  intros H. eapply Hrun; [| | | |exact H].
  - intros k r Hk. cbn in Hk. by rewrite lookup_empty in Hk.
  - intros r c Hr. cbn in Hr. by rewrite lookup_empty in Hr.
  - intros k r Hk. cbn in Hk. by rewrite lookup_empty in Hk.
  - by cbn.
Qed.

Lemma no_cross_talk_on_plain_run :
  run plainRun (boot 0) = Some afterPlainRun /\
  Forall (addressed (world afterPlainRun)) (trace (world afterPlainRun)).
Proof.
  split; [reflexivity|].
  exact (no_cross_talk 0 plainRun afterPlainRun eq_refl).
Defined.

(** ** Shutdown *)

Lemma socketErrors_cons (r : Resources) (orderId : string) (connection : nat)
    (entries : list (string * nat)) :
  socketErrors r ((orderId, connection) :: entries) =
    match socketClose r connection with
    | Throw e => [("WebSocket", e)]
    | Normal _ => []
    end ++ socketErrors r entries.
Proof.
  unfold socketErrors. cbn. by destruct (socketClose r connection).
Qed.

Lemma closeEach_run (r : Resources) (entries : list (string * nat))
    (errors : list (string * Thrown)) (w : World) :
  closeEach r entries errors w =
    (fold_left
       (fun w' entry =>
          match socketClose r (snd entry) with
          | Normal _ => fst (connections_delete (fst entry) w')
          | Throw _ => w'
          end) entries w,
     Normal (errors ++ socketErrors r entries)).
Proof.
  revert errors w. induction entries as [|[orderId connection] entries IH];
    intros errors w.
  - unfold socketErrors. cbn. by rewrite app_nil_r.
  - rewrite socketErrors_cons. cbn [closeEach fold_left fst snd].
    unfold bind at 1.
    destruct (socketClose r connection) as [[]|e];
      cbv [tryCatch bind external ret]; cbn [connections_delete]; rewrite IH.
    + reflexivity.
    + by rewrite <- app_assoc.
Qed.

Lemma closing_keeps_rest (r : Resources) (entries : list (string * nat)) (w : World) :
  sameButRegistry w
    (fold_left
       (fun w' entry =>
          match socketClose r (snd entry) with
          | Normal _ => fst (connections_delete (fst entry) w')
          | Throw _ => w'
          end) entries w).
Proof.
  revert w. induction entries as [|entry entries IH]; intros w; cbn [fold_left].
  - by repeat split.
  - destruct (socketClose r entry.2); [|apply IH].
    destruct (IH (connections_delete entry.1 w).1) as (? & ? & ? & ? & ? & ? & ? & ?).
    unfold sameButRegistry. by repeat split.
Qed.

Lemma closing_keeps_unbound (r : Resources) (entries : list (string * nat)) (w : World)
    (k : string) :
  connections w !! k = None ->
  connections
    (fold_left
       (fun w' entry =>
          match socketClose r (snd entry) with
          | Normal _ => fst (connections_delete (fst entry) w')
          | Throw _ => w'
          end) entries w) !! k = None.
Proof.
  revert w. induction entries as [|entry entries IH]; intros w Hk; cbn [fold_left].
  - done.
  - apply IH. destruct (socketClose r entry.2); [|done].
    cbn. destruct (decide (entry.1 = k)) as [->|Hne].
    + by rewrite lookup_delete_eq.
    + by rewrite lookup_delete_ne.
Qed.

Lemma closing_unbinds (r : Resources) (entries : list (string * nat)) (w : World)
    (k : string) (socket : nat) (u : unit) :
  (k, socket) ∈ entries -> socketClose r socket = Normal u ->
  connections
    (fold_left
       (fun w' entry =>
          match socketClose r (snd entry) with
          | Normal _ => fst (connections_delete (fst entry) w')
          | Throw _ => w'
          end) entries w) !! k = None.
Proof.
  revert w. induction entries as [|entry entries IH]; intros w Hin Hclose.
  - by apply elem_of_nil in Hin.
  - apply elem_of_cons in Hin as [<-|Hin]; cbn [fold_left fst snd].
    + rewrite Hclose. apply closing_keeps_unbound. cbn. by rewrite lookup_delete_eq.
    + by apply IH.
Qed.

Lemma closing_keeps_bound (r : Resources) (entries : list (string * nat)) (w : World)
    (k : string) :
  (forall socket, (k, socket) ∈ entries -> exists e, socketClose r socket = Throw e) ->
  connections
    (fold_left
       (fun w' entry =>
          match socketClose r (snd entry) with
          | Normal _ => fst (connections_delete (fst entry) w')
          | Throw _ => w'
          end) entries w) !! k = connections w !! k.
Proof.
  revert w. induction entries as [|[k' socket] entries IH]; intros w Hall; cbn [fold_left].
  - done.
  - rewrite IH by (intros s Hs; apply Hall; by apply list_elem_of_further).
    cbn [fst snd]. destruct (socketClose r socket) as [u|e] eqn:Hclose; [|done].
    cbn. destruct (decide (k' = k)) as [->|Hne].
    + destruct (Hall socket) as [e He]; [apply list_elem_of_here|]. congruence.
    + by rewrite lookup_delete_ne.
Qed.

Lemma cleanup_unfold (r : Resources) (w : World) :
  cleanup r w =
    (fold_left
       (fun w' entry =>
          match socketClose r (snd entry) with
          | Normal _ => fst (connections_delete (fst entry) w')
          | Throw _ => w'
          end) (map_to_list (connections w)) w,
     Normal
       (socketErrors r (map_to_list (connections w)) ++
        stageErrors "Worker" [workerClose r; workerDisconnect r] ++
        stageErrors "Queue" [queueClose r; queueDisconnect r] ++
        stageErrors "Redis"
          [redisQuit r; if redisEnded r then Normal tt else redisDisconnect r] ++
        stageErrors "Fastify" [fastifyClose r])).
Proof.
  unfold cleanup. unfold bind at 1. unfold connections_entries.
  unfold bind at 1. rewrite closeEach_run. cbn [app].
  unfold tryCatch, bind, external, ret, stageErrors.
  destruct (workerClose r) as [[]|?], (workerDisconnect r) as [[]|?],
    (queueClose r) as [[]|?], (queueDisconnect r) as [[]|?],
    (redisQuit r) as [[]|?], (redisEnded r), (redisDisconnect r) as [[]|?],
    (fastifyClose r) as [[]|?];
    cbn; rewrite <- ?app_assoc, ?app_nil_r; reflexivity.
Qed.

(** X17.  [cleanup] never rejects: whatever a socket, the worker, the
    queue, the Redis client or the server throws when it is closed is
    caught, and [cleanup] runs to its end.  Of the state of the process it
    changes the registry only. *)
Theorem cleanup_settles (r : Resources) (w : World) :
  exists w' errors, cleanup r w = (w', Normal errors) /\ sameButRegistry w w'.
Proof.
  rewrite cleanup_unfold. eexists _, _. split; [reflexivity|].
  apply closing_keeps_rest.
Qed.

Lemma cleanup_lookup (r : Resources) (w : World) (k : string) :
  connections (fst (cleanup r w)) !! k =
    match connections w !! k with
    | Some socket =>
        match socketClose r socket with
        | Normal _ => None
        | Throw _ => Some socket
        end
    | None => None
    end.
Proof.
  rewrite cleanup_unfold. cbn [fst].
  destruct (connections w !! k) as [socket|] eqn:Hk.
  - destruct (socketClose r socket) as [u|e] eqn:Hclose.
    + eapply closing_unbinds; [|exact Hclose]. by apply elem_of_map_to_list.
    + rewrite closing_keeps_bound; [done|].
      intros s Hs. apply elem_of_map_to_list in Hs.
      assert (s = socket) as -> by congruence. by exists e.
  - by apply closing_keeps_unbound.
Qed.

(** X18.  After [cleanup] the registry holds exactly the bindings of the
    sockets whose [close] threw: the binding of a socket that closed is
    deleted, that of a socket whose [close] threw is kept. *)
Theorem cleanup_registry (r : Resources) (w : World) (k : string) :
  connections (fst (cleanup r w)) !! k =
    match connections w !! k with
    | Some socket =>
        match socketClose r socket with
        | Normal _ => None
        | Throw _ => Some socket
        end
    | None => None
    end.
Proof. apply cleanup_lookup. Qed.

(** X19.  What [cleanup] reports: one entry for each socket whose [close]
    threw -- in the order in which the loop met them, which the model does
    not fix -- then at most one entry for each of the worker, the queue, the
    Redis client and the server, in that order, which is the first fault of
    that stage.  A stage is run whatever the stages before it did; within
    the worker and the queue, [disconnect] is not called when [close]
    threw; the Redis client is disconnected only when [quit] or the timer
    has settled and its status is not 'end'. *)
Theorem cleanup_reports (r : Resources) (w : World) :
  exists sockets,
    sockets ≡ₚ socketErrors r (map_to_list (connections w)) /\
    snd (cleanup r w) =
      Normal
        (sockets ++
         stageErrors "Worker" [workerClose r; workerDisconnect r] ++
         stageErrors "Queue" [queueClose r; queueDisconnect r] ++
         stageErrors "Redis"
           [redisQuit r; if redisEnded r then Normal tt else redisDisconnect r] ++
         stageErrors "Fastify" [fastifyClose r]).
Proof.
  exists (socketErrors r (map_to_list (connections w))).
  split; [done|]. by rewrite cleanup_unfold.
Qed.

Example cleanup_with_failing_resources :
  let w := bound "b" 8 (bound "a" 7 (initial 0)) in
  connections (fst (cleanup failingResources w)) = {["b" := 8]} /\
  snd (cleanup failingResources w) =
    Normal [("WebSocket", closeFailed); ("Worker", closeFailed);
            ("Fastify", OtherValue "timeout")] /\
  cleanup healthyResources w = (initial 0, Normal []).
Proof. vm_compute. done. Qed.

(** ** The server of the tests *)

Lemma mockTurn_unfold (order : nat) (dex uuid : string) (isOpen : nat -> bool)
    (status : OrderStatus) (w : World) :
  mockTurn order dex uuid isOpen status w =
    let me := WorkerHandler order in
    let o := moved status (clock w) (heap w !!! order) in
    let w1 := recorded me order o w in
    let o' := if bool_decide (status = confirmed)
              then Order.set_txHash (dex +:+ "_mock_tx_" +:+ uuid) o else o in
    let w2 := if bool_decide (status = confirmed)
              then hashed order (dex +:+ "_mock_tx_" +:+ uuid) w1 else w1 in
    match connections w !! Order.id o with
    | Some socket =>
        if isOpen socket then
          socket_send me socket
            (JSON_stringify
               [("status", JsString (statusName status));
                ("orderId", JsString (Order.id o));
                ("txHash", optionalString (Order.txHash o'));
                ("executedPrice",
                 if bool_decide (status = confirmed) then JsNumber 100 else JsUndefined)])
            w2
        else (w2, Normal tt)
    | None => (w2, Normal tt)
    end.
Proof.
  unfold mockTurn, bind, assign, newDate, readOrder, orderStore_set, connections_get,
    recorded, hashed, emit, moved, ret.
  cbn. rewrite !lookup_total_insert_eq, !insert_insert_eq.
  destruct (bool_decide (status = confirmed)); cbn;
    rewrite ?lookup_total_insert_eq, ?insert_insert_eq; cbn;
    destruct (connections w !! _) as [socket|]; try reflexivity;
    destruct (isOpen socket); reflexivity.
Qed.

(** X20.  In the turn of 'confirmed', [mockOrderProcessing] assigns
    [order.txHash] after it has called [orderStore.set]; as the store holds
    the object and not a copy, the order the store holds after the turn
    carries the hash all the same.  The record had no new hash when it was
    written, and the message sent to an open socket carries the hash and
    the constant price 100. *)
Theorem mock_confirmation_reaches_store (order : nat) (dex uuid : string)
    (isOpen : nat -> bool) (w : World) :
  let me := WorkerHandler order in
  let hash := dex +:+ "_mock_tx_" +:+ uuid in
  let o := moved confirmed (clock w) (heap w !!! order) in
  let w' := fst (mockTurn order dex uuid isOpen confirmed w) in
  orderStore w' !! Order.id o = Some order /\
  heap w' !!! order = Order.set_txHash hash o /\
  exists rest,
    trace w' = trace w ++ mkEffect (clock w) me (StoreSet (Order.id o) o) :: rest /\
    Forall (fun e =>
              exists socket raised,
                connections w !! Order.id o = Some socket /\ isOpen socket = true /\
                e = mkEffect (clock w) me
                      (Send socket
                         [("status", JsString "confirmed");
                          ("orderId", JsString (Order.id o));
                          ("txHash", JsString hash); ("executedPrice", JsNumber 100)]
                         raised)) rest.
Proof.
  intros me hash o w'. unfold w'. rewrite mockTurn_unfold. cbn zeta.
  rewrite !bool_decide_eq_true_2 by done. fold me hash o.
  assert (forall x : World * Completion unit,
            x = (hashed order hash (recorded me order o w), Normal tt) ->
            orderStore x.1 !! Order.id o = Some order /\
            heap x.1 !!! order = Order.set_txHash hash o /\
            trace x.1 = trace w ++ [mkEffect (clock w) me (StoreSet (Order.id o) o)])
    as Hquiet.
  { intros x ->. cbn. by rewrite lookup_insert_eq, !lookup_total_insert_eq. }
  destruct (connections w !! Order.id o) as [socket|] eqn:Hbound.
  - destruct (isOpen socket) eqn:Hopen.
    + unfold socket_send. cbn [broken hashed recorded assign fst].
      destruct (broken w !! socket) as [e|]; cbn;
        rewrite lookup_insert_eq, !lookup_total_insert_eq;
        (split; [done|]); (split; [done|]);
        eexists; (split; [by rewrite <- app_assoc|]);
        (constructor; [|done]); eauto.
    + destruct (Hquiet _ eq_refl) as (? & ? & ?).
      split; [done|]. split; [done|]. by exists [].
  - destruct (Hquiet _ eq_refl) as (? & ? & ?).
    split; [done|]. split; [done|]. by exists [].
Qed.

(** X21.  [mockOrderProcessing] calls [send] only on a socket that is bound
    to the order's id and whose [readyState] is [OPEN]: with no such socket
    a turn writes the order to the store, sends nothing and returns. *)
Theorem mock_sends_on_open_sockets_only (order : nat) (dex uuid : string)
    (isOpen : nat -> bool) (status : OrderStatus) (w : World) :
  let id := Order.id (heap w !!! order) in
  (forall socket, connections w !! id = Some socket -> isOpen socket = false) ->
  exists w',
    mockTurn order dex uuid isOpen status w = (w', Normal tt) /\
    orderStore w' !! id = Some order /\
    Order.status (heap w' !!! order) = status /\
    trace w' = trace w ++
      [mkEffect (clock w) (WorkerHandler order)
         (StoreSet id (moved status (clock w) (heap w !!! order)))].
Proof.
  intros id Hclosed. rewrite mockTurn_unfold. cbn zeta.
  change (Order.id (moved status (clock w) (heap w !!! order))) with id.
  destruct (connections w !! id) as [socket|] eqn:Hbound.
  - rewrite (Hclosed socket eq_refl).
    eexists. split; [reflexivity|].
    destruct (bool_decide (status = confirmed)); cbn;
      rewrite ?lookup_insert_eq, ?lookup_total_insert_eq; done.
  - eexists. split; [reflexivity|].
    destruct (bool_decide (status = confirmed)); cbn;
      rewrite ?lookup_insert_eq, ?lookup_total_insert_eq; done.
Qed.

Lemma mock_sends_on_open_sockets_only_when_closing :
  let w := openSocketWorld in
  (forall socket, connections w !! sampleId = Some socket ->
                  (fun _ : nat => false) socket = false) /\
  exists w',
    mockTurn 0 "raydium" sampleUuid (fun _ => false) building w = (w', Normal tt) /\
    orderStore w' !! sampleId = Some 0 /\
    Order.status (heap w' !!! 0) = building /\
    trace w' = trace w ++
      [mkEffect (clock w) (WorkerHandler 0)
         (StoreSet sampleId (moved building (clock w) (heap w !!! 0)))].
Proof.
  intros w.
  assert (forall socket, connections w !! sampleId = Some socket ->
                         (fun _ : nat => false) socket = false) as Hclosed by done.
  split; [exact Hclosed|].
  exact (mock_sends_on_open_sockets_only 0 "raydium" sampleUuid (fun _ => false)
           building w Hclosed).
Defined.

(** X22.  The submission route of the tests does not use the queue: it
    runs the first turn of [mockOrderProcessing] on the very object it has
    put in the store, before it replies.  So the order is already in status
    'routing' in the store when the reply says 'pending', no job is added,
    and the route replies 202 whatever that turn does. *)
Theorem test_route_replies_pending_after_routing (body : OrderRequest.t) (uuid : string)
    (r : Q) (isOpen : nat -> bool) (port : string) (w : World) :
  exists w',
    testPostOrdersExecute body uuid r isOpen port w =
      (w', Normal (mkReply 202
                     [("orderId", JsString uuid); ("status", JsString "pending");
                      ("wsEndpoint",
                       JsString ("ws://localhost:" +:+ port +:+ "/ws/" +:+ uuid))])) /\
    orderStore w' !! uuid = Some (nextRef w) /\
    heap w' !!! nextRef w = moved routing (clock w) (created body uuid (clock w)) /\
    orderQueue w' = orderQueue w.
Proof.
  unfold testPostOrdersExecute.
  unfold bind at 1. unfold newDate at 1.
  unfold bind at 1. unfold newDate at 1.
  unfold bind at 1. unfold alloc at 1.
  unfold bind at 1. unfold readOrder at 1. cbn [heap].
  rewrite lookup_total_insert_eq.
  unfold bind at 1. unfold orderStore_set at 1. cbn [heap Order.id].
  unfold bind at 1. unfold tryCatch. rewrite mockTurn_unfold. cbn zeta.
  rewrite bool_decide_eq_false_2 by done.
  match goal with
  | |- context [connections ?w0 !! ?k] => destruct (connections w0 !! k) as [socket|]
  end.
  - destruct (isOpen socket).
    + unfold socket_send.
      match goal with
      | |- context [broken ?w0 !! socket] => destruct (broken w0 !! socket)
      end;
        cbn; rewrite ?lookup_total_insert_eq, ?insert_insert_eq, ?lookup_insert_eq; cbn;
        eexists; (split; [reflexivity|]); cbn;
        rewrite ?lookup_total_insert_eq, ?lookup_insert_eq; done.
    + cbn; rewrite ?lookup_total_insert_eq, ?insert_insert_eq, ?lookup_insert_eq; cbn.
      eexists; (split; [reflexivity|]); cbn;
        rewrite ?lookup_total_insert_eq, ?lookup_insert_eq; done.
  - cbn; rewrite ?lookup_total_insert_eq, ?insert_insert_eq, ?lookup_insert_eq; cbn.
    eexists; (split; [reflexivity|]); cbn;
      rewrite ?lookup_total_insert_eq, ?lookup_insert_eq; done.
Qed.

(** ** The hooks of the test setup *)

(** X23.  The hooks register [cleanup] twice, so [afterAll] runs it twice.
    As [cleanup] catches whatever it meets, [afterAll] collects no error
    and does not reject, whatever the resources do; it leaves
    [cleanupFunctions] empty; and a socket is left in the registry only if
    its [close] threw in both runs. *)
Theorem after_all_runs_cleanup_twice (first second : Resources) (w : World) :
  exists w',
    afterAll (registeredCleanups first second) w = (w', Normal ([], [])) /\
    forall k, connections w' !! k =
      match connections w !! k with
      | Some socket =>
          match socketClose first socket, socketClose second socket with
          | Throw _, Throw _ => Some socket
          | _, _ => None
          end
      | None => None
      end.
Proof.
  unfold afterAll, registeredCleanups, registerCleanup.
  cbn [app runCleanupFunctions].
  pose proof (cleanup_lookup first w) as H1.
  pose proof (cleanup_unfold first w) as Hu1.
  destruct (cleanup first w) as [w1 c1] eqn:Hc1.
  injection Hu1 as _ ->. cbn [fst] in H1.
  pose proof (cleanup_lookup second w1) as H2.
  pose proof (cleanup_unfold second w1) as Hu2.
  destruct (cleanup second w1) as [w2 c2] eqn:Hc2.
  injection Hu2 as _ ->. cbn [fst] in H2.
  exists w2. split.
  - unfold bind, tryCatch, ret. rewrite Hc1. cbv beta iota. rewrite Hc2. reflexivity.
  - intros k. rewrite H2, H1.
    destruct (connections w !! k) as [socket|]; [|done].
    destruct (socketClose first socket); [done|].
    by destruct (socketClose second socket).
Qed.
